(** * CAFE: error model, replicate-measure error estimation, and the
      birth-death inference core

    A shallow embedding of [cafe/error_model.cpp], and a model of the
    transition kernel and of the pruning engine, whose code is not among the
    sources, from their specification.

    Conventions of the embedding:
    - a C [int] is a [Z]; the counters of this code stay far below 2^31, and
      signed overflow (undefined in C) is not modelled, except where
      [read_freq_from_measures] counts ([int_incr]);
    - a [double] is a binary64 floating-point number;
    - a heap array ([double**], [int**], [double*]) is a list, read and
      written by index; an access outside its bounds is the outcome
      [Undefined];
    - a [std::istream] is the list of the lines that [std::getline] will
      still return, or [None] when the stream is in a failed state;
    - a function that can throw, abort or loop returns an [outcome];
    - [assert] depends on the build ([NDEBUG]).

    The kernel and the engine are modelled in exact arithmetic, over the
    reals and, where values are computed, over the rationals. *)

From Stdlib Require Import ZArith QArith Qabs Lia Lqa List String Ascii Bool.
From Stdlib Require Import Floats Uint63 DecimalString.
From Stdlib Require Import Reals Qreals Qpower Psatz.
From stdpp Require Import base list strings.
Import ListNotations.

Local Open Scope Z_scope.

(** ** Outcomes of a C++ call *)

Inductive outcome (A : Type) : Type :=
| Ok (a : A)                (* normal return *)
| Throw (what : string)     (* a C++ exception leaves the function *)
| AssertFail                (* [assert] failed *)
| Undefined                 (* access outside an array *)
| OutOfFuel.                 (* the loop budget of the model ran out *)

Arguments Ok {A} a.
Arguments Throw {A} what.
Arguments AssertFail {A}.
Arguments Undefined {A}.
Arguments OutOfFuel {A}.

Definition obind {A B : Type} (x : outcome A) (f : A -> outcome B) : outcome B :=
  match x with
  | Ok a => f a
  | Throw w => Throw w
  | AssertFail => AssertFail
  | Undefined => Undefined
  | OutOfFuel => OutOfFuel
  end.

#[global] Instance outcome_ret : MRet outcome := fun A a => Ok a.
#[global] Instance outcome_bind : MBind outcome := fun A B f x => obind x f.

(** ** Arrays *)

(** [p[i]] on a heap array of known length. *)
Definition aget {A : Type} (l : list A) (i : Z) : outcome A :=
  if i <? 0 then Undefined
  else match l !! Z.to_nat i with
       | Some x => Ok x
       | None => Undefined
       end.

(** [p[i] = x]. *)
Definition aset {A : Type} (l : list A) (i : Z) (x : A) : outcome (list A) :=
  if i <? 0 then Undefined
  else if (Z.to_nat i <? length l)%nat then Ok (<[Z.to_nat i := x]> l)
  else Undefined.

(** A two-dimensional array as [memory_new_2dim] lays it out: an array of
    rows. *)
Abbreviation matrix A := (list (list A)) (only parsing).

(** [m[i][j]] *)
Definition mget {A : Type} (m : matrix A) (i j : Z) : outcome A :=
  row ← aget m i; aget row j.

(** [m[i][j] = x] *)
Definition mset {A : Type} (m : matrix A) (i j : Z) (x : A) : outcome (matrix A) :=
  row ← aget m i; row' ← aset row j x; aset m i row'.

(** [rows] by [cols] cells, all equal to [z] ([memory_new_2dim] returns
    zero-filled storage). *)
Definition memory_new_2dim {A : Type} (rows cols : Z) (z : A) : matrix A :=
  replicate (Z.to_nat rows) (replicate (Z.to_nat cols) z).

(** The shape of a [rows] by [cols] array. *)
Definition has_dim {A : Type} (m : matrix A) (rows cols : Z) : Prop :=
  length m = Z.to_nat rows /\ Forall (fun r => length r = Z.to_nat cols) m.

(** ** Loops *)

(** [for (i = lo; ...; i++) body], [n] iterations. *)
Fixpoint for_up {St : Type} (n : nat) (i : Z) (body : Z -> St -> outcome St) (s : St)
  : outcome St :=
  match n with
  | O => Ok s
  | S n' => s' ← body i s; for_up n' (i + 1) body s'
  end.

(** [for (i = lo; i <= hi; i++) body] *)
Definition for_range {St : Type} (lo hi : Z) (body : Z -> St -> outcome St) (s : St)
  : outcome St :=
  for_up (Z.to_nat (hi - lo + 1)) lo body s.

(** [while (cond) body], given a budget of iterations. *)
Fixpoint while {St : Type} (fuel : nat) (cond : St -> bool) (body : St -> outcome St)
  (s : St) : outcome St :=
  match fuel with
  | O => OutOfFuel
  | S fuel' => if cond s then s' ← body s; while fuel' cond body s' else Ok s
  end.

(** ** Assertions *)

(** [assert] of <cassert> expands to nothing under [-DNDEBUG], which the
    release build of the Makefile sets; in the debug and test builds a false
    condition ends the program. *)
Class Build : Type := { NDEBUG : bool }.

Definition debug_build : Build := {| NDEBUG := false |}.
Definition release_build : Build := {| NDEBUG := true |}.

(** ** Strings and the C library *)

(** [split] of error_model.cpp: the tokens that successive calls of
    [getline(ss, tok, delimiter)] return.  A delimiter ends a token, also an
    empty one; the end of the string ends a token only if the token has at
    least one character. *)
Fixpoint split_from (tok : string) (str : string) (delimiter : ascii) : list string :=
  match str with
  | EmptyString => match tok with EmptyString => [] | _ => [tok] end
  | String c rest =>
      if Ascii.eqb c delimiter then tok :: split_from EmptyString rest delimiter
      else split_from (tok +:+ String c EmptyString) rest delimiter
  end.

Definition split (str : string) (delimiter : ascii) : list string :=
  split_from EmptyString str delimiter.

(** [std::vector::at]: a checked access. *)
Definition vector_at {A : Type} (v : list A) (i : Z) : outcome A :=
  if i <? 0 then Throw "vector::_M_range_check"
  else match v !! Z.to_nat i with
       | Some x => Ok x
       | None => Throw "vector::_M_range_check"
       end.

Definition is_space (c : ascii) : bool :=
  let n := nat_of_ascii c in (n =? 32)%nat || ((9 <=? n)%nat && (n <=? 13)%nat).

Definition digit_of (c : ascii) : option Z :=
  let n := nat_of_ascii c in
  if ((48 <=? n)%nat && (n <=? 57)%nat) then Some (Z.of_nat n - 48) else None.

Fixpoint skip_spaces (s : string) : string :=
  match s with
  | String c rest => if is_space c then skip_spaces rest else s
  | EmptyString => s
  end.

Fixpoint atoi_digits (s : string) (acc : Z) : Z :=
  match s with
  | String c rest =>
      match digit_of c with
      | Some d => atoi_digits rest (10 * acc + d)
      | None => acc
      end
  | EmptyString => acc
  end.

(** [atoi]: blanks, an optional sign, then the longest run of digits; 0 when
    there is none. *)
Definition atoi (s : string) : Z :=
  match skip_spaces s with
  | String "-" rest => - atoi_digits rest 0
  | String "+" rest => atoi_digits rest 0
  | rest => atoi_digits rest 0
  end.

(** [ost << n] for an [int]. *)
Definition put_int (n : Z) : string := NilZero.string_of_int (Z.to_int n).

(** [std::setw(w)] in front of one insertion: blanks on the left up to the
    width. *)
Definition setw (w : nat) (s : string) : string :=
  string_of_list_ascii (replicate (w - String.length s) " "%char) +:+ s.

(** [std::tolower] in the C locale. *)
Definition to_lower (ch : ascii) : ascii :=
  let n := nat_of_ascii ch in
  if ((65 <=? n)%nat && (n <=? 90)%nat) then ascii_of_nat (n + 32) else ch.

(** [std::transform(s.begin(), s.end(), s.begin(), f)] *)
Fixpoint transform (f : ascii -> ascii) (s : string) : string :=
  match s with
  | EmptyString => EmptyString
  | String c rest => String (f c) (transform f rest)
  end.

Definition case_insensitive_equal (s1 s2 : string) : bool :=
  String.eqb (transform to_lower s1) (transform to_lower s2).

(** The conversions between text and [double] belong to the C and C++
    libraries; the embedding takes them as given.  [put_double] is
    [ost << x] under [std::setprecision(2)]. *)
Class Libc : Type := {
  atof : string -> float;
  put_double : float -> string
}.

(** ** The error model and its text form (error_model.cpp) *)

(** [ErrorStruct]: [errormatrix[i + j][j]] is the conditional probability of
    measuring [i + j] when the true count is [j]. *)
Record ErrorStruct : Type := mkErrorStruct {
  errorfilename : string;
  maxfamilysize : Z;
  fromdiff : Z;
  todiff : Z;
  errormatrix : matrix float
}.

Definition set_maxfamilysize (e : ErrorStruct) (n : Z) : ErrorStruct :=
  mkErrorStruct (errorfilename e) n (fromdiff e) (todiff e) (errormatrix e).

Definition set_diffs (e : ErrorStruct) (from to : Z) : ErrorStruct :=
  mkErrorStruct (errorfilename e) (maxfamilysize e) from to (errormatrix e).

Definition set_errormatrix (e : ErrorStruct) (m : matrix float) : ErrorStruct :=
  mkErrorStruct (errorfilename e) (maxfamilysize e) (fromdiff e) (todiff e) m.

(** [i + j] is a row of the matrix: [0 <= i + j && i + j <= maxfamilysize]. *)
Definition in_matrix (e : ErrorStruct) (i j : Z) : bool :=
  (0 <=? i + j) && (i + j <=? maxfamilysize e).

Section ErrorModelText.
Context `{Libc} {build : Build}.

(** The [cntdiff] line. *)
Definition cntdiff_line (e : ErrorStruct) : outcome string :=
  for_range (fromdiff e) (todiff e)
    (fun j ost => Ok (ost +:+ " " +:+ put_int j)) "cntdiff"%string.

(** The label of a row.  [std::setw(2)] is in force for the one insertion
    that follows it, which is the label of row 0. *)
Definition row_label (j : Z) : string :=
  if j =? 0 then setw 2 (put_int j) else put_int j.

(** One row of the table: the label, then a cell for each error class. *)
Definition row_line (e : ErrorStruct) (j : Z) : outcome string :=
  for_range (fromdiff e) (todiff e)
    (fun i ost =>
       if in_matrix e i j then
         x ← mget (errormatrix e) (i + j) j;
         Ok (ost +:+ " " +:+ put_double x)
       else Ok (ost +:+ " #nan"))
    (row_label j).

(** [operator<<(std::ostream&, ErrorStruct&)]: the lines written. *)
Definition operator_out (e : ErrorStruct) : outcome (list string) :=
  cntdiff ← cntdiff_line e;
  rows ← for_range 0 (maxfamilysize e)
            (fun j ost => l ← row_line e j; Ok (ost ++ [l])) [];
  Ok (("maxcnt:" +:+ put_int (maxfamilysize e)) :: cntdiff :: rows).

(** The variables of [operator>>] while it reads the rows. *)
Record reader : Type := mkReader {
  rd_model : ErrorStruct;
  rd_i : Z;
  rd_j : Z
}.

(** [for (i = fromdiff; i <= todiff; i++)
       if (i + j >= 0 && i + j <= maxfamilysize)
         errormatrix[i + j][j] = errormatrix[i + j - 1][j - 1];]
    The value of [i] when the loop ends is [todiff + 1], or [fromdiff] if
    that is larger. *)
Definition copy_previous_row (r : reader) : outcome reader :=
  let e := rd_model r in
  let j := rd_j r in
  m ← for_range (fromdiff e) (todiff e)
        (fun i m =>
           if in_matrix e i j then
             x ← mget m (i + j - 1) (j - 1); mset m (i + j) j x
           else Ok m)
        (errormatrix e);
  Ok (mkReader (set_errormatrix e m) (Z.max (fromdiff e) (todiff e + 1)) j).

(** The loop in front of a row, for the rows the file left out:
    [while (j && j < col1) { copy the previous row; i++; }] *)
Definition fill_before_row (fuel : nat) (col1 : Z) (r : reader) : outcome reader :=
  while fuel
    (fun r => negb (rd_j r =? 0) && (rd_j r <? col1))
    (fun r =>
       r' ← copy_previous_row r;
       Ok (mkReader (rd_model r') (rd_i r' + 1) (rd_j r')))
    r.

(** [int k = 1;
     for (i = fromdiff; i <= todiff; i++) {
       assert(j == col1);
       if (i + j >= 0 && i + j <= maxfamilysize)
         errormatrix[i + j][j] = atof(data[k].c_str());
       k++;
     }] *)
Definition store_row (data : list string) (col1 : Z) (r : reader) : outcome reader :=
  let e := rd_model r in
  let j := rd_j r in
  mk ← for_range (fromdiff e) (todiff e)
         (fun i (mk : matrix float * Z) =>
            let (m, k) := mk in
            if NDEBUG || (j =? col1) then
              m' ← (if in_matrix e i j then
                      tok ← aget data k; mset m (i + j) j (atof tok)
                    else Ok m);
              Ok (m', k + 1)
            else AssertFail)
         (errormatrix e, 1);
  Ok (mkReader (set_errormatrix e (fst mk)) (Z.max (fromdiff e) (todiff e + 1)) j).

(** One turn of [while (std::getline(ifst, line))]. *)
Definition read_row (fuel : nat) (line : string) (r : reader) : outcome reader :=
  let data := split line " " in
  tok0 ← aget data 0;
  let col1 := atoi tok0 in
  let e := rd_model r in
  if Z.of_nat (length data) =? (todiff e - fromdiff e) + 2 then
    r1 ← fill_before_row fuel col1 r;
    r2 ← store_row data col1 r1;
    Ok (mkReader (rd_model r2) (rd_i r2) (rd_j r2 + 1))
  else Ok r.

Fixpoint read_rows (fuel : nat) (lines : list string) (r : reader) : outcome reader :=
  match lines with
  | [] => Ok r
  | line :: rest => r' ← read_row fuel line r; read_rows fuel rest r'
  end.

(** [while (j && j <= maxfamilysize) { copy the previous row; j++; }] *)
Definition fill_to_end (fuel : nat) (r : reader) : outcome reader :=
  while fuel
    (fun r => negb (rd_j r =? 0) && (rd_j r <=? maxfamilysize (rd_model r)))
    (fun r =>
       r' ← copy_previous_row r;
       Ok (mkReader (rd_model r') (rd_i r') (rd_j r' + 1)))
    r.

(** The second line of the file, if there is one, gives the error
    classes. *)
Definition read_cntdiff (lines : list string) (e : ErrorStruct)
  : outcome (ErrorStruct * list string) :=
  match lines with
  | [] => Ok (e, [])
  | line :: rest =>
      let data := split line " " in
      from ← vector_at data 1;
      to ← vector_at data (Z.of_nat (length data) - 1);
      Ok (set_diffs e (atoi from) (atoi to), rest)
  end.

(** [operator>>(std::istream&, ErrorStruct&)].  [fuel] bounds the turns of
    each [while] loop. *)
Definition operator_in (fuel : nat) (ifst : list string) (e : ErrorStruct)
  : outcome ErrorStruct :=
  match ifst with
  | [] => Throw "Empty file"
  | line :: rest =>
      let data := split line " " in
      tok0 ← vector_at data 0;
      let max := split tok0 ":" in
      tok1 ← aget max 1;
      let file_row_count := atoi tok1 in
      let e := set_maxfamilysize e (Z.max (maxfamilysize e) file_row_count) in
      er ← read_cntdiff rest e;
      let (e, rest) := (er : ErrorStruct * list string) in
      let e := set_errormatrix e
                 (memory_new_2dim (maxfamilysize e + 1) (maxfamilysize e + 1) 0%float) in
      r ← read_rows fuel rest (mkReader e 0 0);
      r ← fill_to_end fuel r;
      Ok (rd_model r)
  end.

End ErrorModelText.

(** ** A reference instance of the conversions

    Used to run the embedding on concrete files.  [atof_decimal] reads a
    decimal literal and is exact for literals of at most 15 significant digits
    with a decimal exponent within 22 of zero; [put_double_g2] prints a
    finite value as the default floating-point notation of a stream does
    under precision 2. *)

Fixpoint read_digits (s : string) (acc : Z) (n : Z) : Z * Z * string :=
  match s with
  | String c rest =>
      match digit_of c with
      | Some d => read_digits rest (10 * acc + d) (n + 1)
      | None => (acc, n, s)
      end
  | EmptyString => (acc, n, s)
  end.

Definition double_of_nat_Z (z : Z) : float := PrimFloat.of_uint63 (Uint63.of_Z z).

(** [(double) n] for an [int] *)
Definition double_of_int (z : Z) : float :=
  if z <? 0 then PrimFloat.opp (double_of_nat_Z (- z)) else double_of_nat_Z z.

Definition scale10 (x : float) (e : Z) : float :=
  if e <? 0 then PrimFloat.div x (double_of_nat_Z (10 ^ (- e)))
  else PrimFloat.mul x (double_of_nat_Z (10 ^ e)).

Definition read_exponent (s : string) : Z :=
  match s with
  | String c rest =>
      if (Ascii.eqb c "e" || Ascii.eqb c "E")%bool then
        match rest with
        | String "-" r => - fst (fst (read_digits r 0 0))
        | String "+" r => fst (fst (read_digits r 0 0))
        | r => fst (fst (read_digits r 0 0))
        end
      else 0
  | EmptyString => 0
  end.

Definition atof_unsigned (s : string) : float :=
  let '(ip, n1, s1) := read_digits s 0 0 in
  let '(m, n2, s2) :=
    match s1 with
    | String "." r => read_digits r ip 0
    | _ => (ip, 0, s1)
    end in
  if (n1 + n2 =? 0) then 0%float
  else scale10 (double_of_nat_Z m) (read_exponent s2 - n2).

Definition atof_decimal (s : string) : float :=
  match skip_spaces s with
  | String "-" rest => PrimFloat.opp (atof_unsigned rest)
  | String "+" rest => atof_unsigned rest
  | rest => atof_unsigned rest
  end.

(** The largest [x] with [10^x <= num / den], searched from [x] downwards
    or upwards. *)
Fixpoint decimal_exponent_down (fuel : nat) (num den : Z) (x : Z) : Z :=
  match fuel with
  | O => x
  | S f =>
      if (if x <? 0 then den <=? num * 10 ^ (- x) else den * 10 ^ x <=? num)
      then x else decimal_exponent_down f num den (x - 1)
  end.

Fixpoint decimal_exponent_up (fuel : nat) (num den : Z) (x : Z) : Z :=
  match fuel with
  | O => x
  | S f =>
      if den * 10 ^ (x + 1) <=? num then decimal_exponent_up f num den (x + 1) else x
  end.

Definition decimal_exponent (num den : Z) : Z :=
  if den <=? num then decimal_exponent_up 400 num den 0
  else decimal_exponent_down 400 num den (-1).

(** [num / den] rounded to the nearest integer, ties to even. *)
Definition round_half_even (num den : Z) : Z :=
  let q := num / den in
  let r := num mod den in
  if 2 * r <? den then q
  else if den <? 2 * r then q + 1
  else if Z.even q then q else q + 1.

(** Two significant digits [d] (from 10 to 99) and the decimal exponent [x]
    of the leading digit. *)
Definition two_digits (num den : Z) : Z * Z :=
  let x := decimal_exponent num den in
  let d := if x - 1 <? 0 then round_half_even (num * 10 ^ (1 - x)) den
           else round_half_even num (den * 10 ^ (x - 1)) in
  if d =? 100 then (10, x + 1) else (d, x).

Definition digit_string (d : Z) : string := put_int d.

Definition two_digit_exponent (x : Z) : string :=
  (if x <? 0 then "-" else "+") +:+
  (if Z.abs x <? 10 then "0" else "") +:+ put_int (Z.abs x).

Definition general_notation (d x : Z) : string :=
  let d1 := d / 10 in
  let d2 := d mod 10 in
  if (x <? -4) || (2 <=? x) then
    digit_string d1 +:+ (if d2 =? 0 then "" else "." +:+ digit_string d2)
      +:+ "e" +:+ two_digit_exponent x
  else if x =? 1 then digit_string d
  else if x =? 0 then
    digit_string d1 +:+ (if d2 =? 0 then "" else "." +:+ digit_string d2)
  else
    "0." +:+ string_of_list_ascii (replicate (Z.to_nat (- x - 1)) "0"%char)
      +:+ digit_string d1 +:+ (if d2 =? 0 then "" else digit_string d2).

Definition put_double_g2 (x : float) : string :=
  match Prim2SF x with
  | S754_zero s => if s then "-0" else "0"
  | S754_infinity s => if s then "-inf" else "inf"
  | S754_nan => "nan"
  | S754_finite s m e =>
      let (num, den) := if e <? 0 then (Zpos m, 2 ^ (- e)) else (Zpos m * 2 ^ e, 1) in
      let (d, x) := two_digits num den in
      (if s then "-" else "") +:+ general_notation d x
  end.

#[global] Instance reference_libc : Libc :=
  {| atof := atof_decimal; put_double := put_double_g2 |}.

(** ** Families, trees and the attachment of error models *)

(** A [pErrorStruct].  Every [ErrorStruct] this code allocates is entered in
    [family->errors] and stays there until [free_error_model]; a pointer to
    it is its position in that array. *)
Abbreviation pErrorStruct := nat (only parsing).

(** The fields of [CafeFamily] that error_model.cpp uses. *)
Record CafeFamily : Type := mkCafeFamily {
  species : list string;                         (* char** species *)
  num_species : Z;
  index : list Z;                                (* the tree node of each species *)
  errors : option (list ErrorStruct);            (* pArrayList errors, or NULL *)
  error_ptr : option (list (option pErrorStruct)) (* pErrorStruct* error_ptr, or NULL *)
}.

(** A node of the tree, as far as this code touches it. *)
Record CafeNode : Type := mkCafeNode {
  errormodel : option pErrorStruct
}.

(** [pTree->super.nlist->array] *)
Abbreviation CafeTree := (list CafeNode) (only parsing).

Record family_size_range : Type := mkRange {
  range_min : Z;
  range_max : Z;
  root_min : Z;
  root_max : Z
}.

(** The parts of the repository that error_model.cpp calls and that are kept
    in other files (cafe_shell.c). *)
Class CafeShell (M : Type) : Type := {
  check_error_model_columnsums : ErrorStruct -> outcome ErrorStruct;
  cafe_shell_create_error_matrix_from_estimate : M -> outcome ErrorStruct
}.

Fixpoint get_error_model_from (errs : list ErrorStruct) (i : nat) (filename : string)
  : option pErrorStruct :=
  match errs with
  | [] => None
  | error :: rest =>
      if case_insensitive_equal (errorfilename error) filename then Some i
      else get_error_model_from rest (S i) filename
  end.

Definition get_error_model (family : CafeFamily) (filename : string)
  : option pErrorStruct :=
  match errors family with
  | Some errs => get_error_model_from errs 0 filename
  | None => None
  end.

(** [family->error_ptr[i] = errormodel;
     pcnode = pTree->super.nlist->array[family->index[i]];
     pcnode->errormodel = errormodel;] *)
Definition attach_error_model (family : CafeFamily) (pTree : CafeTree) (i : Z)
  (errormodel : option pErrorStruct) : outcome (CafeFamily * CafeTree) :=
  ptrs ← (match error_ptr family with Some p => Ok p | None => Undefined end);
  ptrs' ← aset ptrs i errormodel;
  node ← aget (index family) i;
  pTree' ← aset pTree node (mkCafeNode errormodel);
  Ok (mkCafeFamily (species family) (num_species family) (index family)
        (errors family) (Some ptrs'), pTree').

(** The loop over the species that stops at the first one of the given
    name. *)
Fixpoint attach_first_named (n : nat) (i : Z) (family : CafeFamily) (pTree : CafeTree)
  (errormodel : option pErrorStruct) (speciesname : string)
  : outcome (CafeFamily * CafeTree) :=
  match n with
  | O => Ok (family, pTree)
  | S n' =>
      sp ← aget (species family) i;
      if case_insensitive_equal sp speciesname then
        attach_error_model family pTree i errormodel
      else attach_first_named n' (i + 1) family pTree errormodel speciesname
  end.

Definition allocate_error_ptr (family : CafeFamily) : CafeFamily :=
  match error_ptr family with
  | Some _ => family
  | None =>
      mkCafeFamily (species family) (num_species family) (index family) (errors family)
        (Some (replicate (Z.to_nat (num_species family)) None))
  end.

Definition init_error_ptr (family : CafeFamily) (pTree : CafeTree)
  (errormodel : pErrorStruct) (speciesname : string)
  : outcome (CafeFamily * CafeTree) :=
  let family := allocate_error_ptr family in
  if negb (String.eqb speciesname "") then
    attach_first_named (Z.to_nat (num_species family)) 0 family pTree
      (Some errormodel) speciesname
  else
    for_range 0 (num_species family - 1)
      (fun i (ft : CafeFamily * CafeTree) =>
         attach_error_model (fst ft) (snd ft) i (Some errormodel))
      (family, pTree).

(** What [set_error_matrix_from_file] leaves behind: the family, the tree,
    the names of the files opened so far, and the value returned. *)
Record attached : Type := mkAttached {
  at_family : CafeFamily;
  at_tree : CafeTree;
  at_opened : list string;
  at_value : Z
}.

Section SetErrorMatrix.
Context `{Libc} {build : Build} {M : Type} `{CafeShell M}.

(** [files] gives the lines of each file that can be opened; [opened] lists
    the files opened before the call. *)
Definition set_error_matrix_from_file (fuel : nat)
  (files : string -> option (list string)) (opened : list string)
  (family : CafeFamily) (pTree : CafeTree) (range : family_size_range)
  (filename speciesname : string) : outcome attached :=
  match get_error_model family filename with
  | Some errormodel =>
      ft ← init_error_ptr family pTree errormodel speciesname;
      Ok (mkAttached (fst ft) (snd ft) opened 0)
  | None =>
      let fresh := mkErrorStruct filename (range_max range) 0 0 [] in
      match files filename with
      | None => Throw "errormodel: cannot open file"
      | Some ifst =>
          e ← operator_in fuel ifst fresh;
          e ← check_error_model_columnsums e;
          let errs := match errors family with Some l => l | None => [] end in
          let family := mkCafeFamily (species family) (num_species family)
                          (index family) (Some (errs ++ [e])) (error_ptr family) in
          ft ← init_error_ptr family pTree (length errs) speciesname;
          Ok (mkAttached (fst ft) (snd ft) (opened ++ [filename]) 0)
      end
  end.

End SetErrorMatrix.

(** [remove_error_model]; [assert(family->error_ptr != NULL)] comes first
    when the family has error models. *)
Definition remove_error_model {build : Build} (family : CafeFamily) (pcafe : CafeTree)
  (species_name : string) : outcome (CafeFamily * CafeTree) :=
  match errors family with
  | Some _ =>
      if NDEBUG || bool_decide (is_Some (error_ptr family)) then
        attach_first_named (Z.to_nat (num_species family)) 0 family pcafe
          None species_name
      else AssertFail
  | None => Ok (family, pcafe)
  end.

(** ** Counting the pairs of two replicate measures *)

(** A line of a count file after [operator>>(std::istream&, gene_family&)]. *)
Record gene_family : Type := mkGeneFamily {
  gf_id : string;
  gf_desc : string;
  gf_values : list Z
}.

(** The parser of gene_family.cpp. *)
Class GeneFamilyReader : Type := {
  read_gene_family : string -> outcome gene_family
}.

(** A [std::istream]: the lines still to be read, or [None] when the stream
    is in a failed state. *)
Abbreviation istream := (option (list string)) (only parsing).

(** [for (size_t i = 0; i < gf1.values.size(); i++)
       observed_pairs[gf1.values[i]][gf2.values[i]]++;] *)
Fixpoint check_pairs (v1 v2 : list Z) (observed_pairs : matrix Z) : outcome (matrix Z) :=
  match v1 with
  | [] => Ok observed_pairs
  | a :: v1' =>
      match v2 with
      | [] => Undefined
      | b :: v2' =>
          x ← mget observed_pairs a b;
          m ← mset observed_pairs a b (x + 1);
          check_pairs v1' v2' m
      end
  end.

Section ReadErrorDoubleMeasure.
Context `{GeneFamilyReader}.

(** [while (std::getline(ist1, buf1)) if (std::getline(ist2, buf2)) ...] *)
Fixpoint compare_files (ist1 ist2 : list string) (observed_pairs : matrix Z)
  : outcome (matrix Z) :=
  match ist1 with
  | [] => Ok observed_pairs
  | buf1 :: rest1 =>
      match ist2 with
      | [] => compare_files rest1 [] observed_pairs
      | buf2 :: rest2 =>
          gf1 ← read_gene_family buf1;
          gf2 ← read_gene_family buf2;
          if negb (String.eqb (gf_id gf1) (gf_id gf2)) then
            Throw "ERROR: the family IDs in each line do not match between the two files"
          else
            m ← check_pairs (gf_values gf1) (gf_values gf2) observed_pairs;
            compare_files rest1 rest2 m
      end
  end.

(** [for (int i = 0; i <= maxFamilySize; i++)
       for (int j = 0; j < i; j++) {
         observed_pairs[j][i] += observed_pairs[i][j];
         observed_pairs[i][j] = 0;
       }] *)
Definition merge_pairs (observed_pairs : matrix Z) (maxFamilySize : Z)
  : outcome (matrix Z) :=
  for_range 0 maxFamilySize
    (fun i m =>
       for_range 0 (i - 1)
         (fun j m =>
            a ← mget m j i;
            b ← mget m i j;
            m1 ← mset m j i (a + b);
            mset m1 i j 0)
         m)
    observed_pairs.

Definition read_error_double_measure (ist1 ist2 : istream)
  (observed_pairs : matrix Z) (maxFamilySize : Z) : outcome (matrix Z) :=
  match ist1 with
  | None | Some [] => Throw "errest: measure 1"
  | Some (_ :: rest1) =>
      match ist2 with
      | None | Some [] => Throw "errest: measure 2"
      | Some (_ :: rest2) =>
          m ← compare_files rest1 rest2 observed_pairs;
          merge_pairs m maxFamilySize
      end
  end.

End ReadErrorDoubleMeasure.

(** ** The objective of the replicate-measure error estimation *)

(** [ErrorMeasure], as error_model.cpp uses it. *)
Record ErrorMeasure : Type := mkErrorMeasure {
  sizeDist : list float;
  maxFamilySize : Z;
  pairs : matrix Z;
  estimates : list float;
  b_symmetric : Z;
  b_peakzero : Z;
  model_parameter_diff : Z;
  model_parameter_number : Z
}.

Definition set_estimates (m : ErrorMeasure) (parameters : list float) : ErrorMeasure :=
  mkErrorMeasure (sizeDist m) (maxFamilySize m) (pairs m) parameters
    (b_symmetric m) (b_peakzero m) (model_parameter_diff m) (model_parameter_number m).

(** The function of the mathematical library that the objective calls;
    [log(0)] is a pole error, and its result is minus infinity. *)
Class Libm : Type := {
  log : float -> float;
  log_zero : log 0 = neg_infinity
}.

(** [(1 - sum) / (double)((maxFamilySize + 1) - (model_parameter_diff * 2 + 1))] *)
Definition epsilon_of_sum (errormeasure : ErrorMeasure) (sum : float) : float :=
  ((1 - sum) /
   double_of_int ((maxFamilySize errormeasure + 1)
                  - (model_parameter_diff errormeasure * 2 + 1)))%float.

Definition get_marginal_error_probability_epsilon (errormeasure : ErrorMeasure)
  (parameters : list float) : outcome float :=
  if negb (b_symmetric errormeasure =? 0) then
    p0 ← aget parameters 0;
    sum ← for_range 1 (model_parameter_number errormeasure - 1)
            (fun i sum => p ← aget parameters i; Ok (sum + 2 * p)%float) p0;
    Ok (epsilon_of_sum errormeasure sum)
  else
    sum ← for_range 0 (model_parameter_number errormeasure - 1)
            (fun i sum => p ← aget parameters i; Ok (sum + p)%float) 0%float;
    Ok (epsilon_of_sum errormeasure sum).

(** [for (i = 0; i < model_parameter_number; i++)
       if ((parameters[i] < 0) || (epsilon < 0) || (epsilon > parameters[i]))
         { skip = 1; score = log(0); break; }]
    The result is [skip]. *)
Fixpoint scan_parameters (n : nat) (i : Z) (parameters : list float) (epsilon : float)
  : outcome bool :=
  match n with
  | O => Ok false
  | S n' =>
      p ← aget parameters i;
      if ((p <? 0) || (epsilon <? 0) || (p <? epsilon))%float then Ok true
      else scan_parameters n' (i + 1) parameters epsilon
  end.

(** [for (i = first; ...; i++) {
       if (previous_param < parameters[at i]) { skip = 1; score = log(0); break; }
       previous_param = parameters[at i];
     }], [n] turns.  The result is [skip]. *)
Fixpoint scan_decreasing (n : nat) (i : Z) (at_ : Z -> Z) (parameters : list float)
  (previous_param : float) : outcome bool :=
  match n with
  | O => Ok false
  | S n' =>
      p ← aget parameters (at_ i);
      if (previous_param <? p)%float then Ok true
      else scan_decreasing n' (i + 1) at_ parameters p
  end.

(** The block under [if (!skip && errormeasure->b_peakzero)]. *)
Definition scan_peak (errormeasure : ErrorMeasure) (parameters : list float)
  : outcome bool :=
  let diff := model_parameter_diff errormeasure in
  if negb (b_symmetric errormeasure =? 0) then
    p0 ← aget parameters 0;
    scan_decreasing (Z.to_nat (model_parameter_number errormeasure - 1)) 1
      (fun i => i) parameters p0
  else
    peak ← aget parameters diff;
    below ← scan_decreasing (Z.to_nat diff) 1 (fun i => diff - i) parameters peak;
    peak ← aget parameters diff;
    above ← scan_decreasing (Z.to_nat diff) 1 (fun i => diff + i) parameters peak;
    Ok (below || above).

(** The value of [skip] when the checks are done. *)
Definition parameters_rejected (errormeasure : ErrorMeasure) (parameters : list float)
  : outcome bool :=
  epsilon ← get_marginal_error_probability_epsilon errormeasure parameters;
  skip ← scan_parameters (Z.to_nat (model_parameter_number errormeasure)) 0
           parameters epsilon;
  if negb skip && negb (b_peakzero errormeasure =? 0) then
    scan_peak errormeasure parameters
  else Ok skip.

Section Likelihood.
Context `{Libm} `{CafeShell ErrorMeasure}.

(** [discord_prob_model]: for [i <= j], the cell [i][j] gathers over [k]
    the products [sizeDist[k] * pi_i_k * pi_j_k], doubled off the diagonal. *)
Definition discord_prob_model (errormeasure : ErrorMeasure) (errormodel : ErrorStruct)
  : outcome (matrix float) :=
  let n := maxFamilySize errormeasure in
  for_range 0 n
    (fun i m =>
       for_range i n
         (fun j m =>
            for_range 0 n
              (fun k m =>
                 pi_i_k ← mget (errormatrix errormodel) i k;
                 pi_j_k ← mget (errormatrix errormodel) j k;
                 d ← aget (sizeDist errormeasure) k;
                 x ← mget m i j;
                 if i =? j then mset m i j (x + d * pi_i_k * pi_j_k)%float
                 else mset m i j (x + 2 * d * pi_i_k * pi_j_k)%float)
              m)
         m)
    (memory_new_2dim (n + 1) (n + 1) 0%float).

(** The inner loop over [j] that adds the terms of row [i] to the score; it
    stops at a score that is not a finite number.  The state is the score
    and whether the loop has stopped. *)
Definition add_terms_of_row (errormeasure : ErrorMeasure) (discord : matrix float)
  (i : Z) (score : float) : outcome float :=
  r ← for_range i (maxFamilySize errormeasure)
        (fun j (st : float * bool) =>
           let (score, stopped) := st in
           if stopped then Ok st
           else
             n ← mget (pairs errormeasure) i j;
             term ← (if negb (n =? 0) then
                       d ← mget discord i j; Ok (double_of_int n * log d)%float
                     else Ok 0%float);
             let score := (score + term)%float in
             Ok (score, is_nan score || is_infinity (- score) || negb (is_finite score)))
        (score, false);
  Ok (fst r).

(** The block under [if (!skip)]: the score of the parameters. *)
Definition score_of_parameters (errormeasure : ErrorMeasure) (parameters : list float)
  : outcome float :=
  let errormeasure := set_estimates errormeasure parameters in
  errormodel ← cafe_shell_create_error_matrix_from_estimate errormeasure;
  discord ← discord_prob_model errormeasure errormodel;
  score ← for_range 0 (maxFamilySize errormeasure)
            (fun i score => add_terms_of_row errormeasure discord i score) 0%float;
  prob00 ← for_range 0 (maxFamilySize errormeasure)
             (fun k acc =>
                pi_i_k ← mget (errormatrix errormodel) 0 k;
                pi_j_k ← mget (errormatrix errormodel) 0 k;
                d ← aget (sizeDist errormeasure) k;
                Ok (acc + d * pi_i_k * pi_j_k)%float)
             0%float;
  Ok (score - log (1 - prob00))%float.

(** [__loglikelihood_pairs_from_double_measure]: the cost of a parameter
    vector.  The lines written to the log are left out. *)
Definition loglikelihood_pairs_from_double_measure (parameters : list float)
  (errormeasure : ErrorMeasure) : outcome float :=
  skip ← parameters_rejected errormeasure parameters;
  score ← (if (skip : bool) then Ok (log 0)
           else score_of_parameters errormeasure parameters);
  Ok (- score)%float.

End Likelihood.

(** The pairs of counts that the two files hold at the same position, as a
    list, and how often a pair occurs in it. *)
Fixpoint occurrences (a b : Z) (obs : list (Z * Z)) : Z :=
  match obs with
  | [] => 0
  | (x, y) :: rest =>
      (if (x =? a) && (y =? b) then 1 else 0) + occurrences a b rest
  end.

Section Observations.
Context `{GeneFamilyReader}.
Fixpoint observations (ist1 ist2 : list string) : list (Z * Z) :=
  match ist1, ist2 with
  | buf1 :: rest1, buf2 :: rest2 =>
      match read_gene_family buf1, read_gene_family buf2 with
      | Ok gf1, Ok gf2 =>
          zip (gf_values gf1) (gf_values gf2) ++ observations rest1 rest2
      | _, _ => []
      end
  | _, _ => []
  end.
End Observations.


Definition measured_pairs `{GeneFamilyReader} (ist1 ist2 : istream) : list (Z * Z) :=
  match ist1, ist2 with
  | Some (_ :: rest1), Some (_ :: rest2) => observations rest1 rest2
  | _, _ => []
  end.

(** A reader for the count files of the specification: fields separated by
    tabs, a description, an identifier, then the counts. *)
Definition tab : ascii := ascii_of_nat 9.

Definition read_tab_separated (line : string) : outcome gene_family :=
  match split line tab with
  | desc :: id :: counts => Ok (mkGeneFamily id desc (map atoi counts))
  | _ => Throw "gene_family: too few fields"
  end.

#[global] Instance tab_separated_reader : GeneFamilyReader :=
  {| read_gene_family := read_tab_separated |}.

Definition tab_separated (fields : list string) : string :=
  match fields with
  | [] => EmptyString
  | f :: rest => fold_left (fun s g => s +:+ String tab g) rest f
  end.

Definition replicate_header : string := tab_separated ["Desc"; "Family ID"; "A"; "B"]%string.
Definition replicate_one : list string :=
  [replicate_header; tab_separated ["d"; "f1"; "1"; "1"]%string].
Definition replicate_two : list string :=
  [replicate_header; tab_separated ["d"; "f1"; "0"; "1"]%string].


(** The cells that the merge has dealt with when its outer loop reaches row
    [i]. *)
Definition merged_upto (m cur : matrix Z) (i : Z) : Prop :=
  forall a b,
    (0 <= b < a /\ a < i ->
       mget cur a b = Ok 0 /\
       exists x y, mget m b a = Ok x /\ mget m a b = Ok y /\ mget cur b a = Ok (x + y)) /\
    (~ (0 <= b < a /\ a < i) -> ~ (0 <= a < b /\ b < i) -> mget cur a b = mget m a b).

Definition merged_row (m cur : matrix Z) (i j : Z) : Prop :=
  forall a b,
    (a = i /\ 0 <= b < j -> mget cur a b = Ok 0) /\
    (b = i /\ 0 <= a < j ->
       exists x y, mget m a i = Ok x /\ mget m i a = Ok y /\ mget cur a i = Ok (x + y)) /\
    (~ (a = i /\ 0 <= b < j) -> ~ (b = i /\ 0 <= a < j) -> mget cur a b = mget m a b).

(** Equality of file and species names up to the case of the letters. *)
Definition is_upper (c : ascii) : bool :=
  ((65 <=? nat_of_ascii c)%nat && (nat_of_ascii c <=? 90)%nat)%bool.

(** Two characters that are equal, or an upper-case letter and its
    lower-case form. *)
Definition same_letter (a b : ascii) : Prop :=
  a = b \/
  (is_upper a = true /\ nat_of_ascii b = (nat_of_ascii a + 32)%nat) \/
  (is_upper b = true /\ nat_of_ascii a = (nat_of_ascii b + 32)%nat).

Inductive equal_up_to_case : string -> string -> Prop :=
| equal_up_to_case_nil : equal_up_to_case EmptyString EmptyString
| equal_up_to_case_cons (a b : ascii) (s t : string) :
    same_letter a b -> equal_up_to_case s t ->
    equal_up_to_case (String a s) (String b t).


(** The family is indexed to the tree: one entry per species in [species],
    [index] and [error_ptr], and every index is a node of the tree. *)
Definition synchronized (family : CafeFamily) (pTree : CafeTree) : Prop :=
  Z.of_nat (length (species family)) = num_species family /\
  Z.of_nat (length (index family)) = num_species family /\
  (forall ptrs, error_ptr family = Some ptrs ->
     Z.of_nat (length ptrs) = num_species family) /\
  Forall (fun node => 0 <= node < Z.of_nat (length pTree)) (index family).



(** What attaching leaves as it was. *)
Definition same_family (f f' : CafeFamily) : Prop :=
  species f' = species f /\ num_species f' = num_species f /\
  index f' = index f /\ errors f' = errors f.

(** An instance of the cafe_shell.c functions for the examples below: the
    column check leaves the model as it is, and an estimate yields the model
    of no error, the identity matrix. *)
Definition identity_matrix (n : Z) : matrix float :=
  map (fun i => map (fun j => if (i =? j)%nat then 1%float else 0%float)
                  (seq 0 (Z.to_nat n)))
      (seq 0 (Z.to_nat n)).

#[global] Instance no_error_shell : CafeShell ErrorMeasure :=
  {| check_error_model_columnsums := fun e => Ok e;
     cafe_shell_create_error_matrix_from_estimate := fun m =>
       Ok (mkErrorStruct "" (maxFamilySize m) 0 0 (identity_matrix (maxFamilySize m + 1))) |}.

(** A family of two species with one error model, loaded from
    [Errors.txt] and attached to nothing yet, and its tree of three nodes. *)
Definition loaded_model : ErrorStruct :=
  mkErrorStruct "Errors.txt" 1 0 0 (identity_matrix 2).

Definition two_species : CafeFamily :=
  mkCafeFamily ["chimp"; "human"]%string 2 [0; 2] (Some [loaded_model]) None.

Definition three_nodes : CafeTree :=
  [mkCafeNode None; mkCafeNode None; mkCafeNode None].

Definition no_files : string -> option (list string) := fun _ => None.

(** The conditions under which claim C7 has a vector rejected. *)

(** The vector has as many parameters as the model, at least one, and in
    the asymmetric model one for each difference from [-diff] to [diff]. *)
Definition well_shaped (errormeasure : ErrorMeasure) (parameters : list float) : Prop :=
  Z.of_nat (length parameters) = model_parameter_number errormeasure /\
  1 <= model_parameter_number errormeasure /\
  (b_symmetric errormeasure = 0 ->
   0 <= model_parameter_diff errormeasure /\
   model_parameter_number errormeasure = 2 * model_parameter_diff errormeasure + 1).

Definition has_negative (parameters : list float) : Prop :=
  exists i p, parameters !! i = Some p /\ (p <? 0)%float = true.

Definition epsilon_negative (errormeasure : ErrorMeasure) (parameters : list float)
  : Prop :=
  exists epsilon,
    get_marginal_error_probability_epsilon errormeasure parameters = Ok epsilon /\
    (epsilon <? 0)%float = true.

(** Some parameter is larger than its neighbour on the side of the peak:
    the peak is parameter 0 of the symmetric model and parameter [diff] of
    the asymmetric one. *)
Definition rises_from_peak (errormeasure : ErrorMeasure) (parameters : list float)
  : Prop :=
  if negb (b_symmetric errormeasure =? 0) then
    exists i p q,
      parameters !! i = Some p /\ parameters !! S i = Some q /\ (p <? q)%float = true
  else
    let d := Z.to_nat (model_parameter_diff errormeasure) in
    exists i p q, (i < d)%nat /\ (p <? q)%float = true /\
      ((parameters !! (d - i)%nat = Some p /\ parameters !! (d - S i)%nat = Some q) \/
       (parameters !! (d + i)%nat = Some p /\ parameters !! (d + S i)%nat = Some q)).

(** A measure for the examples: sizes up to 3, the symmetric model with one
    difference, peak at zero. *)
Definition small_measure : ErrorMeasure :=
  mkErrorMeasure [0.25; 0.25; 0.25; 0.25]%float 3
    [[4; 1; 0; 0]; [0; 3; 1; 0]; [0; 0; 2; 0]; [0; 0; 0; 1]] [] 1 1 1 2.

(** A stand-in for the logarithm in the examples; only its pole at zero is
    exact. *)
#[global] Instance pole_only_log : Libm :=
  {| log := fun x => if PrimFloat.eqb x 0 then neg_infinity else (x - 1)%float;
     log_zero := eq_refl |}.

(** The parameter at an index, 0 outside the vector. *)
Definition parameter (parameters : list float) (k : nat) : float :=
  default 0%float (parameters !! k).

(** The shape of the files that claim C6 is about.  The first line holds
    [maxcnt:n]; the second the error classes, from [from] to [to]; then rows
    in order, each with a label and one value for each class. *)
Definition header_maxcnt (line : string) (n : Z) : Prop :=
  exists tok0 tok1,
    split line " " !! 0%nat = Some tok0 /\ split tok0 ":" !! 1%nat = Some tok1 /\
    atoi tok1 = n.

Definition header_cntdiff (line : string) (from to : Z) : Prop :=
  exists a b,
    split line " " !! 1%nat = Some a /\
    split line " " !! (length (split line " ") - 1)%nat = Some b /\
    atoi a = from /\ atoi b = to.

Definition labelled_row (from to j : Z) (line : string) : Prop :=
  Z.of_nat (length (split line " ")) = to - from + 2 /\
  exists label, split line " " !! 0%nat = Some label /\ atoi label = j.

Definition rows_in_order (from to : Z) (first : Z) (rows : list string) : Prop :=
  forall j line, rows !! j = Some line -> labelled_row from to (first + Z.of_nat j) line.

(** The text of the value of class [i] in a row. *)
Definition cell_text (from : Z) (line : string) (i : Z) : option string :=
  split line " " !! Z.to_nat (i - from + 1).

(** The matrix is square, of side [maxfamilysize + 1]. *)
Definition square (e : ErrorStruct) : Prop :=
  has_dim (errormatrix e) (maxfamilysize e + 1) (maxfamilysize e + 1).

(** Two structures that differ in the matrix only. *)
Definition same_header (e e' : ErrorStruct) : Prop :=
  errorfilename e' = errorfilename e /\ maxfamilysize e' = maxfamilysize e /\
  fromdiff e' = fromdiff e /\ todiff e' = todiff e.



Section WrittenText.
Context `{Libc}.





End WrittenText.

(** Files for the examples: complete, with the last rows left out, and with
    a row left out before a later row. *)
Definition complete_file : list string :=
  ["maxcnt:3"; "cntdiff -1 0 1"; "0 0.0 0.8 0.2"; "1 0.2 0.6 0.2";
   "2 0.2 0.6 0.2"; "3 0.2 0.8 0.0"]%string.

Definition short_file : list string :=
  ["maxcnt:3"; "cntdiff -1 0 1"; "0 0.0 0.8 0.2"; "1 0.2 0.6 0.2"]%string.

Definition gap_file : list string :=
  ["maxcnt:3"; "cntdiff -1 0 1"; "0 0.0 0.8 0.2"; "1 0.2 0.6 0.2";
   "3 0.2 0.8 0.0"]%string.

Definition unread : ErrorStruct := mkErrorStruct "errors.txt" 0 0 0 [].


(** The model read from the complete file, as the reference conversions
    read it, and the text written for it. *)
Definition complete_model : ErrorStruct :=
  Eval vm_compute in
    match operator_in (build := release_build) 10 complete_file unread with
    | Ok e => e
    | _ => unread
    end.

Definition complete_model_written : list string :=
  [ "maxcnt:3"; "cntdiff -1 0 1"; " 0 #nan 0.8 0.2"; "1 0.2 0.6 0.2";
    "2 0.2 0.6 0.2"; "3 0.2 0.8 #nan" ]%string.

(** * The inference core, modelled from the specification

    The LogChoose cache (chooseln_cache.c), the transition kernel
    (birthdeath.c), the pruning engine and the tree functions (cafe_tree.c,
    tree.c) are not among the source files: only the unit tests that call
    them are.  The definitions of this part follow the specification, in
    exact arithmetic. *)

(** ** The LogChoose cache *)

(** Modelled from the spec: the row of the binomial coefficients of [n + 1]
    from the row of [n]; chooseln_cache.c, which keeps their logarithms, is
    missing. *)
Definition pascal_next (row : list Z) : list Z :=
  zip_with Z.add (0 :: row) (row ++ [0]).

Fixpoint pascal_rows (n : nat) (row : list Z) : list (list Z) :=
  match n with
  | O => []
  | S n' => row :: pascal_rows n' (pascal_next row)
  end.

(** Modelled from the spec: [chooseln_cache_init] (chooseln_cache.c,
    missing) precomputes [C(n, k)] for the [n] below [size]. *)
Definition chooseln_cache_init (size : nat) : list (list Z) := pascal_rows size [1].

(** Modelled from the spec: the coefficient [C(n, k)] computed on demand. *)
Definition binomial (n k : nat) : Z := nth k (Nat.iter n pascal_next [1]) 0.

(** Modelled from the spec: [chooseln_get] (chooseln_cache.c, missing), a
    lookup in the table, computed on demand outside it. *)
Definition choose (cache : list (list Z)) (n k : nat) : Z :=
  match cache !! n with
  | Some row => nth k row 0
  | None => binomial n k
  end.

(** ** The transition kernel over the rationals, for equal rates *)

Local Open Scope Q_scope.

(** The sum of [f 0] to [f n], in lowest terms. *)
Fixpoint qsum (f : nat -> Q) (n : nat) : Q :=
  match n with
  | O => f O
  | S n' => Qred (qsum f n' + f n)
  end.

(** Modelled from the spec: the term of index [k] of the closed form of
    section 4.2, [C(i,k) * C(i+j-k-1, i-1) * alpha^(i-k) * beta^(j-k) *
    (1 - alpha - beta)^k]; birthdeath.c is missing. *)
Definition kernel_term_Q (cache : list (list Z)) (alpha beta : Q) (i j k : nat) : Q :=
  inject_Z (choose cache i k * choose cache (i + j - k - 1) (i - 1))
  * alpha ^ Z.of_nat (i - k) * beta ^ Z.of_nat (j - k)
  * (1 - alpha - beta) ^ Z.of_nat k.

(** Modelled from the spec: [P(i -> j)] of section 4.2
    ([birthdeath_rate_with_log_alpha] of birthdeath.c, missing), with row 0
    as the invariants of that section give it. *)
Definition transition_Q (cache : list (list Z)) (alpha beta : Q) (i j : nat) : Q :=
  match i with
  | O => if (j =? 0)%nat then 1 else 0
  | S _ => Qred (qsum (kernel_term_Q cache alpha beta i j) (Nat.min i j))
  end.

(** Modelled from the spec: [alpha = beta = lambda t / (1 + lambda t)] when
    the death rate is the birth rate (the sentinel -1); birthdeath.c is
    missing. *)
Definition alpha_equal_rates_Q (t lambda : Q) : Q :=
  Qred (lambda * t / (1 + lambda * t)).

(** Modelled from the spec: the matrix that [compute_birthdeath_rates]
    (birthdeath.c, missing) returns for a branch of length [t], the birth
    rate [lambda] and the death rate -1, of side [max_size + 1]. *)
Definition compute_birthdeath_rates_Q (cache : list (list Z)) (t lambda : Q)
  (max_size : nat) : list (list Q) :=
  let alpha := alpha_equal_rates_Q t lambda in
  map (fun i => map (fun j => transition_Q cache alpha alpha i j) (seq 0 (S max_size)))
      (seq 0 (S max_size)).

(** Modelled from the spec: [square_matrix_get] (missing), 0 outside the
    matrix. *)
Definition square_matrix_get (m : list (list Q)) (i j : nat) : Q :=
  nth j (nth i m []) 0.

(** ** The pruning engine *)

(** Modelled from the spec (section 3; cafe_tree.c is missing): a node of
    the tree carries its branch length and the reference to its transition
    matrix, which may be unset; a leaf carries the observed count of its
    species. *)
#[warnings="-register-all"]
Inductive family_tree : Type :=
| Leaf (name : string) (branchlength : Q) (birthdeath_matrix : option (list (list Q)))
       (familysize : nat)
| Internal (branchlength : Q) (birthdeath_matrix : option (list (list Q)))
       (children : list family_tree).

(** Modelled from the spec: the failures of section 4.4. *)
Inductive engine_error : Type := MatrixMissing | CountOutOfRange.

Definition node_matrix (t : family_tree) : option (list (list Q)) :=
  match t with
  | Leaf _ _ m _ => m
  | Internal _ m _ => m
  end.

(** Modelled from the spec: the factor a child contributes at size [s] of
    its parent, the sum over [s'] of [M_child[s][s'] * L_child[s']]. *)
Definition child_factor (m : list (list Q)) (likelihoods : list Q) (s : nat) : Q :=
  fold_left (fun acc s' => Qred (acc + square_matrix_get m s s' * nth s' likelihoods 0))
    (seq 0 (length likelihoods)) 0.

(** Modelled from the spec: the likelihood vector of a node over the sizes 0
    to [max_size] ([compute_node_likelihoods] of cafe_tree.c, missing); a
    leaf without error model has 1 at its count, an internal node the
    product of the factors of its children. *)
Fixpoint node_likelihoods (max_size : nat) (t : family_tree)
  : engine_error + list Q :=
  match t with
  | Leaf _ _ _ c =>
      if (c <=? max_size)%nat then
        inr (map (fun s => if (s =? c)%nat then 1 else 0) (seq 0 (S max_size)))
      else inl CountOutOfRange
  | Internal _ _ children =>
      (fix over (cs : list family_tree) (acc : list Q) : engine_error + list Q :=
         match cs with
         | [] => inr acc
         | c :: rest =>
             match node_matrix c with
             | None => inl MatrixMissing
             | Some m =>
                 match node_likelihoods max_size c with
                 | inl e => inl e
                 | inr lc =>
                     over rest
                       (map (fun sa => Qred (snd sa * child_factor m lc (fst sa)))
                            (combine (seq 0 (S max_size)) acc))
                 end
             end
         end) children (map (fun _ => 1) (seq 0 (S max_size)))
  end.

(** Modelled from the spec: the output of [compute_tree_likelihoods]
    (cafe_tree.c, missing), the vector of the root over the root sizes
    [root_min] to [root_max]. *)
Definition compute_tree_likelihoods (max_size root_min root_max : nat)
  (t : family_tree) : engine_error + list Q :=
  match node_likelihoods max_size t with
  | inl e => inl e
  | inr l => inr (firstn (S root_max - root_min) (skipn root_min l))
  end.

(** The tree [((A:1,B:1):1,(C:1,D:1):1)] of the tests, every node below the
    root with the matrix of its branch for the birth rate 0.01 and the death
    rate -1, and the counts [a], [b], [c], [d] at the leaves. *)
Definition small_tree (max_size a b c d : nat) : family_tree :=
  let m := Some (compute_birthdeath_rates_Q (chooseln_cache_init (2 * max_size + 1))
                   1 (1 # 100) max_size) in
  Internal 0 None
    [ Internal 1 m [Leaf "A" 1 m a; Leaf "B" 1 m b];
      Internal 1 m [Leaf "C" 1 m c; Leaf "D" 1 m d] ].

(** [x] is within the tolerance of [expected]: within [1e-13], or within a
    tenth of [expected]. *)
Definition within_tolerance (x expected : Q) : bool :=
  Qle_bool (Qabs (x - expected)) (1 # 10000000000000) ||
  Qle_bool (Qabs (x - expected)) (Qabs expected / 10).

(** The first values of the root vector as the specification lists them:
    0, 1.42e-13, 2.88e-9, 4.12e-7 and 6.74e-7. *)
Definition listed_likelihoods : list Q :=
  [ 0; 142 # 1000000000000000; 288 # 100000000000; 412 # 1000000000;
    674 # 1000000000 ].

(** [l] begins with the values [expected], each within the tolerance. *)
Definition begins_with (l expected : list Q) : bool :=
  (length expected <=? length l)%nat &&
  forallb (fun xe => within_tolerance (fst xe) (snd xe)) (combine l expected).

(** No value of [l] after the first is within the tolerance of the value of
    [expected] at its place. *)
Definition all_off (l expected : list Q) : bool :=
  (length expected <=? length l)%nat &&
  forallb (fun xe => negb (within_tolerance (fst xe) (snd xe)))
          (combine (skipn 1 l) (skipn 1 expected)).

Local Close Scope Q_scope.

(** ** The transition kernel over the reals *)

Local Open Scope R_scope.

(** Modelled from the spec: [alpha] and [beta] of section 4.2 (birthdeath.c
    is missing); the death rate -1 stands for the birth rate, and equal
    rates have the closed form [lambda t / (1 + lambda t)]. *)
Definition birthdeath_alpha_beta (t lambda mu : R) : R * R :=
  let mu := if Req_dec_T mu (-1) then lambda else mu in
  if Req_dec_T lambda mu then
    (lambda * t / (1 + lambda * t), lambda * t / (1 + lambda * t))
  else
    let e := exp ((lambda - mu) * t) in
    (mu * (e - 1) / (lambda * e - mu), lambda * (e - 1) / (lambda * e - mu)).

(** Modelled from the spec: the term of index [k] of the closed form of
    section 4.2, as [kernel_term_Q] has it over the rationals. *)
Definition kernel_term (cache : list (list Z)) (alpha beta : R) (i j k : nat) : R :=
  IZR (choose cache i k * choose cache (i + j - k - 1) (i - 1))
  * alpha ^ (i - k) * beta ^ (j - k) * (1 - alpha - beta) ^ k.

(** Modelled from the spec: [P(i -> j)] of section 4.2, with row 0 as the
    invariants of that section give it. *)
Definition transition (cache : list (list Z)) (alpha beta : R) (i j : nat) : R :=
  match i with
  | O => if (j =? 0)%nat then 1 else 0
  | S _ => sum_f_R0 (kernel_term cache alpha beta i j) (Nat.min i j)
  end.

(** The identity matrix of side [max_size + 1]. *)
Definition identity_rates (max_size : nat) : list (list R) :=
  map (fun i => map (fun j => if (i =? j)%nat then 1 else 0) (seq 0 (S max_size)))
      (seq 0 (S max_size)).

(** Modelled from the spec: the matrix of [compute_birthdeath_rates]
    (birthdeath.c, missing) of side [max_size + 1] for a branch of length
    [t] and the rates [lambda] and [mu]; a branch shorter than [threshold],
    whose value the specification does not give, has the identity. *)
Definition compute_birthdeath_rates (threshold : R) (cache : list (list Z))
  (t lambda mu : R) (max_size : nat) : list (list R) :=
  if Rlt_dec t threshold then identity_rates max_size
  else
    let ab := birthdeath_alpha_beta t lambda mu in
    map (fun i => map (fun j => transition cache (fst ab) (snd ab) i j) (seq 0 (S max_size)))
        (seq 0 (S max_size)).

(** The entry of a matrix, 0 outside it, and the sum of a row. *)
Definition rate (m : list (list R)) (i j : nat) : R := nth j (nth i m []) 0.

Definition row_sum (m : list (list R)) (i : nat) : R := fold_right Rplus 0 (nth i m []).

(** The closed form as a product of two series, for the proofs: the
    binomial part of [i] individuals and the negative binomial part. *)
Definition binomial_part (alpha gamma : R) (i k : nat) : R :=
  IZR (binomial i k) * alpha ^ (i - k) * gamma ^ k.

Definition negative_binomial_part (beta : R) (i m : nat) : R :=
  IZR (binomial (i + m - 1) (i - 1)) * beta ^ m.

Definition series_product (a b : nat -> R) (j : nat) : R :=
  sum_f_R0 (fun k => a k * b (j - k)%nat) j.

Local Close Scope R_scope.

(** [x] is within [tolerance] of [expected], as [DOUBLES_EQUAL] of the tests
    asks. *)
Definition doubles_equal (expected x tolerance : Q) : bool :=
  Qle_bool (Qabs (x - expected)) tolerance.

(** * More of error_model.cpp

    The functions of [cafe/error_model.cpp] that the sections above leave
    out: [free_error_model], [read_freq_from_measures] and the arrangement of
    the starting vector in [estimate_error_double_measure], embedded from the
    source as above; and what the further properties of that file are stated
    with. *)

(** ** Tokens *)

(** The tokens put together again, with the delimiter between them. *)
Fixpoint join (delimiter : ascii) (tokens : list string) : string :=
  match tokens with
  | [] => EmptyString
  | tok :: rest =>
      match rest with
      | [] => tok
      | _ => tok +:+ String delimiter (join delimiter rest)
      end
  end.

(** [c] is a character of [s]. *)
Fixpoint occurs (c : ascii) (s : string) : bool :=
  match s with
  | EmptyString => false
  | String a rest => Ascii.eqb a c || occurs c rest
  end.

(** [s] without its last character when that is the delimiter. *)
Fixpoint chop (delimiter : ascii) (s : string) : string :=
  match s with
  | EmptyString => EmptyString
  | String c rest =>
      match rest with
      | EmptyString => if Ascii.eqb c delimiter then EmptyString else s
      | _ => String c (chop delimiter rest)
      end
  end.

(** ** Removing and freeing the error models *)

(** [free_error_model]: every species is passed to [remove_error_model] by
    its name; then the list of models and the array of pointers are freed
    and set to NULL. *)
Definition free_error_model {build : Build} (family : CafeFamily) (pcafe : CafeTree)
  : outcome (CafeFamily * CafeTree) :=
  ft ← for_range 0 (num_species family - 1)
         (fun i (ft : CafeFamily * CafeTree) =>
            sp ← aget (species (fst ft)) i;
            remove_error_model (fst ft) (snd ft) sp)
         (family, pcafe);
  let family := fst ft in
  let family := match errors family with
                | Some _ => mkCafeFamily (species family) (num_species family)
                              (index family) None (error_ptr family)
                | None => family
                end in
  let family := match error_ptr family with
                | Some _ => mkCafeFamily (species family) (num_species family)
                              (index family) (errors family) None
                | None => family
                end in
  Ok (family, snd ft).

(** The family with entry [i] of [error_ptr] set to [p]. *)
Definition with_pointer (family : CafeFamily) (ptrs : list (option pErrorStruct))
  (i : nat) (p : option pErrorStruct) : CafeFamily :=
  mkCafeFamily (species family) (num_species family) (index family) (errors family)
    (Some (<[i := p]> ptrs)).

(** Species [i] is the first one whose name is [name] up to case. *)
Definition first_named (family : CafeFamily) (name : string) (i : nat) : Prop :=
  exists sp, species family !! i = Some sp /\ equal_up_to_case sp name /\
    forall i' sp', (i' < i)%nat -> species family !! i' = Some sp' ->
      ~ equal_up_to_case sp' name.

(** No species has the name, up to case. *)
Definition unknown_species (family : CafeFamily) (name : string) : Prop :=
  forall i sp, species family !! i = Some sp -> ~ equal_up_to_case sp name.


(** A family of two species whose first species has a model attached. *)
Definition two_species_attached : CafeFamily :=
  mkCafeFamily ["chimp"; "human"]%string 2 [0; 2] (Some [loaded_model])
    (Some [Some 0%nat; Some 0%nat]).

Definition three_nodes_attached : CafeTree :=
  [mkCafeNode (Some 0%nat); mkCafeNode None; mkCafeNode (Some 0%nat)].

(** Two species whose names differ in case only, both with the model. *)
Definition two_namesakes : CafeFamily :=
  mkCafeFamily ["Human"; "human"]%string 2 [0; 2] (Some [loaded_model])
    (Some [Some 0%nat; Some 0%nat]).

(** ** Reading and loading a file *)

(** The reader has kept the header of [e] and a square matrix. *)
Definition kept (e : ErrorStruct) (r : reader) : Prop :=
  same_header e (rd_model r) /\ square (rd_model r).



(** ** Counting the family sizes of the measures *)

(** [x++] on an [int]; signed overflow is undefined. *)
Definition INT_MAX : Z := 2147483647.

Definition int_incr (x : Z) : outcome Z :=
  if x <? INT_MAX then Ok (x + 1) else Undefined.

(** [*std::max_element(v.begin(), v.end())]; on an empty vector the iterator
    returned is [v.end()], which must not be dereferenced. *)
Definition max_element (v : list Z) : outcome Z :=
  match v with
  | [] => Undefined
  | a :: rest => Ok (fold_left Z.max rest a)
  end.

(** [for (size_t i = 0; i < gf.values.size(); i++) sizeFreq[gf.values[i]]++;] *)
Fixpoint count_sizes (values : list Z) (sizeFreq : list Z) : outcome (list Z) :=
  match values with
  | [] => Ok sizeFreq
  | v :: rest =>
      x ← aget sizeFreq v;
      x' ← int_incr x;
      sizeFreq' ← aset sizeFreq v x';
      count_sizes rest sizeFreq'
  end.

(** The variables of [read_freq_from_measures] while it reads a file:
    [fq_lines] is [line1] or [line2]. *)
Record freq_state : Type := mkFreq {
  fq_sizeFreq : list Z;
  fq_maxFamilySize : Z;
  fq_data1colnum : Z;
  fq_lines : Z
}.

(** [while (std::getline( *ist, str)) step], over the lines left. *)
Fixpoint count_lines (step : string -> freq_state -> outcome freq_state)
  (lines : list string) (st : freq_state) : outcome freq_state :=
  match lines with
  | [] => Ok st
  | str :: rest => st' ← step str st; count_lines step rest st'
  end.

Section ReadFreqFromMeasures.
Context `{GeneFamilyReader}.

(** One turn of the loop over the first file. *)
Definition count_line1 (str : string) (st : freq_state) : outcome freq_state :=
  gf ← read_gene_family str;
  sizeFreq ← count_sizes (gf_values gf) (fq_sizeFreq st);
  largest ← max_element (gf_values gf);
  line1 ← int_incr (fq_lines st);
  Ok (mkFreq sizeFreq (Z.max (fq_maxFamilySize st) largest)
        (Z.of_nat (length (gf_values gf))) line1).

(** One turn of the loop over the second file. *)
Definition count_line2 (str : string) (st : freq_state) : outcome freq_state :=
  gf ← read_gene_family str;
  if negb (fq_data1colnum st =? Z.of_nat (length (gf_values gf))) then
    Throw "file: the number of columns do not match between the two files"
  else
    sizeFreq ← count_sizes (gf_values gf) (fq_sizeFreq st);
    largest ← max_element (gf_values gf);
    line2 ← int_incr (fq_lines st);
    Ok (mkFreq sizeFreq (Z.max (fq_maxFamilySize st) largest) (fq_data1colnum st) line2).

(** [read_freq_from_measures]: [ist2] is [None] for a NULL pointer.  The
    result is [sizeFreq] and [maxFamilySize] as the call leaves them. *)
Definition read_freq_from_measures (ist1 : istream) (ist2 : option istream)
  (sizeFreq : list Z) (maxFamilySize : Z) : outcome (list Z * Z) :=
  match ist1 with
  | None | Some [] => Throw "errest: measure 1"
  | Some (_ :: rest1) =>
      rest2 ← match ist2 with
              | None => Ok None
              | Some None | Some (Some []) => Throw "errest: measure 2"
              | Some (Some (_ :: rest2)) => Ok (Some rest2)
              end;
      st1 ← count_lines count_line1 rest1 (mkFreq sizeFreq maxFamilySize 0 0);
      match rest2 : option (list string) with
      | None => Ok (fq_sizeFreq st1, fq_maxFamilySize st1)
      | Some rest2 =>
          st2 ← count_lines count_line2 rest2
                  (mkFreq (fq_sizeFreq st1) (fq_maxFamilySize st1)
                     (fq_data1colnum st1) 0);
          if negb (fq_lines st1 =? fq_lines st2) then
            Throw "The number of lines do not match between the two files"
          else Ok (fq_sizeFreq st2, fq_maxFamilySize st2)
      end
  end.

(** The counts of the lines, one after the other; a line that is not read
    gives none. *)
Definition values_of_line (str : string) : list Z :=
  match read_gene_family str with
  | Ok gf => gf_values gf
  | _ => []
  end.

Definition values_of (lines : list string) : list Z :=
  concat (map values_of_line lines).

(** What one turn of either loop does to the variables. *)
Definition counted (str : string) (s s' : freq_state) : Prop :=
  exists gf largest,
    read_gene_family str = Ok gf /\
    count_sizes (gf_values gf) (fq_sizeFreq s) = Ok (fq_sizeFreq s') /\
    max_element (gf_values gf) = Ok largest /\
    fq_maxFamilySize s' = Z.max (fq_maxFamilySize s) largest /\
    fq_lines s' = fq_lines s + 1.

(** The number of counts of the last line, 0 when there is no line. *)
Definition last_columns (lines : list string) : Z :=
  match last lines with
  | Some str => Z.of_nat (length (values_of_line str))
  | None => 0
  end.

(** The lines of the stream after its first line. *)
Definition data_lines (ist : istream) : list string :=
  match ist with
  | Some (_ :: rest) => rest
  | _ => []
  end.

(** The data lines of the second file, none for a NULL pointer. *)
Definition second_lines (ist2 : option istream) : list string :=
  match ist2 with
  | Some ist => data_lines ist
  | None => []
  end.

End ReadFreqFromMeasures.

(** How often [v] occurs in a list of counts. *)
Fixpoint tally (v : Z) (values : list Z) : Z :=
  match values with
  | [] => 0
  | x :: rest => (if x =? v then 1 else 0) + tally v rest
  end.

(** Two measures of one family in the format of the examples: the counts of
    species A and B. *)
Definition measure_one : list string :=
  [replicate_header; tab_separated ["d"; "f1"; "1"; "3"]%string;
   tab_separated ["d"; "f2"; "2"; "0"]%string].
Definition measure_two : list string :=
  [replicate_header; tab_separated ["d"; "f1"; "1"; "2"]%string;
   tab_separated ["d"; "f2"; "2"; "1"]%string].

(** A first measure whose first line has a count more than its last. *)
Definition measure_ragged : list string :=
  [replicate_header; tab_separated ["d"; "f1"; "1"; "3"; "2"]%string;
   tab_separated ["d"; "f2"; "2"; "0"]%string].


(** ** The vectors that the objective rejects *)

(** Some parameter is smaller than the residual epsilon. *)
Definition below_epsilon (errormeasure : ErrorMeasure) (parameters : list float)
  : Prop :=
  exists epsilon i p,
    get_marginal_error_probability_epsilon errormeasure parameters = Ok epsilon /\
    parameters !! i = Some p /\ (p <? epsilon)%float = true.

(** ** The starting point of a search (estimate_error_double_measure) *)

(** [for (i = hi; ...; i--) body], [n] iterations. *)
Fixpoint for_down {St : Type} (n : nat) (i : Z) (body : Z -> St -> outcome St) (s : St)
  : outcome St :=
  match n with
  | O => Ok s
  | S n' => s' ← body i s; for_down n' (i - 1) body s'
  end.

(** The fields that [estimate_error_double_measure] and
    [estimate_error_true_measure] set before the search; [estimates] is not
    set yet. *)
Definition set_up_error_measure (sizeDist : list float) (maxFamilySize : Z)
  (observed_pairs : matrix Z) (b_symmetric max_diff b_peakzero : Z) : ErrorMeasure :=
  mkErrorMeasure sizeDist maxFamilySize observed_pairs [] b_symmetric b_peakzero
    max_diff
    (if negb (b_symmetric =? 0) then max_diff + 1 else 2 * max_diff + 1).

(** The starting vector of a run, from the sorted random values:
    [if (error->b_symmetric) {
       int j = 0;
       for (i = error->model_parameter_number - 1; i >= 0; i--)
         parameters[j++] = sorted_params[i];
     } else {
       int j = error->model_parameter_number - 1;
       parameters[error->model_parameter_diff] = sorted_params[j--];
       for (i = 1; i <= error->model_parameter_diff; i++) {
         parameters[error->model_parameter_diff - i] = sorted_params[j--];
         parameters[error->model_parameter_diff + i] = sorted_params[j--];
       }
     }] *)
Definition arrange_parameters (error : ErrorMeasure)
  (sorted_params parameters : list float) : outcome (list float) :=
  let number := model_parameter_number error in
  let diff := model_parameter_diff error in
  if negb (b_symmetric error =? 0) then
    pj ← for_down (Z.to_nat number) (number - 1)
           (fun i (pj : list float * Z) =>
              let (parameters, j) := pj in
              x ← aget sorted_params i;
              parameters ← aset parameters j x;
              Ok (parameters, j + 1))
           (parameters, 0);
    Ok (fst pj)
  else
    let j := number - 1 in
    x ← aget sorted_params j;
    parameters ← aset parameters diff x;
    pj ← for_range 1 diff
           (fun i (pj : list float * Z) =>
              let (parameters, j) := pj in
              x ← aget sorted_params j;
              parameters ← aset parameters (diff - i) x;
              y ← aget sorted_params (j - 1);
              parameters ← aset parameters (diff + i) y;
              Ok (parameters, j - 2))
           (parameters, j - 1);
    Ok (fst pj).

(** No value is smaller than a value in front of it: the order that sorting
    in ascending order leaves. *)
Definition ascending (sorted_params : list float) : Prop :=
  forall (a b : nat) (x y : float),
    (a <= b)%nat -> sorted_params !! a = Some x -> sorted_params !! b = Some y ->
    (y <? x)%float = false.

(** Where the sorted values are put: the largest at the peak, the others in
    descending order away from it, in turn below and above the peak in the
    asymmetric model. *)
Definition arranged (error : ErrorMeasure) (sorted_params parameters : list float)
  : Prop :=
  if negb (b_symmetric error =? 0) then
    forall j, (j < length sorted_params)%nat ->
      parameters !! j = sorted_params !! (length sorted_params - 1 - j)%nat
  else
    let d := Z.to_nat (model_parameter_diff error) in
    parameters !! d = sorted_params !! (2 * d)%nat /\
    forall i, (1 <= i <= d)%nat ->
      parameters !! (d - i)%nat = sorted_params !! (2 * d + 1 - 2 * i)%nat /\
      parameters !! (d + i)%nat = sorted_params !! (2 * d - 2 * i)%nat.

(** * Properties *)

(** ** Outcomes *)

Lemma bind_Ok_inv {A B : Type} (x : outcome A) (f : A -> outcome B) (b : B) :
  x ≫= f = Ok b -> exists a, x = Ok a /\ f a = Ok b.
Proof. destruct x; cbn; intros Hx; try discriminate. eauto. Qed.

Lemma bind_Ok {A B : Type} (a : A) (f : A -> outcome B) : Ok a ≫= f = f a.
Proof. reflexivity. Qed.

Ltac inv_bind H :=
  let a := fresh "a" in
  let Ha := fresh "Ha" in
  apply bind_Ok_inv in H; destruct H as (a & Ha & H).

(** ** Arrays *)

Lemma aget_Ok {A : Type} (l : list A) (i : Z) (x : A) :
  aget l i = Ok x <-> 0 <= i /\ l !! Z.to_nat i = Some x.
Proof.
  unfold aget. destruct (Z.ltb_spec i 0).
  - split; [discriminate | lia].
  - destruct (l !! Z.to_nat i) eqn:E; split; intros Hx;
      try discriminate; try (injection Hx as ->; auto);
      destruct Hx as [_ Hx]; congruence.
Qed.

Lemma aset_Ok {A : Type} (l l' : list A) (i : Z) (x : A) :
  aset l i x = Ok l' <->
  0 <= i /\ (Z.to_nat i < length l)%nat /\ l' = <[Z.to_nat i := x]> l.
Proof.
  unfold aset. destruct (Z.ltb_spec i 0).
  - split; [discriminate | lia].
  - destruct (Nat.ltb_spec (Z.to_nat i) (length l)); split; intros Hx;
      try discriminate; try (injection Hx as <-; auto); try lia.
    destruct Hx as (_ & _ & ->); reflexivity.
Qed.

Lemma aget_aset_same {A : Type} (l l' : list A) (i : Z) (x : A) :
  aset l i x = Ok l' -> aget l' i = Ok x.
Proof.
  intros (Hi & Hlen & ->)%aset_Ok. apply aget_Ok. split; [assumption|].
  by apply list_lookup_insert_eq.
Qed.

Lemma aget_aset_other {A : Type} (l l' : list A) (i k : Z) (x : A) :
  aset l i x = Ok l' -> i <> k -> aget l' k = aget l k.
Proof.
  intros (Hi & Hlen & ->)%aset_Ok Hne. unfold aget.
  destruct (Z.ltb_spec k 0); [reflexivity|].
  rewrite list_lookup_insert_ne; [reflexivity | lia].
Qed.

Lemma aset_length {A : Type} (l l' : list A) (i : Z) (x : A) :
  aset l i x = Ok l' -> length l' = length l.
Proof. intros (_ & _ & ->)%aset_Ok. apply length_insert. Qed.

Lemma aget_in_range {A : Type} (l : list A) (i : Z) :
  0 <= i < Z.of_nat (length l) -> exists x, aget l i = Ok x.
Proof.
  intros Hi. destruct (lookup_lt_is_Some_2 l (Z.to_nat i)) as [x Hx]; [lia|].
  exists x. apply aget_Ok. split; [lia | assumption].
Qed.

Lemma aset_in_range {A : Type} (l : list A) (i : Z) (x : A) :
  0 <= i < Z.of_nat (length l) -> aset l i x = Ok (<[Z.to_nat i := x]> l).
Proof. intros Hi. apply aset_Ok. repeat split; lia. Qed.

(** ** Two-dimensional arrays *)

Lemma mget_mset_same {A : Type} (m m' : matrix A) (i j : Z) (x : A) :
  mset m i j x = Ok m' -> mget m' i j = Ok x.
Proof.
  unfold mset, mget. intros Hs.
  inv_bind Hs. inv_bind Hs.
  rewrite (aget_aset_same _ _ _ _ Hs). cbn. by eapply aget_aset_same.
Qed.

Lemma mget_mset_other {A : Type} (m m' : matrix A) (i j i' j' : Z) (x : A) :
  mset m i j x = Ok m' -> i <> i' \/ j <> j' -> mget m' i' j' = mget m i' j'.
Proof.
  unfold mset, mget. intros Hs Hne.
  inv_bind Hs. inv_bind Hs.
  destruct (Z.eq_dec i i') as [<- | Hi].
  - rewrite (aget_aset_same _ _ _ _ Hs), Ha. cbn.
    eapply aget_aset_other; [eassumption | tauto].
  - by rewrite (aget_aset_other _ _ _ _ _ Hs Hi).
Qed.

Lemma mset_Ok_mget {A : Type} (m m' : matrix A) (i j : Z) (x : A) :
  mset m i j x = Ok m' -> exists y, mget m i j = Ok y.
Proof.
  unfold mset, mget. intros Hs. inv_bind Hs. inv_bind Hs.
  rewrite Ha. cbn. apply aset_Ok in Ha0 as (? & ? & _).
  apply aget_in_range. lia.
Qed.

(** ** Loops *)

Lemma for_up_inv {St : Type} (P : Z -> St -> Prop) (n : nat) (lo : Z)
  (body : Z -> St -> outcome St) (s s' : St) :
  for_up n lo body s = Ok s' ->
  P lo s ->
  (forall i t t', lo <= i < lo + Z.of_nat n -> P i t -> body i t = Ok t' -> P (i + 1) t') ->
  P (lo + Z.of_nat n) s'.
Proof.
  revert lo s. induction n as [|n IH]; intros lo s Hrun Hs Hstep.
  - cbn in Hrun. injection Hrun as <-. by replace (lo + Z.of_nat 0) with lo by lia.
  - cbn in Hrun. inv_bind Hrun.
    replace (lo + Z.of_nat (S n)) with ((lo + 1) + Z.of_nat n) by lia.
    apply (IH (lo + 1) a); [assumption | |].
    + apply (Hstep lo s); [lia | assumption | assumption].
    + intros i t t' Hi. apply Hstep. lia.
Qed.

Lemma for_range_inv {St : Type} (P : Z -> St -> Prop) (lo hi : Z)
  (body : Z -> St -> outcome St) (s s' : St) :
  for_range lo hi body s = Ok s' ->
  P lo s ->
  (forall i t t', lo <= i <= hi -> P i t -> body i t = Ok t' -> P (i + 1) t') ->
  P (Z.max lo (hi + 1)) s'.
Proof.
  unfold for_range. intros Hrun Hs Hstep.
  replace (Z.max lo (hi + 1)) with (lo + Z.of_nat (Z.to_nat (hi - lo + 1))) by lia.
  eapply for_up_inv; [eassumption | assumption |].
  intros i t t' Hi. apply Hstep. lia.
Qed.

Lemma for_up_total {St : Type} (P : Z -> St -> Prop) (n : nat) (lo : Z)
  (body : Z -> St -> outcome St) (s : St) :
  P lo s ->
  (forall i t, lo <= i < lo + Z.of_nat n -> P i t ->
     exists t', body i t = Ok t' /\ P (i + 1) t') ->
  exists s', for_up n lo body s = Ok s' /\ P (lo + Z.of_nat n) s'.
Proof.
  revert lo s. induction n as [|n IH]; intros lo s Hs Hstep.
  - exists s. cbn. split; [reflexivity|]. by replace (lo + Z.of_nat 0) with lo by lia.
  - destruct (Hstep lo s) as (t & Ht & HP); [lia | assumption |].
    destruct (IH (lo + 1) t) as (s' & Hrun & Hs'); [assumption | |].
    + intros i u Hi. apply Hstep. lia.
    + exists s'. cbn. rewrite Ht. cbn. split; [assumption|].
      by replace (lo + Z.of_nat (S n)) with ((lo + 1) + Z.of_nat n) by lia.
Qed.

Lemma for_range_total {St : Type} (P : Z -> St -> Prop) (lo hi : Z)
  (body : Z -> St -> outcome St) (s : St) :
  P lo s ->
  (forall i t, lo <= i <= hi -> P i t -> exists t', body i t = Ok t' /\ P (i + 1) t') ->
  exists s', for_range lo hi body s = Ok s' /\ P (Z.max lo (hi + 1)) s'.
Proof.
  unfold for_range. intros Hs Hstep.
  replace (Z.max lo (hi + 1)) with (lo + Z.of_nat (Z.to_nat (hi - lo + 1))) by lia.
  apply for_up_total; [assumption|].
  intros i t Hi. apply Hstep. lia.
Qed.

(** ** The pair counts of two replicate measures *)

Lemma occurrences_app (a b : Z) (l1 l2 : list (Z * Z)) :
  occurrences a b (l1 ++ l2) = occurrences a b l1 + occurrences a b l2.
Proof.
  induction l1 as [|[x y] l1 IH]; cbn; [reflexivity|]. rewrite IH. lia.
Qed.

Lemma check_pairs_counts (v1 v2 : list Z) (m m' : matrix Z) :
  check_pairs v1 v2 m = Ok m' ->
  forall a b x, mget m a b = Ok x ->
    mget m' a b = Ok (x + occurrences a b (zip v1 v2)).
Proof.
  revert v2 m. induction v1 as [|p v1 IH]; intros v2 m Hrun a b x Hx.
  - cbn in Hrun. injection Hrun as <-. cbn. rewrite Hx. f_equal. lia.
  - destruct v2 as [|q v2]; [discriminate|]. cbn in Hrun.
    inv_bind Hrun. inv_bind Hrun. cbn.
    destruct (Z.eqb_spec p a) as [-> | Hp]; [destruct (Z.eqb_spec q b) as [-> | Hq]|]; cbn.
    + rewrite (IH _ _ Hrun a b (x + 1)); [f_equal; lia|].
      assert (a0 = x) as -> by congruence. by eapply mget_mset_same.
    + rewrite (IH _ _ Hrun a b x); [f_equal; lia|].
      rewrite (mget_mset_other _ _ _ _ _ _ _ Ha0); [assumption | tauto].
    + rewrite (IH _ _ Hrun a b x); [f_equal; lia|].
      rewrite (mget_mset_other _ _ _ _ _ _ _ Ha0); [assumption | tauto].
Qed.

Lemma check_pairs_cells (v1 v2 : list Z) (m m' : matrix Z) :
  check_pairs v1 v2 m = Ok m' ->
  forall a b y, mget m' a b = Ok y -> exists x, mget m a b = Ok x.
Proof.
  revert v2 m. induction v1 as [|p v1 IH]; intros v2 m Hrun a b y Hy.
  - cbn in Hrun. injection Hrun as <-. eauto.
  - destruct v2 as [|q v2]; [discriminate|]. cbn in Hrun.
    inv_bind Hrun. inv_bind Hrun.
    destruct (IH _ _ Hrun a b y Hy) as [x Hx].
    destruct (Z.eq_dec p a) as [-> | Hp]; [destruct (Z.eq_dec q b) as [-> | Hq]|].
    + eauto.
    + rewrite (mget_mset_other _ _ _ _ _ _ _ Ha0) in Hx; [eauto | tauto].
    + rewrite (mget_mset_other _ _ _ _ _ _ _ Ha0) in Hx; [eauto | tauto].
Qed.

Section Compare.
Context `{GeneFamilyReader}.

Lemma compare_files_counts (ist1 ist2 : list string) (m m' : matrix Z) :
  compare_files ist1 ist2 m = Ok m' ->
  forall a b x, mget m a b = Ok x ->
    mget m' a b = Ok (x + occurrences a b (observations ist1 ist2)).
Proof.
  revert ist2 m. induction ist1 as [|buf1 rest1 IH]; intros ist2 m Hrun a b x Hx.
  - cbn in Hrun. injection Hrun as <-. cbn. rewrite Hx. f_equal. lia.
  - destruct ist2 as [|buf2 rest2].
    + cbn in Hrun. rewrite (IH _ _ Hrun a b x Hx). cbn.
      destruct rest1; reflexivity.
    + cbn in Hrun. inv_bind Hrun. inv_bind Hrun.
      destruct (negb (gf_id a0 =? gf_id a1)%string); [discriminate|].
      inv_bind Hrun. cbn. rewrite Ha, Ha0, occurrences_app.
      rewrite (IH _ _ Hrun a b (x + occurrences a b (zip (gf_values a0) (gf_values a1)))).
      * f_equal. lia.
      * by eapply check_pairs_counts.
Qed.

Lemma compare_files_cells (ist1 ist2 : list string) (m m' : matrix Z) :
  compare_files ist1 ist2 m = Ok m' ->
  forall a b y, mget m' a b = Ok y -> exists x, mget m a b = Ok x.
Proof.
  revert ist2 m. induction ist1 as [|buf1 rest1 IH]; intros ist2 m Hrun a b y Hy.
  - cbn in Hrun. injection Hrun as <-. eauto.
  - destruct ist2 as [|buf2 rest2].
    + cbn in Hrun. eauto.
    + cbn in Hrun. inv_bind Hrun. inv_bind Hrun.
      destruct (negb (gf_id a0 =? gf_id a1)%string); [discriminate|].
      inv_bind Hrun. destruct (IH _ _ Hrun a b y Hy) as [x Hx].
      by eapply check_pairs_cells.
Qed.

End Compare.

Lemma merge_row_spec (m cur : matrix Z) (i : Z) :
  for_range 0 (i - 1)
    (fun j m => a ← mget m j i; b ← mget m i j; m1 ← mset m j i (a + b); mset m1 i j 0)
    m = Ok cur ->
  merged_row m cur i (Z.max 0 i).
Proof.
  intros Hrun.
  replace (Z.max 0 i) with (Z.max 0 (i - 1 + 1)) by lia.
  apply (for_range_inv (fun j cur => merged_row m cur i j) _ _ _ _ _ Hrun).
  - intros a b. repeat split; try lia. 
  - intros j t t' Hj Hinv Hbody.
    inv_bind Hbody. inv_bind Hbody. inv_bind Hbody.
    rename a into x, a0 into y, a1 into t1.
    assert (Hx : mget m j i = Ok x).
    { rewrite <- Ha. symmetry. apply Hinv; lia. }
    assert (Hy : mget m i j = Ok y).
    { rewrite <- Ha0. symmetry. apply Hinv; lia. }
    intros a b. split; [|split].
    + intros [-> Hb]. destruct (Z.eq_dec b j) as [-> | Hne].
      * by eapply mget_mset_same.
      * rewrite (mget_mset_other _ _ _ _ _ _ _ Hbody) by lia.
        rewrite (mget_mset_other _ _ _ _ _ _ _ Ha1) by lia.
        apply Hinv. lia.
    + intros [-> Ha']. destruct (Z.eq_dec a j) as [-> | Hne].
      * exists x, y. repeat split; try assumption.
        rewrite (mget_mset_other _ _ _ _ _ _ _ Hbody) by lia.
        by eapply mget_mset_same.
      * destruct (proj1 (proj2 (Hinv a i))) as (x' & y' & ? & ? & ?); [lia|].
        exists x', y'. repeat split; try assumption.
        rewrite (mget_mset_other _ _ _ _ _ _ _ Hbody) by lia.
        rewrite (mget_mset_other _ _ _ _ _ _ _ Ha1) by lia.
        assumption.
    + intros Hn1 Hn2.
      rewrite (mget_mset_other _ _ _ _ _ _ _ Hbody) by lia.
      rewrite (mget_mset_other _ _ _ _ _ _ _ Ha1) by lia.
      apply Hinv; lia.
Qed.

Lemma merge_pairs_spec (m m' : matrix Z) (maxFamilySize : Z) :
  merge_pairs m maxFamilySize = Ok m' ->
  merged_upto m m' (Z.max 0 (maxFamilySize + 1)).
Proof.
  intros Hrun.
  apply (for_range_inv (fun i cur => merged_upto m cur i) _ _ _ _ _ Hrun).
  - intros a b. split; [lia | reflexivity].
  - intros i t t' Hi Hinv Hbody.
    apply merge_row_spec in Hbody. replace (Z.max 0 i) with i in Hbody by lia.
    intros a b. split.
    + intros [Hb Ha]. destruct (Z.eq_dec a i) as [-> | Hne].
      * split; [apply Hbody; lia|].
        destruct (proj1 (proj2 (Hbody b i))) as (x & y & Hx & Hy & Hxy); [lia|].
        exists x, y. repeat split; try assumption.
        -- rewrite <- Hx. symmetry. apply Hinv; lia.
        -- rewrite <- Hy. symmetry. apply Hinv; lia.
      * destruct (proj1 (Hinv a b)) as (H0 & x & y & Hx & Hy & Hxy); [lia|].
        split.
        -- rewrite <- H0. apply Hbody; lia.
        -- exists x, y. repeat split; try assumption.
           rewrite <- Hxy. apply Hbody; lia.
    + intros Hn1 Hn2. transitivity (mget t a b).
      * apply Hbody; lia.
      * apply Hinv; lia.
Qed.

(** Claim C8, as amended.  When [read_error_double_measure] returns, the
    pair-count matrix is upper triangular, not symmetric: below the diagonal
    every cell [i][j] (with [j < i <= maxFamilySize]) is zero, and the cell
    [j][i] above it holds what the matrix held at [j][i] and [i][j] before
    the call plus the number of positions at which the two files hold the
    counts [(j, i)] or [(i, j)]; a diagonal cell grows by the number of
    positions at which both files hold [i]. *)
Theorem read_error_double_measure_triangular `{GeneFamilyReader}
  (ist1 ist2 : istream) (observed_pairs result : matrix Z) (maxFamilySize : Z) :
  read_error_double_measure ist1 ist2 observed_pairs maxFamilySize = Ok result ->
  (forall i j, 0 <= j -> j < i -> i <= maxFamilySize ->
     mget result i j = Ok 0 /\
     exists x y,
       mget observed_pairs j i = Ok x /\ mget observed_pairs i j = Ok y /\
       mget result j i =
         Ok (x + y + occurrences j i (measured_pairs ist1 ist2)
                   + occurrences i j (measured_pairs ist1 ist2))) /\
  (forall i x, mget observed_pairs i i = Ok x ->
     mget result i i = Ok (x + occurrences i i (measured_pairs ist1 ist2))).
Proof.
  unfold read_error_double_measure, measured_pairs. intros Hrun.
  destruct ist1 as [[|hdr1 rest1]|]; try discriminate.
  destruct ist2 as [[|hdr2 rest2]|]; try discriminate.
  inv_bind Hrun. rename a into counted.
  pose proof (merge_pairs_spec _ _ _ Hrun) as Hm.
  split.
  - intros i j Hj Hji Hi.
    destruct (proj1 (Hm i j)) as (H0 & x & y & Hx & Hy & Hxy); [lia|].
    split; [assumption|].
    destruct (compare_files_cells _ _ _ _ Ha _ _ _ Hx) as [x0 Hx0].
    destruct (compare_files_cells _ _ _ _ Ha _ _ _ Hy) as [y0 Hy0].
    exists x0, y0. repeat split; try assumption.
    rewrite (compare_files_counts _ _ _ _ Ha _ _ _ Hx0) in Hx.
    rewrite (compare_files_counts _ _ _ _ Ha _ _ _ Hy0) in Hy.
    rewrite Hxy. injection Hx as <-. injection Hy as <-. f_equal. lia.
  - intros i x Hx.
    rewrite (proj2 (Hm i i)) by lia.
    by eapply compare_files_counts.
Qed.

(** Claim C8, as stated, fails: one family with the counts (1, 1) in the
    first file and (0, 1) in the second leaves 1 at [pairs[0][1]] and 0 at
    [pairs[1][0]]. *)
Lemma read_error_double_measure_not_symmetric :
  read_error_double_measure (Some replicate_one) (Some replicate_two)
    (memory_new_2dim 2 2 0) 1 = Ok [[0; 1]; [0; 1]] /\
  mget (A:=Z) [[0; 1]; [0; 1]] 0 1 <> mget [[0; 1]; [0; 1]] 1 0.
Proof. split; [vm_compute; reflexivity | vm_compute; discriminate]. Qed.

(** The theorem of claim C8 at the two files above. *)
Lemma read_error_double_measure_triangular_witness :
  mget (A:=Z) [[0; 1]; [0; 1]] 1 0 = Ok 0 /\
  exists x y,
    mget (memory_new_2dim 2 2 0) 0 1 = Ok x /\ mget (memory_new_2dim 2 2 0) 1 0 = Ok y /\
    mget [[0; 1]; [0; 1]] 0 1 =
      Ok (x + y
          + occurrences 0 1 (measured_pairs (Some replicate_one) (Some replicate_two))
          + occurrences 1 0 (measured_pairs (Some replicate_one) (Some replicate_two))).
Proof.
  apply (proj1 (read_error_double_measure_triangular (H := tab_separated_reader)
                  (Some replicate_one) (Some replicate_two)
                  (memory_new_2dim 2 2 0) [[0; 1]; [0; 1]] 1
                  ltac:(vm_compute; reflexivity)) 1 0); lia.
Defined.

(** ** Names up to case *)

Ltac split_range :=
  repeat match goal with
  | H : (_ && _)%bool = true |- _ =>
      apply andb_true_iff in H as [?%Nat.leb_le ?%Nat.leb_le]
  | H : (_ && _)%bool = false |- _ =>
      apply andb_false_iff in H as [?%Nat.leb_gt | ?%Nat.leb_gt]
  end.

Lemma to_lower_eq_iff (a b : ascii) : to_lower a = to_lower b <-> same_letter a b.
Proof.
  unfold to_lower, same_letter, is_upper.
  pose proof (nat_ascii_bounded a) as Ba. pose proof (nat_ascii_bounded b) as Bb.
  destruct ((65 <=? nat_of_ascii a)%nat && (nat_of_ascii a <=? 90)%nat) eqn:Ua;
    destruct ((65 <=? nat_of_ascii b)%nat && (nat_of_ascii b <=? 90)%nat) eqn:Ub.
  - split_range. split.
    + intros E. left. apply (f_equal nat_of_ascii) in E.
      rewrite !nat_ascii_embedding in E by lia.
      rewrite <- (ascii_nat_embedding a), <- (ascii_nat_embedding b). f_equal. lia.
    + intros [-> | [[_ E] | [_ E]]]; [reflexivity | exfalso; lia | exfalso; lia].
  - split.
    + intros <-. right; left. split; [reflexivity|].
      split_range; rewrite nat_ascii_embedding; lia.
    + intros [-> | [[_ E] | [? E]]]; [congruence | | discriminate].
      rewrite <- E. by rewrite ascii_nat_embedding.
  - split.
    + intros ->. right; right. split; [reflexivity|].
      split_range; rewrite nat_ascii_embedding; lia.
    + intros [-> | [[? E] | [_ E]]]; [congruence | discriminate |].
      rewrite <- E. by rewrite ascii_nat_embedding.
  - split.
    + intros ->. by left.
    + intros [-> | [[? E] | [? E]]]; [reflexivity | discriminate | discriminate].
Qed.

Lemma transform_to_lower_eq_iff (s t : string) :
  transform to_lower s = transform to_lower t <-> equal_up_to_case s t.
Proof.
  revert t. induction s as [|a s IH]; intros [|b t]; cbn; split; intros E;
    try discriminate; try (by constructor); try (by inversion E).
  - injection E as E1 E2. constructor; [by apply to_lower_eq_iff | by apply IH].
  - inversion E; subst. f_equal; [by apply to_lower_eq_iff | by apply IH].
Qed.

Lemma case_insensitive_equal_spec (s1 s2 : string) :
  case_insensitive_equal s1 s2 = true <-> equal_up_to_case s1 s2.
Proof.
  unfold case_insensitive_equal. rewrite String.eqb_eq.
  apply transform_to_lower_eq_iff.
Qed.


Lemma equal_up_to_case_trans (s t u : string) :
  equal_up_to_case s t -> equal_up_to_case t u -> equal_up_to_case s u.
Proof. rewrite <- !transform_to_lower_eq_iff. congruence. Qed.

Lemma equal_up_to_case_refl (s : string) : equal_up_to_case s s.
Proof. by apply transform_to_lower_eq_iff. Qed.

(** ** Looking a model up by the name of its file *)

Lemma get_error_model_from_found (errs : list ErrorStruct) (base : nat)
  (filename : string) (p : pErrorStruct) :
  get_error_model_from errs base filename = Some p ->
  exists e, (base <= p)%nat /\ errs !! (p - base)%nat = Some e /\
    equal_up_to_case (errorfilename e) filename.
Proof.
  revert base. induction errs as [|e errs IH]; intros base Hget; [discriminate|].
  cbn in Hget.
  destruct (case_insensitive_equal (errorfilename e) filename) eqn:E.
  - injection Hget as <-. exists e. rewrite Nat.sub_diag.
    repeat split; [lia | by apply case_insensitive_equal_spec].
  - destruct (IH _ Hget) as (e' & Hle & He' & Hname).
    exists e'. repeat split; [lia | | assumption].
    replace (p - base)%nat with (S (p - S base)) by lia. assumption.
Qed.

Lemma get_error_model_from_some (errs : list ErrorStruct) (base k : nat)
  (filename : string) (e : ErrorStruct) :
  errs !! k = Some e -> equal_up_to_case (errorfilename e) filename ->
  exists p, get_error_model_from errs base filename = Some p.
Proof.
  revert base k. induction errs as [|e0 errs IH]; intros base k Hk Hname; [discriminate|].
  cbn. destruct (case_insensitive_equal (errorfilename e0) filename) eqn:E; [eauto|].
  destruct k as [|k].
  - injection Hk as ->. apply case_insensitive_equal_spec in Hname. congruence.
  - by eapply IH.
Qed.

Lemma get_error_model_from_first (errs : list ErrorStruct) (base : nat)
  (filename : string) (p k : nat) (e : ErrorStruct) :
  get_error_model_from errs base filename = Some p ->
  errs !! k = Some e -> equal_up_to_case (errorfilename e) filename ->
  (p <= base + k)%nat.
Proof.
  revert base k. induction errs as [|e0 errs IH]; intros base k Hget Hk Hname;
    [discriminate|].
  cbn in Hget.
  destruct (case_insensitive_equal (errorfilename e0) filename) eqn:E.
  - injection Hget as <-. lia.
  - destruct k as [|k].
    + injection Hk as ->. apply case_insensitive_equal_spec in Hname. congruence.
    + specialize (IH (S base) k Hget Hk Hname). lia.
Qed.


(** ** Attaching a model to species *)

Lemma attach_error_model_Ok (family : CafeFamily) (pTree : CafeTree) (i : nat)
  (p : option pErrorStruct) (ptrs : list (option pErrorStruct)) (node : Z) :
  error_ptr family = Some ptrs -> (i < length ptrs)%nat ->
  index family !! i = Some node -> 0 <= node < Z.of_nat (length pTree) ->
  attach_error_model family pTree (Z.of_nat i) p =
    Ok (mkCafeFamily (species family) (num_species family) (index family)
          (errors family) (Some (<[i := p]> ptrs)),
        <[Z.to_nat node := mkCafeNode p]> pTree).
Proof.
  intros Hptrs Hi Hnode Hrange. unfold attach_error_model. rewrite Hptrs. cbn.
  rewrite aset_in_range by lia. cbn.
  assert (aget (index family) (Z.of_nat i) = Ok node) as ->.
  { apply aget_Ok. split; [lia|]. by rewrite Nat2Z.id. }
  cbn. rewrite aset_in_range by lia. cbn. by rewrite Nat2Z.id.
Qed.





(** ** Setting the error model of a species from a file *)



Example set_error_matrix_from_file_example :
  set_error_matrix_from_file (build := release_build) (M := ErrorMeasure)
    0 no_files [] two_species three_nodes (mkRange 0 1 0 1) "ERRORS.TXT" "Human"
  = Ok (mkAttached
          (mkCafeFamily ["chimp"; "human"]%string 2 [0; 2] (Some [loaded_model])
             (Some [None; Some 0%nat]))
          [mkCafeNode None; mkCafeNode None; mkCafeNode (Some 0%nat)] [] 0).
Proof. reflexivity. Qed.

(** ** The rejection of parameter vectors *)

Lemma existsb_seq_shift (f : nat -> bool) (a n : nat) :
  existsb f (seq (S a) n) = existsb (fun k => f (S k)) (seq a n).
Proof.
  revert a. induction n as [|n IH]; intros a; [reflexivity|].
  cbn [seq existsb]. by rewrite IH.
Qed.

Lemma scan_parameters_spec (n : nat) (i : Z) (parameters : list float)
  (epsilon : float) (v : nat -> float) :
  (forall k, (k < n)%nat -> aget parameters (i + Z.of_nat k) = Ok (v k)) ->
  scan_parameters n i parameters epsilon =
    Ok (existsb (fun k => (v k <? 0) || (epsilon <? 0) || (v k <? epsilon))%float
          (seq 0 n)).
Proof.
  revert i v. induction n as [|n IH]; intros i v Hv; [reflexivity|].
  cbn [scan_parameters].
  pose proof (Hv 0%nat ltac:(lia)) as Hhead. rewrite Z.add_0_r in Hhead.
  rewrite Hhead. cbn [seq existsb]. rewrite bind_Ok.
  destruct ((v 0%nat <? 0) || (epsilon <? 0) || (v 0%nat <? epsilon))%float;
    [reflexivity|].
  rewrite (IH (i + 1) (fun k => v (S k))).
  - cbn [orb]. f_equal. by rewrite existsb_seq_shift.
  - intros k Hk. rewrite <- (Hv (S k)) by lia. f_equal. lia.
Qed.

Lemma scan_decreasing_spec (n : nat) (i : Z) (at_ : Z -> Z) (parameters : list float)
  (previous_param : float) (v : nat -> float) :
  v 0%nat = previous_param ->
  (forall k, (k < n)%nat -> aget parameters (at_ (i + Z.of_nat k)) = Ok (v (S k))) ->
  scan_decreasing n i at_ parameters previous_param =
    Ok (existsb (fun k => (v k <? v (S k))%float) (seq 0 n)).
Proof.
  revert i previous_param v. induction n as [|n IH]; intros i prev v H0 Hv;
    [reflexivity|].
  cbn [scan_decreasing].
  pose proof (Hv 0%nat ltac:(lia)) as Hhead. rewrite Z.add_0_r in Hhead.
  rewrite Hhead. cbn [seq existsb]. rewrite bind_Ok, <- H0.
  destruct (v 0%nat <? v 1%nat)%float; [reflexivity|].
  rewrite (IH (i + 1) _ (fun k => v (S k))).
  - cbn [orb]. f_equal. by rewrite existsb_seq_shift.
  - reflexivity.
  - intros k Hk. rewrite <- (Hv (S k)) by lia. do 2 f_equal. lia.
Qed.


Lemma aget_parameter (parameters : list float) (k : nat) :
  (k < length parameters)%nat ->
  aget parameters (Z.of_nat k) = Ok (parameter parameters k).
Proof.
  intros Hk. apply aget_Ok. split; [lia|]. rewrite Nat2Z.id. unfold parameter.
  destruct (lookup_lt_is_Some_2 parameters k Hk) as [p ->]. reflexivity.
Qed.

Lemma aget_first_parameter (parameters : list float) :
  (0 < length parameters)%nat -> aget parameters 0 = Ok (parameter parameters 0).
Proof. apply (aget_parameter parameters 0). Qed.

Lemma parameter_lookup (parameters : list float) (k : nat) (p : float) :
  parameters !! k = Some p -> parameter parameters k = p.
Proof. unfold parameter. by intros ->. Qed.

Lemma existsb_seq_true (f : nat -> bool) (n k : nat) :
  (k < n)%nat -> f k = true -> existsb f (seq 0 n) = true.
Proof.
  intros Hk Hf. apply existsb_exists. exists k. split; [|assumption].
  apply in_seq. lia.
Qed.

Lemma epsilon_defined (errormeasure : ErrorMeasure) (parameters : list float) :
  well_shaped errormeasure parameters ->
  exists epsilon,
    get_marginal_error_probability_epsilon errormeasure parameters = Ok epsilon.
Proof.
  intros (Hlen & Hn & _). unfold get_marginal_error_probability_epsilon.
  destruct (negb (b_symmetric errormeasure =? 0)).
  - rewrite aget_first_parameter by lia. rewrite bind_Ok.
    destruct (for_range_total (fun _ _ => True) 1
                (model_parameter_number errormeasure - 1)
                (fun i sum => p ← aget parameters i; Ok (sum + 2 * p)%float)
                (parameter parameters 0)) as (sum & -> & _); [exact I | | eauto].
    intros i t Hi _. destruct (aget_in_range parameters i) as [p ->]; [lia|]. eauto.
  - destruct (for_range_total (fun _ _ => True) 0
                (model_parameter_number errormeasure - 1)
                (fun i sum => p ← aget parameters i; Ok (sum + p)%float)
                0%float) as (sum & -> & _); [exact I | | eauto].
    intros i t Hi _. destruct (aget_in_range parameters i) as [p ->]; [lia|]. eauto.
Qed.

Lemma scan_parameters_total (errormeasure : ErrorMeasure) (parameters : list float)
  (epsilon : float) :
  well_shaped errormeasure parameters ->
  scan_parameters (Z.to_nat (model_parameter_number errormeasure)) 0 parameters epsilon =
    Ok (existsb (fun k => (parameter parameters k <? 0) || (epsilon <? 0)
                          || (parameter parameters k <? epsilon))%float
          (seq 0 (Z.to_nat (model_parameter_number errormeasure)))).
Proof.
  intros (Hlen & Hn & _). apply scan_parameters_spec.
  intros k Hk. apply aget_parameter. lia.
Qed.

Lemma scan_peak_rises (errormeasure : ErrorMeasure) (parameters : list float) :
  well_shaped errormeasure parameters ->
  rises_from_peak errormeasure parameters ->
  scan_peak errormeasure parameters = Ok true.
Proof.
  intros (Hlen & Hn & Hasym). unfold rises_from_peak, scan_peak.
  destruct (b_symmetric errormeasure =? 0) eqn:Esym; cbn [negb].
  - apply Z.eqb_eq in Esym. destruct (Hasym Esym) as [Hd Hnum].
    cbv zeta. remember (Z.to_nat (model_parameter_diff errormeasure)) as d eqn:Hd0.
    intros (i & p & q & Hi & Hpq & Hside).
    assert (Ed : model_parameter_diff errormeasure = Z.of_nat d) by lia.
    rewrite Ed.
    rewrite (aget_parameter parameters d) by lia. rewrite !bind_Ok.
    rewrite (scan_decreasing_spec d 1 _ parameters _
               (fun k => parameter parameters (d - k)%nat)).
    2:{ f_equal. lia. }
    2:{ intros k Hk.
        replace (Z.of_nat d - (1 + Z.of_nat k))
          with (Z.of_nat (d - S k)) by lia.
        apply aget_parameter. lia. }
    rewrite !bind_Ok.
    rewrite (scan_decreasing_spec d 1 _ parameters _
               (fun k => parameter parameters (d + k)%nat)).
    2:{ f_equal. lia. }
    2:{ intros k Hk.
        replace (Z.of_nat d + (1 + Z.of_nat k))
          with (Z.of_nat (d + S k)) by lia.
        apply aget_parameter. lia. }
    rewrite bind_Ok. f_equal. apply orb_true_iff.
    destruct Hside as [[Hp Hq] | [Hp Hq]]; [left | right];
      apply (existsb_seq_true _ d i Hi); cbn beta;
      by rewrite (parameter_lookup _ _ _ Hp), (parameter_lookup _ _ _ Hq).
  - intros (i & p & q & Hp & Hq & Hpq).
    rewrite aget_first_parameter by lia. rewrite bind_Ok.
    rewrite (scan_decreasing_spec _ 1 _ parameters _ (parameter parameters)).
    + f_equal. apply (existsb_seq_true _ _ i).
      * apply lookup_lt_Some in Hq. lia.
      * by rewrite (parameter_lookup _ _ _ Hp), (parameter_lookup _ _ _ Hq).
    + reflexivity.
    + intros k Hk. replace (1 + Z.of_nat k) with (Z.of_nat (S k)) by lia.
      apply aget_parameter. lia.
Qed.

Lemma scan_peak_total (errormeasure : ErrorMeasure) (parameters : list float) :
  well_shaped errormeasure parameters ->
  exists skip, scan_peak errormeasure parameters = Ok skip.
Proof.
  intros (Hlen & Hn & Hasym). unfold scan_peak.
  destruct (b_symmetric errormeasure =? 0) eqn:Esym; cbn [negb].
  - apply Z.eqb_eq in Esym. destruct (Hasym Esym) as [Hd Hnum].
    cbv zeta. remember (Z.to_nat (model_parameter_diff errormeasure)) as d eqn:Hd0.
    assert (Ed : model_parameter_diff errormeasure = Z.of_nat d) by lia.
    rewrite Ed.
    rewrite (aget_parameter parameters d) by lia. rewrite !bind_Ok.
    rewrite (scan_decreasing_spec d 1 _ parameters _
               (fun k => parameter parameters (d - k)%nat)).
    2:{ f_equal. lia. }
    2:{ intros k Hk.
        replace (Z.of_nat d - (1 + Z.of_nat k))
          with (Z.of_nat (d - S k)) by lia.
        apply aget_parameter. lia. }
    rewrite !bind_Ok.
    rewrite (scan_decreasing_spec d 1 _ parameters _
               (fun k => parameter parameters (d + k)%nat)).
    2:{ f_equal. lia. }
    2:{ intros k Hk.
        replace (Z.of_nat d + (1 + Z.of_nat k))
          with (Z.of_nat (d + S k)) by lia.
        apply aget_parameter. lia. }
    rewrite bind_Ok. eauto.
  - rewrite aget_first_parameter by lia. rewrite bind_Ok.
    rewrite (scan_decreasing_spec _ 1 _ parameters _ (parameter parameters)); [eauto | reflexivity |].
    intros k Hk. replace (1 + Z.of_nat k) with (Z.of_nat (S k)) by lia.
    apply aget_parameter. lia.
Qed.

Lemma parameters_rejected_true (errormeasure : ErrorMeasure) (parameters : list float) :
  well_shaped errormeasure parameters ->
  has_negative parameters \/
  epsilon_negative errormeasure parameters \/
  (b_peakzero errormeasure <> 0 /\ rises_from_peak errormeasure parameters) ->
  parameters_rejected errormeasure parameters = Ok true.
Proof.
  intros Hshape Hcase. unfold parameters_rejected.
  destruct (epsilon_defined _ _ Hshape) as [epsilon Heps]. rewrite Heps, bind_Ok.
  rewrite (scan_parameters_total _ _ _ Hshape), bind_Ok.
  pose proof Hshape as (Hlen & Hn & _).
  destruct Hcase as [(i & p & Hp & Hneg) | [(eps & Heps' & Hneg) | (Hpeak & Hrise)]].
  - rewrite (existsb_seq_true _ _ i); [reflexivity | |].
    + apply lookup_lt_Some in Hp. lia.
    + by rewrite (parameter_lookup _ _ _ Hp), Hneg.
  - assert (eps = epsilon) as -> by congruence.
    rewrite (existsb_seq_true _ _ 0%nat); [reflexivity | lia |].
    rewrite Hneg. by rewrite orb_true_r.
  - destruct (existsb _ _); [reflexivity|]. cbn [negb andb].
    destruct (Z.eqb_spec (b_peakzero errormeasure) 0) as [E | _]; [contradiction|].
    cbn [negb]. by apply scan_peak_rises.
Qed.

(** Claim C7.  A parameter vector of the right shape that has a negative
    parameter, or whose residual epsilon is negative, or (when the peak-zero
    flag is set) in which some parameter is larger than its neighbour on the
    side of the peak, is rejected: the checks end with [skip] set, so the
    block that builds the error matrix and adds the likelihood terms is not
    run, and the cost returned is [-log(0)], plus infinity.  This holds
    whatever the logarithm computes away from 0 and whatever the functions
    of cafe_shell.c compute. *)
Theorem rejected_parameters_cost_infinity `{Libm} `{CafeShell ErrorMeasure}
  (errormeasure : ErrorMeasure) (parameters : list float) :
  well_shaped errormeasure parameters ->
  has_negative parameters \/
  epsilon_negative errormeasure parameters \/
  (b_peakzero errormeasure <> 0 /\ rises_from_peak errormeasure parameters) ->
  parameters_rejected errormeasure parameters = Ok true /\
  loglikelihood_pairs_from_double_measure parameters errormeasure = Ok infinity.
Proof.
  intros Hshape Hcase.
  pose proof (parameters_rejected_true _ _ Hshape Hcase) as Hskip.
  split; [assumption|].
  unfold loglikelihood_pairs_from_double_measure.
  rewrite Hskip, bind_Ok, log_zero. reflexivity.
Qed.

(** The theorem of claim C7 at a vector with a negative parameter. *)
Lemma rejected_parameters_cost_infinity_witness :
  parameters_rejected small_measure [0.5; -0.125]%float = Ok true /\
  loglikelihood_pairs_from_double_measure [0.5; -0.125]%float small_measure = Ok infinity.
Proof.
  apply (rejected_parameters_cost_infinity small_measure [0.5; -0.125]%float).
  - split; [reflexivity|]. split; [cbn; lia|]. cbn. discriminate.
  - left. exists 1%nat, (-0.125)%float. split; reflexivity.
Defined.

Example epsilon_of_small_measure :
  get_marginal_error_probability_epsilon small_measure [0.5; 0.125]%float = Ok 0.25%float.
Proof. reflexivity. Qed.

Example rejected_for_negative_epsilon :
  loglikelihood_pairs_from_double_measure [0.75; 0.25]%float small_measure = Ok infinity.
Proof. reflexivity. Qed.

Example rejected_for_rising_parameters :
  loglikelihood_pairs_from_double_measure [0.25; 0.375]%float small_measure = Ok infinity.
Proof. reflexivity. Qed.

Example accepted_parameters :
  parameters_rejected small_measure [0.5; 0.25]%float = Ok false.
Proof. reflexivity. Qed.

(** ** Arrays of a known shape *)

Lemma has_dim_new {A : Type} (rows cols : Z) (z : A) :
  has_dim (memory_new_2dim rows cols z) rows cols.
Proof.
  unfold has_dim, memory_new_2dim. split; [apply length_replicate|].
  apply Forall_replicate, length_replicate.
Qed.

Lemma mget_in_range {A : Type} (m : matrix A) (rows cols a b : Z) :
  has_dim m rows cols -> 0 <= a < rows -> 0 <= b < cols ->
  exists x, mget m a b = Ok x.
Proof.
  intros [Hrows Hcols] Ha Hb. unfold mget.
  destruct (aget_in_range m a) as [row Hrow]; [lia|]. rewrite Hrow, bind_Ok.
  apply aget_in_range. apply aget_Ok in Hrow as [_ Hrow].
  rewrite (proj1 (Forall_lookup _ _) Hcols _ _ Hrow). lia.
Qed.

Lemma mset_in_range {A : Type} (m : matrix A) (rows cols a b : Z) (x : A) :
  has_dim m rows cols -> 0 <= a < rows -> 0 <= b < cols ->
  exists m', mset m a b x = Ok m' /\ has_dim m' rows cols.
Proof.
  intros [Hrows Hcols] Ha Hb. unfold mset.
  destruct (aget_in_range m a) as [row Hrow]; [lia|]. rewrite Hrow, bind_Ok.
  apply aget_Ok in Hrow as [_ Hrow].
  pose proof (proj1 (Forall_lookup _ _) Hcols _ _ Hrow) as Hlen. cbn in Hlen.
  rewrite aset_in_range by lia. rewrite bind_Ok, aset_in_range by lia.
  eexists. split; [reflexivity|]. split.
  - rewrite length_insert. assumption.
  - apply Forall_insert; [assumption|]. rewrite length_insert. assumption.
Qed.

Lemma mget_new {A : Type} (rows cols a b : Z) (z : A) :
  0 <= a < rows -> 0 <= b < cols -> mget (memory_new_2dim rows cols z) a b = Ok z.
Proof.
  intros Ha Hb. unfold mget, memory_new_2dim.
  assert (aget (replicate (Z.to_nat rows) (replicate (Z.to_nat cols) z)) a
          = Ok (replicate (Z.to_nat cols) z)) as ->.
  { apply aget_Ok. split; [lia|]. apply lookup_replicate. split; [reflexivity | lia]. }
  rewrite bind_Ok. apply aget_Ok. split; [lia|].
  apply lookup_replicate. split; [reflexivity | lia].
Qed.

(** ** Loops that run out of budget, and loops that do not *)

Lemma while_stuck {St : Type} (P : St -> Prop) (cond : St -> bool)
  (body : St -> outcome St) :
  (forall s, P s -> cond s = true /\ exists s', body s = Ok s' /\ P s') ->
  forall fuel s, P s -> while fuel cond body s = OutOfFuel.
Proof.
  intros Hstep fuel. induction fuel as [|fuel IH]; intros s Hs; [reflexivity|].
  cbn. destruct (Hstep s Hs) as (-> & s' & -> & Hs'). rewrite bind_Ok. by apply IH.
Qed.

Lemma while_false {St : Type} (fuel : nat) (cond : St -> bool)
  (body : St -> outcome St) (s : St) :
  cond s = false -> while (S fuel) cond body s = Ok s.
Proof. intros E. cbn. by rewrite E. Qed.



(** ** Reading an error model *)

Lemma in_matrix_true (e : ErrorStruct) (i j : Z) :
  in_matrix e i j = true <-> 0 <= i + j <= maxfamilysize e.
Proof. unfold in_matrix. rewrite andb_true_iff, !Z.leb_le. tauto. Qed.

Lemma in_matrix_set_errormatrix (e : ErrorStruct) (m : matrix float) (i j : Z) :
  in_matrix (set_errormatrix e m) i j = in_matrix e i j.
Proof. reflexivity. Qed.

Section Reading.
Context `{Libc} {build : Build}.

Lemma copy_previous_row_spec (e : ErrorStruct) (i0 j : Z) :
  square e -> 1 <= j <= maxfamilysize e -> 1 <= fromdiff e + j ->
  exists m',
    copy_previous_row (mkReader e i0 j)
      = Ok (mkReader (set_errormatrix e m') (Z.max (fromdiff e) (todiff e + 1)) j) /\
    square (set_errormatrix e m') /\
    (forall a b, b <> j -> mget m' a b = mget (errormatrix e) a b) /\
    (forall i, fromdiff e <= i <= todiff e -> i + j <= maxfamilysize e ->
       mget m' (i + j) j = mget (errormatrix e) (i + j - 1) (j - 1)).
Proof.
  intros Hsq Hj Hfrom. unfold copy_previous_row. cbn [rd_model rd_j].
  set (m := errormatrix e). set (n := maxfamilysize e) in *.
  destruct (for_range_total
    (fun i cur =>
       has_dim cur (n + 1) (n + 1) /\
       (forall a b, b <> j -> mget cur a b = mget m a b) /\
       (forall i', fromdiff e <= i' < i -> i' + j <= n ->
          mget cur (i' + j) j = mget m (i' + j - 1) (j - 1)))
    (fromdiff e) (todiff e)
    (fun i cur =>
       if in_matrix e i j then x ← mget cur (i + j - 1) (j - 1); mset cur (i + j) j x
       else Ok cur) m) as (m' & Hrun & Hdim & Hframe & Hcells).
  - split; [exact Hsq|]. split; [reflexivity | intros; lia].
  - intros i cur Hi (Hdim & Hframe & Hcells).
    destruct (in_matrix e i j) eqn:Ein.
    + apply in_matrix_true in Ein. fold n in Ein.
      destruct (mget_in_range cur (n + 1) (n + 1) (i + j - 1) (j - 1) Hdim) as [x Hx];
        [lia | lia |].
      rewrite Hx, bind_Ok.
      destruct (mset_in_range cur (n + 1) (n + 1) (i + j) j x Hdim) as (cur' & Hset & Hdim');
        [lia | lia |].
      exists cur'. split; [assumption|]. split; [assumption|]. split.
      * intros a b Hb. rewrite (mget_mset_other _ _ _ _ _ _ _ Hset) by lia. by apply Hframe.
      * intros i' Hi' Hle. destruct (Z.eq_dec i' i) as [-> | Hne].
        -- rewrite (mget_mset_same _ _ _ _ _ Hset). rewrite <- Hx. apply Hframe. lia.
        -- rewrite (mget_mset_other _ _ _ _ _ _ _ Hset) by lia. apply Hcells; lia.
    + exists cur. split; [reflexivity|]. split; [assumption|]. split; [assumption|].
      intros i' Hi' Hle. destruct (Z.eq_dec i' i) as [-> | Hne].
      * exfalso. assert (in_matrix e i j = true) by (apply in_matrix_true; fold n; lia).
        congruence.
      * apply Hcells; lia.
  - exists m'. rewrite Hrun, bind_Ok. split; [reflexivity|]. split; [exact Hdim|].
    split; [assumption|]. intros i Hi Hle. apply Hcells; lia.
Qed.

Lemma store_row_spec (e : ErrorStruct) (data : list string) (i0 j : Z) :
  square e -> 0 <= j <= maxfamilysize e ->
  Z.of_nat (length data) = todiff e - fromdiff e + 2 ->
  exists m',
    store_row data j (mkReader e i0 j)
      = Ok (mkReader (set_errormatrix e m') (Z.max (fromdiff e) (todiff e + 1)) j) /\
    square (set_errormatrix e m') /\
    (forall a b, b <> j -> mget m' a b = mget (errormatrix e) a b) /\
    (forall i tok, fromdiff e <= i <= todiff e -> 0 <= i + j <= maxfamilysize e ->
       data !! Z.to_nat (i - fromdiff e + 1) = Some tok ->
       mget m' (i + j) j = Ok (atof tok)).
Proof.
  intros Hsq Hj Hlen. unfold store_row. cbn [rd_model rd_j].
  set (m := errormatrix e). set (n := maxfamilysize e) in *.
  destruct (for_range_total
    (fun i (mk : matrix float * Z) =>
       snd mk = i - fromdiff e + 1 /\
       has_dim (fst mk) (n + 1) (n + 1) /\
       (forall a b, b <> j -> mget (fst mk) a b = mget m a b) /\
       (forall i' tok, fromdiff e <= i' < i -> 0 <= i' + j <= n ->
          data !! Z.to_nat (i' - fromdiff e + 1) = Some tok ->
          mget (fst mk) (i' + j) j = Ok (atof tok)))
    (fromdiff e) (todiff e)
    (fun i (mk : matrix float * Z) =>
       let (m, k) := mk in
       if NDEBUG || (j =? j) then
         m' ← (if in_matrix e i j then
                 tok ← aget data k; mset m (i + j) j (atof tok)
               else Ok m);
         Ok (m', k + 1)
       else AssertFail) (m, 1)) as ([m' k'] & Hrun & Hk & Hdim & Hframe & Hcells).
  - cbn. split; [lia|]. split; [exact Hsq|]. split; [reflexivity | intros; lia].
  - intros i [cur k] Hi (Hk & Hdim & Hframe & Hcells). cbn [fst snd] in *.
    rewrite Z.eqb_refl, orb_true_r. destruct (in_matrix e i j) eqn:Ein.
    + apply in_matrix_true in Ein. fold n in Ein.
      destruct (aget_in_range data k) as [tok Htok]; [lia|].
      rewrite Htok, bind_Ok.
      destruct (mset_in_range cur (n + 1) (n + 1) (i + j) j (atof tok) Hdim)
        as (cur' & Hset & Hdim'); [lia | lia |].
      rewrite Hset, bind_Ok. eexists. split; [reflexivity|]. cbn [fst snd].
      split; [lia|]. split; [assumption|]. split.
      * intros a b Hb. rewrite (mget_mset_other _ _ _ _ _ _ _ Hset) by lia. by apply Hframe.
      * intros i' tok' Hi' Hin' Htok'. destruct (Z.eq_dec i' i) as [-> | Hne].
        -- rewrite (mget_mset_same _ _ _ _ _ Hset). apply aget_Ok in Htok as [_ Htok].
           rewrite Hk in Htok. congruence.
        -- rewrite (mget_mset_other _ _ _ _ _ _ _ Hset) by lia. apply Hcells; [lia | lia | assumption].
    + rewrite bind_Ok. eexists. split; [reflexivity|]. cbn [fst snd].
      split; [lia|]. split; [assumption|]. split; [assumption|].
      intros i' tok' Hi' Hin' Htok'. destruct (Z.eq_dec i' i) as [-> | Hne].
      * exfalso. assert (in_matrix e i j = true) by (apply in_matrix_true; fold n; lia).
        congruence.
      * apply Hcells; [lia | lia | assumption].
  - exists m'. rewrite Hrun, bind_Ok. cbn [fst snd] in *.
    split; [reflexivity|]. split; [exact Hdim|]. split; [assumption|].
    intros i tok Hi Hin Htok. apply (Hcells i tok); [lia | lia | assumption].
Qed.

End Reading.

Section ReadingRows.
Context `{Libc} {build : Build}.

Lemma read_row_spec (fuel : nat) (line : string) (e : ErrorStruct) (i0 j : Z) :
  square e -> 0 <= j <= maxfamilysize e ->
  labelled_row (fromdiff e) (todiff e) j line ->
  exists m' i',
    read_row (S fuel) line (mkReader e i0 j)
      = Ok (mkReader (set_errormatrix e m') i' (j + 1)) /\
    square (set_errormatrix e m') /\
    (forall a b, b <> j -> mget m' a b = mget (errormatrix e) a b) /\
    (forall i tok, fromdiff e <= i <= todiff e -> 0 <= i + j <= maxfamilysize e ->
       cell_text (fromdiff e) line i = Some tok -> mget m' (i + j) j = Ok (atof tok)).
Proof.
  intros Hsq Hj (Hlen & label & Hlabel & Hatoi). unfold read_row.
  assert (aget (split line " ") 0 = Ok label) as -> by (by apply aget_Ok).
  rewrite bind_Ok. cbn [rd_model]. rewrite Hatoi, Hlen, Z.eqb_refl.
  unfold fill_before_row. rewrite while_false.
  2:{ cbn [rd_j]. rewrite Z.ltb_irrefl. apply andb_false_r. }
  rewrite bind_Ok.
  destruct (store_row_spec e (split line " ") i0 j Hsq Hj Hlen)
    as (m' & Hrun & Hsq' & Hframe & Hcells).
  rewrite Hrun, bind_Ok. cbn [rd_model rd_i rd_j].
  exists m', (Z.max (fromdiff e) (todiff e + 1)).
  split; [reflexivity|]. split; [exact Hsq'|]. split; [exact Hframe|]. exact Hcells.
Qed.

Lemma read_rows_spec (fuel : nat) (rows : list string) :
  forall (e : ErrorStruct) (i0 j0 : Z),
  square e -> 0 <= j0 -> j0 + Z.of_nat (length rows) <= maxfamilysize e + 1 ->
  rows_in_order (fromdiff e) (todiff e) j0 rows ->
  exists m' i',
    read_rows (S fuel) rows (mkReader e i0 j0)
      = Ok (mkReader (set_errormatrix e m') i' (j0 + Z.of_nat (length rows))) /\
    square (set_errormatrix e m') /\
    (forall a b, b < j0 -> mget m' a b = mget (errormatrix e) a b) /\
    (forall j line i tok, rows !! j = Some line ->
       fromdiff e <= i <= todiff e ->
       0 <= i + (j0 + Z.of_nat j) <= maxfamilysize e ->
       cell_text (fromdiff e) line i = Some tok ->
       mget m' (i + (j0 + Z.of_nat j)) (j0 + Z.of_nat j) = Ok (atof tok)).
Proof.
  induction rows as [|line rows IH]; intros e i0 j0 Hsq Hj0 Hfit Horder.
  - exists (errormatrix e), i0. cbn. rewrite Z.add_0_r.
    split; [by destruct e|]. split; [exact Hsq|]. split; [reflexivity|].
    intros j line i tok Hl. discriminate.
  - cbn [length] in Hfit.
    destruct (read_row_spec fuel line e i0 j0 Hsq) as (m1 & i1 & Hrun1 & Hsq1 & Hframe1 & Hcells1);
      [lia | |].
    { specialize (Horder 0%nat line eq_refl). by rewrite Z.add_0_r in Horder. }
    destruct (IH (set_errormatrix e m1) i1 (j0 + 1) Hsq1)
      as (m2 & i2 & Hrun2 & Hsq2 & Hframe2 & Hcells2); [lia | cbn; lia | |].
    { intros j l Hl. specialize (Horder (S j) l Hl).
      replace (j0 + 1 + Z.of_nat j) with (j0 + Z.of_nat (S j)) by lia. exact Horder. }
    exists m2, i2. cbn [read_rows]. rewrite Hrun1, bind_Ok, Hrun2.
    split; [f_equal; f_equal; cbn [length]; lia|]. split; [exact Hsq2|]. split.
    + intros a b Hb. rewrite Hframe2 by lia. apply Hframe1. lia.
    + intros [|j] l i tok Hl Hi Hin Htok.
      * injection Hl as <-. rewrite Z.add_0_r in *. rewrite Hframe2 by lia.
        by apply Hcells1.
      * replace (j0 + Z.of_nat (S j)) with (j0 + 1 + Z.of_nat j) in * by lia.
        by apply (Hcells2 j l).
Qed.


End ReadingRows.


(** ** Writing an error model *)





Section Writing.
Context `{Libc}.






End Writing.

Section ReadThenWrite.
Context `{Libc} {build : Build}.

Lemma vector_at_lookup {A : Type} (v : list A) (i : Z) (x : A) :
  0 <= i -> v !! Z.to_nat i = Some x -> vector_at v i = Ok x.
Proof.
  intros Hi Hx. unfold vector_at. destruct (Z.ltb_spec i 0); [lia|]. by rewrite Hx.
Qed.


End ReadThenWrite.



(** With assertions, reading the text back stops at [assert(j == col1)] of
    row 1.  Without, row 1 is stored as row 0, and the loop for the rows
    left out in front of row 2 reads [errormatrix[-1]]. *)
Example read_back_stops_at_assertion :
  operator_in (build := debug_build) 10 complete_model_written unread = AssertFail.
Proof. vm_compute. reflexivity. Qed.

Example read_back_in_the_release_build :
  operator_in (build := release_build) 10 complete_model_written unread = Undefined.
Proof. vm_compute. reflexivity. Qed.


Example short_file_read_and_written :
  (e ← operator_in (build := release_build) 10 short_file unread; operator_out e) =
  Ok [ "maxcnt:3"; "cntdiff -1 0 1"; " 0 #nan 0.8 0.2"; "1 0.2 0.6 0.2";
       "2 0.2 0.6 0.2"; "3 0.2 0.6 #nan" ]%string.
Proof. vm_compute. reflexivity. Qed.

(** Two significant digits do not give a value back: 0.1875 is written as
    0.19. *)
Example two_digits_lose_the_value :
  put_double 0.1875%float = "0.19"%string /\ atof "0.19" <> 0.1875%float.
Proof. split; [vm_compute; reflexivity | vm_compute; discriminate]. Qed.

(** ** A row left out before a later row *)

Lemma bind_assoc {A B C : Type} (x : outcome A) (f : A -> outcome B)
  (g : B -> outcome C) :
  (x ≫= f) ≫= g = x ≫= (fun a => f a ≫= g).
Proof. by destruct x. Qed.

Section Gap.
Context `{Libc} {build : Build}.

Lemma read_rows_app (fuel : nat) (l1 l2 : list string) (r : reader) :
  read_rows fuel (l1 ++ l2) r = r' ← read_rows fuel l1 r; read_rows fuel l2 r'.
Proof.
  revert r. induction l1 as [|line l1 IH]; intros r; [reflexivity|].
  cbn [app read_rows]. rewrite bind_assoc.
  destruct (read_row fuel line r); try reflexivity. rewrite !bind_Ok. apply IH.
Qed.

Lemma fill_before_row_stuck (fuel : nat) (col1 : Z) (e : ErrorStruct) (i j : Z) :
  square e -> 1 <= j <= maxfamilysize e -> 1 <= fromdiff e + j -> j < col1 ->
  fill_before_row fuel col1 (mkReader e i j) = OutOfFuel.
Proof.
  intros Hsq Hj Hfrom Hlt. unfold fill_before_row.
  apply (while_stuck
           (fun r => rd_j r = j /\ square (rd_model r) /\
                     maxfamilysize (rd_model r) = maxfamilysize e /\
                     fromdiff (rd_model r) = fromdiff e)).
  - intros [e' i' j'] (Ej & Hsq' & Emax & Efrom). cbn [rd_j rd_model] in *. subst j'.
    split.
    + apply andb_true_iff. split; [apply negb_true_iff, Z.eqb_neq; lia | apply Z.ltb_lt; lia].
    + destruct (copy_previous_row_spec e' i' j Hsq') as (m' & Hrun & Hsq'' & _);
        [lia | lia |].
      rewrite Hrun, bind_Ok. eexists. split; [reflexivity|]. cbn [rd_j rd_model].
      split; [reflexivity|]. split; [exact Hsq''|]. split; assumption.
  - cbn [rd_j rd_model]. split; [reflexivity|]. split; [exact Hsq|]. split; reflexivity.
Qed.

(** The reader does not return from a file in which, after the rows 0 to
    [k], a row with a label above [k + 1] follows: the loop that is to copy
    the previous row into the rows left out advances [i], not [j]. *)
Lemma reading_past_a_gap_never_returns (h1 h2 line : string)
  (rows rest : list string) (e0 : ErrorStruct) (n from to c : Z) :
  header_maxcnt h1 n -> header_cntdiff h2 from to ->
  rows_in_order from to 0 rows ->
  1 <= Z.of_nat (length rows) <= Z.max (maxfamilysize e0) n ->
  1 <= from + Z.of_nat (length rows) ->
  labelled_row from to c line -> Z.of_nat (length rows) < c ->
  forall fuel, operator_in fuel (h1 :: h2 :: rows ++ line :: rest) e0 = OutOfFuel.
Proof.
  intros (tok0 & tok1 & Htok0 & Htok1 & Hn) (a & b & Ha & Hb & Hfrom & Hto)
    Horder Hrows Hsafe (Hlen & label & Hlabel & Hatoi) Hgap fuel.
  unfold operator_in.
  rewrite (vector_at_lookup _ 0 tok0) by (lia || exact Htok0). rewrite bind_Ok.
  assert (aget (split tok0 ":") 1 = Ok tok1) as -> by (by apply aget_Ok).
  rewrite bind_Ok, Hn. unfold read_cntdiff.
  rewrite (vector_at_lookup _ 1 a) by (lia || exact Ha). rewrite bind_Ok.
  assert (vector_at (split h2 " ") (Z.of_nat (length (split h2 " ")) - 1) = Ok b) as ->.
  { apply lookup_lt_Some in Ha. apply vector_at_lookup; [lia|].
    by replace (Z.to_nat (Z.of_nat (length (split h2 " ")) - 1))
      with (length (split h2 " ") - 1)%nat by lia. }
  rewrite !bind_Ok, Hfrom, Hto.
  set (nmax := Z.max (maxfamilysize e0) n) in *.
  set (e1 := set_errormatrix (set_diffs (set_maxfamilysize e0 nmax) from to)
               (memory_new_2dim (nmax + 1) (nmax + 1) 0%float)).
  assert (Hsq1 : square e1) by apply has_dim_new.
  cbn [maxfamilysize set_maxfamilysize set_diffs set_errormatrix] in *.
  change (set_errormatrix
            (set_diffs (set_maxfamilysize e0 nmax) from to)
            (memory_new_2dim (nmax + 1) (nmax + 1) 0%float)) with e1.
  destruct fuel as [|fuel].
  - destruct rows as [|row rows]; [cbn in Hrows; lia|].
    destruct (Horder 0%nat row eq_refl) as (Hlen0 & label0 & Hlabel0 & Hatoi0).
    cbn [app read_rows]. unfold read_row.
    assert (aget (split row " ") 0 = Ok label0) as -> by (by apply aget_Ok).
    rewrite bind_Ok. cbn [rd_model]. rewrite Hlen0.
    change (todiff e1) with to. change (fromdiff e1) with from.
    rewrite Z.eqb_refl. reflexivity.
  - rewrite read_rows_app.
    destruct (read_rows_spec fuel rows e1 0 0 Hsq1)
      as (m2 & i2 & Hrun2 & Hsq2 & _); [lia | cbn; lia | exact Horder |].
    rewrite Hrun2, bind_Ok. cbn [read_rows]. unfold read_row.
    assert (aget (split line " ") 0 = Ok label) as -> by (by apply aget_Ok).
    rewrite bind_Ok. cbn [rd_model]. rewrite Hlen.
    change (todiff (set_errormatrix e1 m2)) with to.
    change (fromdiff (set_errormatrix e1 m2)) with from.
    rewrite Z.eqb_refl, Hatoi.
    rewrite fill_before_row_stuck; [reflexivity | exact Hsq2 | cbn; lia | cbn; lia | lia].
Qed.

End Gap.

Example gap_file_never_read (build : Build) (fuel : nat) :
  operator_in fuel gap_file unread = OutOfFuel.
Proof.
  apply (reading_past_a_gap_never_returns (H := reference_libc)
           "maxcnt:3" "cntdiff -1 0 1" "3 0.2 0.8 0.0"
           [ "0 0.0 0.8 0.2"; "1 0.2 0.6 0.2" ]%string [] unread 3 (-1) 1 3).
  - exists "maxcnt:3"%string, "3"%string. repeat split.
  - exists "-1"%string, "1"%string. repeat split.
  - intros [|[|j]] l Hl; try discriminate; injection Hl as <-;
      (split; [reflexivity|]); eexists; split; reflexivity.
  - cbn. lia.
  - cbn. lia.
  - split; [reflexivity|]. eexists; split; reflexivity.
  - cbn. lia.
Qed.

(** ** The root likelihoods of the small tree *)

(** A family with a count above the range is refused. *)
Lemma count_out_of_range :
  compute_tree_likelihoods 7 0 7 (small_tree 7 5 10 2 6) = inl CountOutOfRange.
Proof. vm_compute. reflexivity. Qed.

(** A node without matrix is refused. *)
Lemma matrix_missing :
  compute_tree_likelihoods 7 0 7
    (Internal 0%Q None [Leaf "A" 1%Q None 5; Leaf "B" 1%Q None 3]) = inl MatrixMissing.
Proof. vm_compute. reflexivity. Qed.

(** C3, as the specification states it: for the family with the counts
    (5, 10, 2, 6), over the sizes 0 to 10, the root vector is far below the
    listed values: not one of the values at the root sizes 1 to 4 is within
    the tolerance, the one at size 1 is below 1e-25. *)
Lemma likelihoods_of_5_10_2_6_are_not_the_listed :
  match compute_tree_likelihoods 10 0 10 (small_tree 10 5 10 2 6) with
  | inr l =>
      begins_with l listed_likelihoods = false /\
      all_off l listed_likelihoods = true /\
      Qle_bool (nth 1 l 1%Q) (1 # 10000000000000000000000000)%Q = true
  | inl _ => False
  end.
Proof. vm_compute. repeat split; reflexivity. Qed.

(** C3, amended: for the tree ((A:1,B:1):1,(C:1,D:1):1) with the birth rate
    0.01 and the death rate -1 at every node and the family whose counts at
    (A, B, C, D) are (5, 3, 2, 4), over the sizes 0 to 7, the root vector has
    8 values and begins 0, 1.42e-13, 2.88e-9, 4.12e-7, 6.74e-7, each within
    1e-13 or a tenth of the value. *)
Theorem likelihoods_of_5_3_2_4_are_the_listed :
  match compute_tree_likelihoods 7 0 7 (small_tree 7 5 3 2 4) with
  | inr l =>
      length l = 8%nat /\ Qeq (nth 0 l 1%Q) 0%Q /\ begins_with l listed_likelihoods = true
  | inl _ => False
  end.
Proof. vm_compute. repeat split; reflexivity. Qed.

(** ** The binomial coefficients of the cache *)

Lemma nth_app_zero (row : list Z) (k : nat) : nth k (row ++ [0]) 0 = nth k row 0.
Proof.
  revert k. induction row as [|x row IH]; intros [|k]; simpl; auto.
  destruct k; reflexivity.
Qed.

Lemma nth_zip_with_add (l1 l2 : list Z) (k : nat) :
  length l1 = length l2 ->
  nth k (zip_with Z.add l1 l2) 0 = nth k l1 0 + nth k l2 0.
Proof.
  revert l2 k. induction l1 as [|x l1 IH]; intros [|y l2] k H; simpl in H; try discriminate.
  - destruct k; reflexivity.
  - destruct k; simpl; [reflexivity|]. apply IH. congruence.
Qed.

Lemma pascal_next_length (row : list Z) : length (pascal_next row) = S (length row).
Proof.
  unfold pascal_next.
  rewrite length_zip_with_l_eq; [reflexivity | rewrite length_app; simpl; lia].
Qed.

Lemma pascal_next_first (row : list Z) : nth 0 (pascal_next row) 0 = nth 0 row 0.
Proof.
  unfold pascal_next. rewrite nth_zip_with_add by (rewrite length_app; simpl; lia).
  rewrite nth_app_zero. reflexivity.
Qed.

Lemma pascal_next_step (row : list Z) (k : nat) :
  nth (S k) (pascal_next row) 0 = nth k row 0 + nth (S k) row 0.
Proof.
  unfold pascal_next. rewrite nth_zip_with_add by (rewrite length_app; simpl; lia).
  rewrite nth_app_zero. reflexivity.
Qed.

Lemma pascal_row_length (n : nat) : length (Nat.iter n pascal_next [1]) = S n.
Proof.
  induction n as [|n IH]; [reflexivity|].
  simpl. rewrite pascal_next_length, IH. reflexivity.
Qed.

Lemma binomial_0_r (n : nat) : binomial n 0 = 1.
Proof.
  unfold binomial. induction n as [|n IH]; [reflexivity|].
  simpl. rewrite pascal_next_first. exact IH.
Qed.

Lemma binomial_pascal (n k : nat) :
  binomial (S n) (S k) = binomial n k + binomial n (S k).
Proof. unfold binomial. simpl. apply pascal_next_step. Qed.

Lemma binomial_above (n k : nat) : (n < k)%nat -> binomial n k = 0.
Proof.
  intros H. unfold binomial. apply nth_overflow. rewrite pascal_row_length. lia.
Qed.

Lemma binomial_diag (n : nat) : binomial n n = 1.
Proof.
  induction n as [|n IH]; [reflexivity|].
  rewrite binomial_pascal, IH, binomial_above by lia. reflexivity.
Qed.

(** The table holds the coefficients computed on demand. *)
Lemma pascal_rows_lookup (n i : nat) (row : list Z) :
  (i < n)%nat -> pascal_rows n row !! i = Some (Nat.iter i pascal_next row).
Proof.
  revert i row. induction n as [|n IH]; intros i row H; [lia|].
  destruct i as [|i]; [reflexivity|].
  simpl. rewrite IH by lia. f_equal.
  clear. induction i as [|i IH]; [reflexivity|]. simpl. rewrite IH. reflexivity.
Qed.

Lemma pascal_rows_length (n : nat) (row : list Z) : length (pascal_rows n row) = n.
Proof. revert row. induction n as [|n IH]; intros row; simpl; [|rewrite IH]; reflexivity. Qed.

Lemma choose_binomial (size n k : nat) :
  choose (chooseln_cache_init size) n k = binomial n k.
Proof.
  unfold choose, chooseln_cache_init.
  destruct (Nat.lt_ge_cases n size) as [H|H].
  - rewrite pascal_rows_lookup by exact H. reflexivity.
  - rewrite (lookup_ge_None_2 _ n) by (rewrite pascal_rows_length; lia). reflexivity.
Qed.

(** ** The closed form as a product of series *)

Local Open Scope R_scope.

Lemma sum_f_R0_truncate (f : nat -> R) (m n : nat) :
  (m <= n)%nat -> (forall k, (m < k <= n)%nat -> f k = 0) ->
  sum_f_R0 f n = sum_f_R0 f m.
Proof.
  induction n as [|n IH]; intros Hm Hf.
  - replace m with 0%nat by lia. reflexivity.
  - destruct (Nat.eq_dec m (S n)) as [->|Hne]; [reflexivity|].
    simpl. rewrite Hf by lia. rewrite IH; [lra | lia | intros k Hk; apply Hf; lia].
Qed.

(** A factor [b'] with [b' = b + beta x b'] as series. *)
Lemma series_product_shift_right (a b b' : nat -> R) (beta : R) (j : nat) :
  b' 0%nat = b 0%nat ->
  (forall m, b' (S m) = b (S m) + beta * b' m) ->
  series_product a b' (S j) = series_product a b (S j) + beta * series_product a b' j.
Proof.
  intros H0 HS. unfold series_product.
  rewrite !tech5, Nat.sub_diag, H0.
  rewrite (sum_eq (fun k => a k * b' (S j - k)%nat)
                  (fun k => a k * b (S j - k)%nat + a k * b' (j - k)%nat * beta) j).
  - rewrite plus_sum, <- scal_sum. ring.
  - intros k Hk. replace (S j - k)%nat with (S (j - k)) by lia. rewrite HS. ring.
Qed.

(** A factor [a'] with [a' = (alpha + gamma x) a] as series. *)
Lemma series_product_shift_left (a a' b : nat -> R) (alpha gamma : R) (j : nat) :
  a' 0%nat = alpha * a 0%nat ->
  (forall k, a' (S k) = alpha * a (S k) + gamma * a k) ->
  series_product a' b (S j) =
  alpha * series_product a b (S j) + gamma * series_product a b j.
Proof.
  intros H0 HS. unfold series_product.
  rewrite (decomp_sum (fun k => a' k * b (S j - k)%nat) (S j)) by lia.
  rewrite (decomp_sum (fun k => a k * b (S j - k)%nat) (S j)) by lia.
  cbn [pred Nat.sub]. rewrite H0.
  rewrite (sum_eq (fun k => a' (S k) * b (j - k)%nat)
                  (fun k => a (S k) * b (j - k)%nat * alpha + a k * b (j - k)%nat * gamma) j).
  - rewrite plus_sum, <- !scal_sum. ring.
  - intros k Hk. rewrite HS. ring.
Qed.

Section Series.

Variables alpha beta : R.

Local Abbreviation A := (binomial_part alpha (1 - alpha - beta)).
Local Abbreviation B := (negative_binomial_part beta).
Local Abbreviation T i := (series_product (A i) (B i)).

Lemma binomial_part_0 (i : nat) : A (S i) 0%nat = alpha * A i 0%nat.
Proof.
  unfold binomial_part. rewrite !binomial_0_r, !Nat.sub_0_r.
  cbn [pow]. ring.
Qed.

Lemma binomial_part_step (i k : nat) :
  A (S i) (S k) = alpha * A i (S k) + (1 - alpha - beta) * A i k.
Proof.
  unfold binomial_part. rewrite binomial_pascal, plus_IZR.
  change (S i - S k)%nat with (i - k)%nat.
  destruct (le_lt_dec (S k) i) as [H|H].
  - replace (i - k)%nat with (S (i - S k)) by lia. cbn [pow]. ring.
  - rewrite (binomial_above i (S k)) by lia. cbn [pow]. ring.
Qed.

Lemma negative_binomial_part_0 (i : nat) : (1 <= i)%nat -> B i 0%nat = 1.
Proof.
  intros H. unfold negative_binomial_part.
  replace (i + 0 - 1)%nat with (i - 1)%nat by lia.
  rewrite binomial_diag. cbn [pow]. ring.
Qed.

Lemma negative_binomial_part_step (i m : nat) :
  (1 <= i)%nat -> B (S i) (S m) = B i (S m) + beta * B (S i) m.
Proof.
  intros H. unfold negative_binomial_part.
  destruct i as [|i]; [lia|].
  replace (S (S i) + S m - 1)%nat with (S (i + S m)) by lia.
  replace (S (S i) - 1)%nat with (S i) by lia.
  replace (S i + S m - 1)%nat with (i + S m)%nat by lia.
  replace (S i - 1)%nat with i by lia.
  replace (S (S i) + m - 1)%nat with (i + S m)%nat by lia.
  rewrite binomial_pascal, plus_IZR. cbn [pow]. ring.
Qed.

(** The recurrence of the rows of the kernel. *)
Lemma series_product_0 (i : nat) : (1 <= i)%nat -> T (S i) 0%nat = alpha * T i 0%nat.
Proof.
  intros H. unfold series_product. cbn [sum_f_R0 Nat.sub].
  rewrite binomial_part_0, !negative_binomial_part_0 by lia. ring.
Qed.

Lemma series_product_step (i j : nat) :
  (1 <= i)%nat ->
  T (S i) (S j) = beta * T (S i) j + alpha * T i (S j) + (1 - alpha - beta) * T i j.
Proof.
  intros H.
  rewrite (series_product_shift_right (A (S i)) (B i) (B (S i)) beta j).
  - rewrite (series_product_shift_left (A i) (A (S i)) (B i) alpha (1 - alpha - beta) j).
    + ring.
    + apply binomial_part_0.
    + apply binomial_part_step.
  - rewrite !negative_binomial_part_0 by lia. reflexivity.
  - intros m. apply negative_binomial_part_step. exact H.
Qed.

(** The row of one individual. *)
Lemma series_product_one_0 : T 1%nat 0%nat = alpha.
Proof.
  unfold series_product, binomial_part, negative_binomial_part.
  cbn [sum_f_R0 Nat.sub Nat.add pow].
  change (binomial 1 0) with 1%Z. change (binomial 0 0) with 1%Z. ring.
Qed.

Lemma series_product_one_S (j : nat) :
  T 1%nat (S j) = beta ^ j * ((1 - alpha) * (1 - beta)).
Proof.
  unfold series_product.
  rewrite (sum_f_R0_truncate _ 1 (S j)); [|lia|].
  2: { intros k Hk. unfold binomial_part. rewrite binomial_above by lia. ring. }
  cbn [sum_f_R0]. unfold binomial_part, negative_binomial_part.
  replace (1 + (S j - 0) - 1)%nat with (S j) by lia.
  replace (1 + (S j - 1) - 1)%nat with j by lia.
  cbn [Nat.sub pow]. rewrite !binomial_0_r.
  change (binomial 1 1) with 1%Z. rewrite Nat.sub_0_r. ring.
Qed.

End Series.

Local Close Scope R_scope.

(** ** The rows of the kernel are sub-probability vectors *)

Local Open Scope R_scope.


Section Rows.

Variables alpha beta : R.
Hypothesis alpha_range : 0 <= alpha <= 1.
Hypothesis beta_range : 0 <= beta <= 1.

Local Abbreviation T i :=
  (series_product (binomial_part alpha (1 - alpha - beta) i)
                  (negative_binomial_part beta i)).



End Rows.

(** The entries of the kernel are the products of the two series. *)
Lemma transition_series_product (size : nat) (alpha beta : R) (i j : nat) :
  transition (chooseln_cache_init size) alpha beta (S i) j =
  series_product (binomial_part alpha (1 - alpha - beta) (S i))
                 (negative_binomial_part beta (S i)) j.
Proof.
  unfold transition, series_product.
  assert (E : forall k, (k <= j)%nat ->
            kernel_term (chooseln_cache_init size) alpha beta (S i) j k =
            binomial_part alpha (1 - alpha - beta) (S i) k *
            negative_binomial_part beta (S i) (j - k)).
  { intros k Hk. unfold kernel_term, binomial_part, negative_binomial_part.
    rewrite !choose_binomial, mult_IZR.
    replace (S i + j - k - 1)%nat with (S i + (j - k) - 1)%nat by lia. ring. }
  destruct (le_lt_dec j (S i)) as [H|H].
  - rewrite Nat.min_r by exact H. apply sum_eq. exact E.
  - rewrite Nat.min_l by lia.
    rewrite (sum_f_R0_truncate
               (fun k => binomial_part alpha (1 - alpha - beta) (S i) k *
                         negative_binomial_part beta (S i) (j - k)) (S i) j);
      [|lia|].
    + apply sum_eq. intros k Hk. apply E. lia.
    + intros k Hk. unfold binomial_part. rewrite binomial_above by lia. ring.
Qed.



Local Close Scope R_scope.

(** ** The invariants of the transition matrix *)

Local Open Scope R_scope.





(** Reading a matrix given by its entries. *)
Lemma nth_map_seq {A : Type} (f : nat -> A) (n i : nat) (d : A) :
  (i < n)%nat -> nth i (map f (seq 0 n)) d = f i.
Proof.
  intros H. rewrite (nth_indep _ d (f 0%nat)) by (rewrite length_map, length_seq; exact H).
  rewrite (map_nth f (seq 0 n) 0%nat i), seq_nth by exact H. reflexivity.
Qed.

Lemma fold_right_Rplus_acc (l : list R) (a : R) :
  fold_right Rplus a l = fold_right Rplus 0 l + a.
Proof. induction l as [|x l IH]; simpl; [ring | rewrite IH; ring]. Qed.

Lemma fold_right_map_seq (f : nat -> R) (n : nat) :
  fold_right Rplus 0 (map f (seq 0 (S n))) = sum_f_R0 f n.
Proof.
  induction n as [|n IH]; [simpl; ring|].
  rewrite seq_S, map_app, fold_right_app. cbn [map fold_right Nat.add sum_f_R0].
  rewrite fold_right_Rplus_acc, IH. ring.
Qed.

Lemma rate_of_entries (f : nat -> nat -> R) (n i j : nat) :
  (i <= n)%nat -> (j <= n)%nat ->
  rate (map (fun i => map (fun j => f i j) (seq 0 (S n))) (seq 0 (S n))) i j = f i j.
Proof.
  intros Hi Hj. unfold rate.
  rewrite (nth_map_seq (fun i => map (fun j => f i j) (seq 0 (S n)))) by lia.
  apply nth_map_seq. lia.
Qed.

Lemma row_sum_of_entries (f : nat -> nat -> R) (n i : nat) :
  (i <= n)%nat ->
  row_sum (map (fun i => map (fun j => f i j) (seq 0 (S n))) (seq 0 (S n))) i =
  sum_f_R0 (f i) n.
Proof.
  intros Hi. unfold row_sum.
  rewrite (nth_map_seq (fun i => map (fun j => f i j) (seq 0 (S n)))) by lia.
  apply fold_right_map_seq.
Qed.




(** With the sizes 0 and 1 alone, for the branch length 1, the birth rate
    0.01 and the death rate -1, the row of size 1 sums to 1 - 100/10201. *)
Lemma row_sum_of_two_sizes :
  ~ exists threshold : R,
      threshold <= 1 /\
      Rabs (row_sum (compute_birthdeath_rates threshold (chooseln_cache_init 3)
                       1 (1 / 100) (-1) 1) 1 - 1) <= 1 / 1000000000.
Proof.
  intros (threshold & Hth & H).
  unfold compute_birthdeath_rates in H.
  destruct (Rlt_dec 1 threshold) as [L|_]; [lra|].
  rewrite row_sum_of_entries in H by lia.
  cbn [sum_f_R0] in H.
  rewrite !transition_series_product in H.
  rewrite series_product_one_0, series_product_one_S in H.
  unfold birthdeath_alpha_beta in H.
  destruct (Req_dec_T (-1) (-1)) as [_|N]; [|lra].
  destruct (Req_dec_T (1 / 100) (1 / 100)) as [_|N]; [|lra].
  cbn [fst snd pow] in H.
  replace (1 / 100 * 1 / (1 + 1 / 100 * 1)) with (1 / 101) in H by field.
  unfold Rabs in H. destruct (Rcase_abs _) in H; lra.
Qed.

Local Close Scope R_scope.

(** ** A branch of length zero *)

Local Open Scope R_scope.

Lemma series_product_at_zero (i j : nat) :
  series_product (binomial_part 0 (1 - 0 - 0) (S i))
                 (negative_binomial_part 0 (S i)) j =
  if (S i =? j)%nat then 1 else 0.
Proof.
  revert j. induction i as [|i IH]; intros j.
  - destruct j as [|j]; [rewrite series_product_one_0; reflexivity|].
    rewrite series_product_one_S.
    destruct j as [|j]; cbn [pow Nat.eqb]; ring.
  - destruct j as [|j].
    + rewrite series_product_0 by lia. cbn [Nat.eqb]. ring.
    + rewrite series_product_step by lia. rewrite (IH j), (IH (S j)).
      change (S (S i) =? S j)%nat with (S i =? j)%nat.
      destruct (S i =? j)%nat; ring.
Qed.

Lemma birthdeath_alpha_beta_at_zero (lambda mu : R) :
  birthdeath_alpha_beta 0 lambda mu = (0, 0).
Proof.
  unfold birthdeath_alpha_beta.
  destruct (Req_dec_T lambda (if Req_dec_T mu (-1) then lambda else mu)).
  - f_equal; unfold Rdiv; ring.
  - rewrite Rmult_0_r, exp_0. f_equal; unfold Rdiv; ring.
Qed.

(** The edge case of section 4.2: a branch of length 0 has the identity
    matrix, whatever the rates and the threshold. *)
Lemma zero_branch_identity (threshold : R) (size max_size : nat) (lambda mu : R)
  (i j : nat) :
  (i <= max_size)%nat -> (j <= max_size)%nat ->
  rate (compute_birthdeath_rates threshold (chooseln_cache_init size)
          0 lambda mu max_size) i j =
  if (i =? j)%nat then 1 else 0.
Proof.
  intros Hi Hj. unfold compute_birthdeath_rates, identity_rates.
  destruct (Rlt_dec 0 threshold) as [_|_]; rewrite rate_of_entries by assumption;
    [reflexivity|].
  rewrite birthdeath_alpha_beta_at_zero. cbn [fst snd].
  destruct i as [|i].
  - cbn [transition]. destruct j; reflexivity.
  - rewrite transition_series_product. apply series_product_at_zero.
Qed.

Local Close Scope R_scope.

(** ** The kernel over the rationals is the kernel over the reals *)

Local Open Scope R_scope.

Lemma Q2R_power (q : Q) (n : nat) : Q2R (q ^ Z.of_nat n) = Q2R q ^ n.
Proof.
  induction n as [|n IH]; [apply RMicromega.Q2R_1|].
  rewrite Nat2Z.inj_succ. unfold Z.succ.
  rewrite (Qeq_eqR _ _ (Qpower_plus' q (Z.of_nat n) 1 ltac:(lia))).
  rewrite Q2R_mult, IH. cbn [pow]. rewrite (Qeq_eqR (q ^ 1) q) by apply Qpower_1_r.
  ring.
Qed.

Lemma Q2R_qsum (f : nat -> Q) (n : nat) :
  Q2R (qsum f n) = sum_f_R0 (fun k => Q2R (f k)) n.
Proof.
  induction n as [|n IH]; [reflexivity|].
  cbn [qsum sum_f_R0]. rewrite (Qeq_eqR _ _ (Qred_correct _)), Q2R_plus, IH.
  reflexivity.
Qed.

Lemma Q2R_inject_Z (z : Z) : Q2R (inject_Z z) = IZR z.
Proof. unfold Q2R, inject_Z. cbn [Qnum Qden]. field. Qed.

Lemma Q2R_transition_Q (cache : list (list Z)) (alpha beta : Q) (i j : nat) :
  Q2R (transition_Q cache alpha beta i j) = transition cache (Q2R alpha) (Q2R beta) i j.
Proof.
  destruct i as [|i]; cbn [transition_Q transition].
  - destruct (j =? 0)%nat; [apply RMicromega.Q2R_1 | apply RMicromega.Q2R_0].
  - rewrite (Qeq_eqR _ _ (Qred_correct _)), Q2R_qsum.
    apply sum_eq. intros k _. unfold kernel_term_Q, kernel_term.
    rewrite !Q2R_mult, !Q2R_power, !Q2R_minus, Q2R_inject_Z, RMicromega.Q2R_1.
    reflexivity.
Qed.

Lemma Q2R_alpha_equal_rates_Q (t lambda : Q) :
  (0 <= t)%Q -> (0 <= lambda)%Q ->
  Q2R (alpha_equal_rates_Q t lambda) = Q2R lambda * Q2R t / (1 + Q2R lambda * Q2R t).
Proof.
  intros Ht Hl. unfold alpha_equal_rates_Q.
  assert (H : (0 <= lambda * t)%Q) by (apply Qmult_le_0_compat; assumption).
  rewrite (Qeq_eqR _ _ (Qred_correct _)), Q2R_div by lra.
  rewrite Q2R_plus, !Q2R_mult, RMicromega.Q2R_1. reflexivity.
Qed.

(** The matrix over the rationals holds the entries of the matrix over the
    reals, for a branch that is not below the threshold. *)
Lemma compute_birthdeath_rates_Q_correct (threshold : R) (cache : list (list Z))
  (t lambda : Q) (max_size i j : nat) :
  (0 <= t)%Q -> (0 <= lambda)%Q -> threshold <= Q2R t ->
  (i <= max_size)%nat -> (j <= max_size)%nat ->
  Q2R (square_matrix_get (compute_birthdeath_rates_Q cache t lambda max_size) i j) =
  rate (compute_birthdeath_rates threshold cache (Q2R t) (Q2R lambda) (-1) max_size) i j.
Proof.
  intros Ht Hl Hth Hi Hj.
  unfold square_matrix_get, compute_birthdeath_rates_Q.
  rewrite (nth_map_seq
             (fun i => map (fun j => transition_Q cache (alpha_equal_rates_Q t lambda)
                                       (alpha_equal_rates_Q t lambda) i j)
                           (seq 0 (S max_size)))) by lia.
  rewrite (nth_map_seq (fun j => transition_Q cache (alpha_equal_rates_Q t lambda)
                                   (alpha_equal_rates_Q t lambda) i j)) by lia.
  unfold compute_birthdeath_rates.
  destruct (Rlt_dec (Q2R t) threshold) as [L|_]; [lra|].
  rewrite rate_of_entries by assumption.
  rewrite Q2R_transition_Q, Q2R_alpha_equal_rates_Q by assumption.
  unfold birthdeath_alpha_beta.
  destruct (Req_dec_T (-1) (-1)) as [_|N]; [|lra].
  destruct (Req_dec_T (Q2R lambda) (Q2R lambda)) as [_|N]; [|lra].
  reflexivity.
Qed.



Local Close Scope R_scope.

(** ** The values the tests of the kernel assert *)

(** The test [chooseln_cache]: the coefficients whose logarithms the test
    asserts (4.025, 1.098, 1.791 and 4.43). *)
Lemma chooseln_cache_test :
  choose (chooseln_cache_init 10) 8 5 = 56 /\
  choose (chooseln_cache_init 10) 3 2 = 3 /\
  choose (chooseln_cache_init 10) 6 5 = 6 /\
  choose (chooseln_cache_init 10) 9 3 = 84.
Proof. repeat split; reflexivity. Qed.

Lemma square_matrix_get_rates_Q (cache : list (list Z)) (t lambda : Q)
  (max_size i j : nat) :
  (i <= max_size)%nat -> (j <= max_size)%nat ->
  square_matrix_get (compute_birthdeath_rates_Q cache t lambda max_size) i j =
  transition_Q cache (alpha_equal_rates_Q t lambda) (alpha_equal_rates_Q t lambda) i j.
Proof.
  intros Hi Hj. unfold square_matrix_get, compute_birthdeath_rates_Q.
  rewrite (nth_map_seq
             (fun i => map (fun j => transition_Q cache (alpha_equal_rates_Q t lambda)
                                       (alpha_equal_rates_Q t lambda) i j)
                           (seq 0 (S max_size)))) by lia.
  apply nth_map_seq. lia.
Qed.

(** The test [compute_birthdeath_rates_without_mu]: the closed form gives,
    in exact arithmetic, the values that the test asserts of the matrix for
    the branch length 1, the birth rate 0.01 and the death rate -1. *)
Lemma compute_birthdeath_rates_without_mu :
  let m := compute_birthdeath_rates_Q (chooseln_cache_init 25) 1 (1 # 100) 20 in
  length m = 21%nat /\
  (square_matrix_get m 1 0 == 1 # 101)%Q /\
  doubles_equal (99 # 10000) (square_matrix_get m 1 0) (1 # 1000000) = true /\
  doubles_equal (980296 # 1000000) (square_matrix_get m 1 1) (1 # 1000000) = true /\
  doubles_equal (97059 # 10000000) (square_matrix_get m 1 2) (1 # 1000000) = true /\
  doubles_equal (98 # 1000000) (square_matrix_get m 2 0) (1 # 10000000) = true /\
  doubles_equal (194118 # 10000000) (square_matrix_get m 2 1) (1 # 1000000) = true /\
  doubles_equal (961173 # 1000000) (square_matrix_get m 2 2) (1 # 1000000) = true /\
  doubles_equal (97059 # 100000000000) (square_matrix_get m 3 0) (1 # 1000000) = true /\
  doubles_equal (288294 # 1000000000) (square_matrix_get m 3 1) (1 # 1000000) = true /\
  doubles_equal (285468 # 10000000) (square_matrix_get m 3 2) (1 # 1000000) = true.
Proof.
  cbv zeta. split.
  - unfold compute_birthdeath_rates_Q. rewrite length_map, length_seq. reflexivity.
  - rewrite !square_matrix_get_rates_Q by lia. vm_compute. repeat split; reflexivity.
Qed.

(** The test [compute_birthdeath_rates2]: the entry (5,5) for the branch
    length 68.7105 and the birth rate 0.006335. *)
Lemma compute_birthdeath_rates2 :
  doubles_equal (19466 # 100000)
    (square_matrix_get
       (compute_birthdeath_rates_Q (chooseln_cache_init 141)
          (687105 # 10000) (6335 # 1000000) 140) 5 5)
    (1 # 100000) = true.
Proof.
  rewrite square_matrix_get_rates_Q by lia. vm_compute. reflexivity.
Qed.

Local Open Scope R_scope.

(** An entry of the matrix over the reals, from the rationals. *)
Lemma rate_Q2R (threshold : R) (cache : list (list Z)) (t lambda : Q)
  (tR lR : R) (max_size i j : nat) :
  Q2R t = tR -> Q2R lambda = lR -> (0 <= t)%Q -> (0 <= lambda)%Q ->
  threshold <= tR -> (i <= max_size)%nat -> (j <= max_size)%nat ->
  rate (compute_birthdeath_rates threshold cache tR lR (-1) max_size) i j =
  Q2R (transition_Q cache (alpha_equal_rates_Q t lambda)
         (alpha_equal_rates_Q t lambda) i j).
Proof.
  intros <- <- Ht Hl Hth Hi Hj.
  rewrite <- compute_birthdeath_rates_Q_correct by assumption.
  rewrite square_matrix_get_rates_Q by assumption. reflexivity.
Qed.

Lemma doubles_equal_Q2R (expected x tolerance : Q) (eR tolR : R) :
  Q2R expected = eR -> Q2R tolerance = tolR ->
  doubles_equal expected x tolerance = true ->
  Rabs (Q2R x - eR) <= tolR.
Proof.
  intros <- <- H. unfold doubles_equal in H.
  apply Qle_bool_iff, Qabs_Qle_condition in H. destruct H as [H1 H2].
  apply Qle_Rle in H1, H2. rewrite Q2R_minus in H1, H2. rewrite Q2R_opp in H1.
  apply Rabs_le. lra.
Qed.

(** C1: for the largest size 20, the branch length 1, the birth rate 0.01
    and the death rate -1 the kernel gives P(1->0) = 0.0099,
    P(1->1) = 0.980296 and P(1->2) = 0.0097059, each within 1e-6; for the
    largest size 140, the branch length 68.7105, the birth rate 0.006335 and
    the death rate -1 it gives P(5->5) = 0.19466 within 1e-4.  The branch
    lengths are not below the threshold. *)
Theorem kernel_values (threshold : R) :
  threshold <= 1 ->
  let m := compute_birthdeath_rates threshold (chooseln_cache_init 25)
             1 (1 / 100) (-1) 20 in
  let m2 := compute_birthdeath_rates threshold (chooseln_cache_init 141)
              (687105 / 10000) (6335 / 1000000) (-1) 140 in
  Rabs (rate m 1 0 - 99 / 10000) <= 1 / 1000000 /\
  Rabs (rate m 1 1 - 980296 / 1000000) <= 1 / 1000000 /\
  Rabs (rate m 1 2 - 97059 / 10000000) <= 1 / 1000000 /\
  Rabs (rate m2 5 5 - 19466 / 100000) <= 1 / 10000.
Proof.
  intros Hth. cbv zeta.
  assert (E1 : Q2R 1 = 1) by apply RMicromega.Q2R_1.
  assert (E2 : Q2R (1 # 100) = 1 / 100) by (unfold Q2R; cbn [Qnum Qden]; lra).
  assert (E3 : Q2R (687105 # 10000) = 687105 / 10000)
    by (unfold Q2R; cbn [Qnum Qden]; lra).
  assert (E4 : Q2R (6335 # 1000000) = 6335 / 1000000)
    by (unfold Q2R; cbn [Qnum Qden]; lra).
  assert (T6 : Q2R (1 # 1000000) = 1 / 1000000) by (unfold Q2R; cbn [Qnum Qden]; lra).
  assert (T4 : Q2R (1 # 10000) = 1 / 10000) by (unfold Q2R; cbn [Qnum Qden]; lra).
  rewrite !(rate_Q2R threshold (chooseln_cache_init 25) 1 (1 # 100) 1 (1 / 100))
    by (try assumption; try discriminate; lia).
  rewrite (rate_Q2R threshold (chooseln_cache_init 141) (687105 # 10000)
             (6335 # 1000000) (687105 / 10000) (6335 / 1000000))
    by (try assumption; try discriminate; try lia; lra).
  split; [|split; [|split]].
  - apply (doubles_equal_Q2R (99 # 10000) _ (1 # 1000000)); try assumption.
    + unfold Q2R; cbn [Qnum Qden]; lra.
    + vm_compute. reflexivity.
  - apply (doubles_equal_Q2R (980296 # 1000000) _ (1 # 1000000)); try assumption.
    + unfold Q2R; cbn [Qnum Qden]; lra.
    + vm_compute. reflexivity.
  - apply (doubles_equal_Q2R (97059 # 10000000) _ (1 # 1000000)); try assumption.
    + unfold Q2R; cbn [Qnum Qden]; lra.
    + vm_compute. reflexivity.
  - apply (doubles_equal_Q2R (19466 # 100000) _ (1 # 10000)); try assumption.
    + unfold Q2R; cbn [Qnum Qden]; lra.
    + vm_compute. reflexivity.
Qed.

Lemma kernel_values_witness :
  1 / 1000 <= 1 /\
  let m := compute_birthdeath_rates (1 / 1000) (chooseln_cache_init 25)
             1 (1 / 100) (-1) 20 in
  let m2 := compute_birthdeath_rates (1 / 1000) (chooseln_cache_init 141)
              (687105 / 10000) (6335 / 1000000) (-1) 140 in
  Rabs (rate m 1 0 - 99 / 10000) <= 1 / 1000000 /\
  Rabs (rate m 1 1 - 980296 / 1000000) <= 1 / 1000000 /\
  Rabs (rate m 1 2 - 97059 / 10000000) <= 1 / 1000000 /\
  Rabs (rate m2 5 5 - 19466 / 100000) <= 1 / 10000.
Proof.
  assert (H : 1 / 1000 <= 1) by lra.
  split; [exact H | exact (kernel_values (1 / 1000) H)].
Defined.

Local Close Scope R_scope.

(** * Further properties of error_model.cpp *)

(** ** Comparing names *)

Lemma equal_up_to_case_positions (s1 s2 : string) :
  equal_up_to_case s1 s2 <->
  String.length s1 = String.length s2 /\
  forall k a b, String.get k s1 = Some a -> String.get k s2 = Some b -> same_letter a b.
Proof.
  split.
  - induction 1 as [|a b s t Hab Hst [IHlen IHget]].
    + split; [reflexivity|]. intros k a b Ha. discriminate.
    + split; [cbn; congruence|].
      intros [|k] x y Hx Hy; cbn in Hx, Hy.
      * congruence.
      * by apply (IHget k).
  - revert s2. induction s1 as [|a s1 IH]; intros [|b s2] [Hlen Hget];
      try discriminate.
    + constructor.
    + constructor.
      * by apply (Hget 0%nat).
      * apply IH. split; [cbn in Hlen; congruence|].
        intros k x y Hx Hy. by apply (Hget (S k)).
Qed.

(** X1.  [case_insensitive_equal] holds of two strings exactly when they
    have the same length and, at every position, the same character or the
    upper-case and the lower-case form of one letter from A to Z. *)
Theorem case_insensitive_equal_letters (s1 s2 : string) :
  case_insensitive_equal s1 s2 = true <->
  String.length s1 = String.length s2 /\
  forall k a b, String.get k s1 = Some a -> String.get k s2 = Some b -> same_letter a b.
Proof.
  rewrite case_insensitive_equal_spec. apply equal_up_to_case_positions.
Qed.

Example case_insensitive_equal_examples :
  case_insensitive_equal "Errors.TXT" "errors.txt" = true /\
  case_insensitive_equal "errors_txt" "errors.txt" = false /\
  case_insensitive_equal "@" "`" = false /\
  case_insensitive_equal "dog" "dogs" = false.
Proof. repeat split; reflexivity. Qed.

(** ** Splitting a line *)

Lemma append_cons (x : ascii) (a b : string) :
  String x a +:+ b = String x (a +:+ b).
Proof. reflexivity. Qed.

Lemma append_nil (b : string) : EmptyString +:+ b = b.
Proof. reflexivity. Qed.

Lemma append_assoc (a b c : string) : (a +:+ b) +:+ c = a +:+ (b +:+ c).
Proof.
  induction a as [|x a IH]; [reflexivity|]. rewrite !append_cons. by f_equal.
Qed.

Lemma append_empty_r (a : string) : a +:+ EmptyString = a.
Proof.
  induction a as [|x a IH]; [reflexivity|]. rewrite append_cons. by f_equal.
Qed.

Lemma occurs_append (c : ascii) (a b : string) :
  occurs c (a +:+ b) = occurs c a || occurs c b.
Proof.
  induction a as [|x a IH]; [reflexivity|].
  rewrite append_cons. cbn [occurs]. rewrite IH. apply orb_assoc.
Qed.

Lemma split_from_free (tok t rest : string) (delimiter : ascii) :
  occurs delimiter t = false ->
  split_from tok (t +:+ rest) delimiter = split_from (tok +:+ t) rest delimiter.
Proof.
  revert tok. induction t as [|c t IH]; intros tok Hfree.
  - by rewrite append_nil, append_empty_r.
  - cbn [occurs] in Hfree. apply orb_false_iff in Hfree as [Hc Ht].
    rewrite append_cons. cbn [split_from]. rewrite Hc, IH by assumption.
    by rewrite append_assoc.
Qed.

Lemma split_from_tokens_free (tok str : string) (delimiter : ascii) :
  occurs delimiter tok = false ->
  Forall (fun t => occurs delimiter t = false) (split_from tok str delimiter).
Proof.
  revert tok. induction str as [|c str IH]; intros tok Hfree; cbn [split_from].
  - destruct tok; constructor; [assumption | constructor].
  - destruct (Ascii.eqb c delimiter) eqn:E.
    + constructor; [assumption | by apply IH].
    + apply IH. rewrite occurs_append, Hfree. cbn [occurs]. by rewrite E.
Qed.

Lemma chop_free (delimiter : ascii) (s : string) :
  occurs delimiter s = false -> chop delimiter s = s.
Proof.
  induction s as [|c s IH]; [reflexivity|]. cbn [occurs]. intros H.
  apply orb_false_iff in H as [Hc Hs].
  destruct s as [|a s].
  - cbn [chop]. by rewrite Hc.
  - change (chop delimiter (String c (String a s)))
      with (String c (chop delimiter (String a s))).
    by rewrite IH.
Qed.

Lemma chop_append (delimiter : ascii) (a : string) (c : ascii) (b : string) :
  chop delimiter (a +:+ String c b) = a +:+ chop delimiter (String c b).
Proof.
  induction a as [|x a IH]; [reflexivity|].
  rewrite !append_cons. destruct (a +:+ String c b) as [|y r] eqn:E.
  - destruct a; discriminate.
  - change (chop delimiter (String x (String y r)))
      with (String x (chop delimiter (String y r))).
    rewrite IH. reflexivity.
Qed.

Lemma split_from_empty (tok str : string) (delimiter : ascii) :
  split_from tok str delimiter = [] -> tok = EmptyString /\ str = EmptyString.
Proof.
  revert tok. induction str as [|c str IH]; intros tok; cbn [split_from].
  - destruct tok; [auto | discriminate].
  - destruct (Ascii.eqb c delimiter); [discriminate|].
    intros H. apply IH in H as [H _]. destruct tok; discriminate.
Qed.

Lemma join_split_from (tok str : string) (delimiter : ascii) :
  occurs delimiter tok = false ->
  join delimiter (split_from tok str delimiter) = chop delimiter (tok +:+ str).
Proof.
  revert tok. induction str as [|c str IH]; intros tok Hfree.
  - cbn [split_from]. rewrite append_empty_r. destruct tok; [reflexivity|].
    cbn [join]. by rewrite chop_free.
  - cbn [split_from]. destruct (Ascii.eqb c delimiter) eqn:E.
    + apply Ascii.eqb_eq in E as ->. rewrite chop_append.
      cbn [join].
      destruct (split_from EmptyString str delimiter) eqn:El.
      * apply split_from_empty in El as [_ ->]. cbn [chop].
        rewrite Ascii.eqb_refl. by rewrite append_empty_r.
      * rewrite <- El, (IH EmptyString) by reflexivity. rewrite append_nil.
        destruct str; [discriminate El|]. reflexivity.
    + rewrite IH.
      * by rewrite append_assoc.
      * rewrite occurs_append, Hfree. cbn [occurs]. by rewrite E.
Qed.

(** X2.  [split] gives tokens without the delimiter, and the tokens put
    together again with the delimiter between them are the string, except for
    a delimiter at its very end, which [split] drops. *)
Theorem join_split (str : string) (delimiter : ascii) :
  Forall (fun tok => occurs delimiter tok = false) (split str delimiter) /\
  join delimiter (split str delimiter) = chop delimiter str.
Proof.
  split.
  - by apply split_from_tokens_free.
  - by apply (join_split_from EmptyString).
Qed.

(** X3.  [split] gives back the tokens that were put together with the
    delimiter, when no token holds the delimiter and the last one is not
    empty. *)
Theorem split_join (tokens : list string) (delimiter : ascii) :
  Forall (fun tok => occurs delimiter tok = false) tokens ->
  last tokens <> Some EmptyString ->
  split (join delimiter tokens) delimiter = tokens.
Proof.
  unfold split. induction tokens as [|tok rest IH]; intros Hfree Hlast;
    [reflexivity|].
  apply Forall_cons in Hfree as [Htok Hrest].
  destruct rest as [|tok' rest].
  - cbn [join]. rewrite <- (append_empty_r tok) at 1.
    rewrite split_from_free by assumption. rewrite append_nil. cbn [split_from].
    destruct tok; [by destruct Hlast | reflexivity].
  - change (join delimiter (tok :: tok' :: rest))
      with (tok +:+ String delimiter (join delimiter (tok' :: rest))).
    rewrite split_from_free by assumption. rewrite append_nil. cbn [split_from].
    rewrite Ascii.eqb_refl. f_equal. apply IH; assumption.
Qed.

Lemma split_join_witness :
  Forall (fun tok => occurs " " tok = false) ["cntdiff"; "-1"; "0"; "1"]%string /\
  last ["cntdiff"; "-1"; "0"; "1"]%string <> Some EmptyString /\
  split (join " " ["cntdiff"; "-1"; "0"; "1"]%string) " "
    = ["cntdiff"; "-1"; "0"; "1"]%string.
Proof.
  assert (A : Forall (fun tok => occurs " " tok = false)
                ["cntdiff"; "-1"; "0"; "1"]%string)
    by (repeat constructor).
  assert (B : last ["cntdiff"; "-1"; "0"; "1"]%string <> Some EmptyString)
    by discriminate.
  split; [exact A|]. split; [exact B|].
  exact (split_join ["cntdiff"; "-1"; "0"; "1"]%string " " A B).
Defined.

(** ** Looking a model up by the name of its file *)

Lemma get_error_model_from_none (errs : list ErrorStruct) (base : nat)
  (filename : string) :
  get_error_model_from errs base filename = None <->
  forall e, e ∈ errs -> ~ equal_up_to_case (errorfilename e) filename.
Proof.
  revert base. induction errs as [|e errs IH]; intros base; cbn.
  - split; [|done]. intros _ e He. by apply elem_of_nil in He.
  - destruct (case_insensitive_equal (errorfilename e) filename) eqn:E.
    + split; [discriminate|]. intros Hno. exfalso.
      apply (Hno e); [by left|]. by apply case_insensitive_equal_spec.
    + rewrite IH. split.
      * intros Hno e' [-> | He']%elem_of_cons; [|by apply Hno].
        rewrite <- case_insensitive_equal_spec. congruence.
      * intros Hno e' He'. apply Hno. by right.
Qed.

(** X4.  [get_error_model] returns the first model of the family whose file
    name is the given one up to case, and NULL exactly when the family has no
    such model (or no list of models at all). *)
Theorem get_error_model_first_match (family : CafeFamily) (filename : string) :
  (forall k, get_error_model family filename = Some k <->
     exists errs e, errors family = Some errs /\ errs !! k = Some e /\
       equal_up_to_case (errorfilename e) filename /\
       forall k' e', (k' < k)%nat -> errs !! k' = Some e' ->
         ~ equal_up_to_case (errorfilename e') filename) /\
  (get_error_model family filename = None <->
     forall errs e, errors family = Some errs -> e ∈ errs ->
       ~ equal_up_to_case (errorfilename e) filename).
Proof.
  unfold get_error_model. destruct (errors family) as [errs|]; split.
  - intros k. split.
    + intros Hget. pose proof (get_error_model_from_found _ _ _ _ Hget)
        as (e & _ & He & Hname).
      rewrite Nat.sub_0_r in He. exists errs, e. repeat split; try assumption.
      intros k' e' Hlt He' Hname'.
      pose proof (get_error_model_from_first _ _ _ _ _ _ Hget He' Hname'). lia.
    + intros (errs' & e & [= <-] & He & Hname & Hfirst).
      destruct (get_error_model_from_some errs 0 k filename e He Hname) as [p Hp].
      pose proof (get_error_model_from_first _ _ _ _ _ _ Hp He Hname) as Hle.
      pose proof (get_error_model_from_found _ _ _ _ Hp) as (e' & _ & He' & Hname').
      rewrite Nat.sub_0_r in He'.
      destruct (Nat.eq_dec p k) as [-> | Hne]; [assumption|].
      exfalso. apply (Hfirst p e'); [lia | assumption..].
  - rewrite get_error_model_from_none. split.
    + intros Hno errs' e [= <-]. apply Hno.
    + intros Hno e. by apply Hno.
  - intros k. split; [discriminate|]. intros (errs & e & Herrs & _). discriminate.
  - split; [|reflexivity]. intros _ errs e Herrs. discriminate.
Qed.

(** ** Attaching a model to the species of a name, and removing it *)

Lemma attach_first_named_cases (n : nat) :
  forall (i : nat) (family : CafeFamily) (pTree : CafeTree)
    (p : option pErrorStruct) (name : string),
  (i + n <= length (species family))%nat ->
  (attach_first_named n (Z.of_nat i) family pTree p name = Ok (family, pTree) /\
   forall k sp, (i <= k < i + n)%nat -> species family !! k = Some sp ->
     ~ equal_up_to_case sp name) \/
  (exists k sp, (i <= k < i + n)%nat /\ species family !! k = Some sp /\
     equal_up_to_case sp name /\
     (forall k' sp', (i <= k' < k)%nat -> species family !! k' = Some sp' ->
        ~ equal_up_to_case sp' name) /\
     attach_first_named n (Z.of_nat i) family pTree p name
       = attach_error_model family pTree (Z.of_nat k) p).
Proof.
  induction n as [|n IH]; intros i family pTree p name Hlen.
  - left. split; [reflexivity|]. intros k sp Hk. lia.
  - cbn [attach_first_named].
    destruct (lookup_lt_is_Some_2 (species family) i) as [sp Hsp]; [lia|].
    assert (aget (species family) (Z.of_nat i) = Ok sp) as ->.
    { apply aget_Ok. split; [lia|]. by rewrite Nat2Z.id. }
    rewrite bind_Ok.
    destruct (case_insensitive_equal sp name) eqn:E.
    + right. exists i, sp. split; [lia|]. split; [assumption|].
      split; [by apply case_insensitive_equal_spec|]. split; [|reflexivity].
      intros k' sp' Hk'. lia.
    + replace (Z.of_nat i + 1) with (Z.of_nat (S i)) by lia.
      assert (Hno : ~ equal_up_to_case sp name).
      { rewrite <- case_insensitive_equal_spec. congruence. }
      destruct (IH (S i) family pTree p name) as [[Hok Hnone] | Hsome]; [lia|..].
      * left. split; [assumption|]. intros k sp' Hk Hsp'.
        destruct (Nat.eq_dec k i) as [-> | Hne].
        -- by replace sp' with sp by congruence.
        -- apply (Hnone k); [lia | assumption].
      * destruct Hsome as (k & sp' & Hk & Hsp' & Hname & Hfirst & Heq).
        right. exists k, sp'. split; [lia|]. repeat split; try assumption.
        intros k' sp'' Hk' Hsp''. destruct (Nat.eq_dec k' i) as [-> | Hne].
        -- by replace sp'' with sp by congruence.
        -- apply (Hfirst k'); [lia | assumption].
Qed.

Lemma first_named_unique (family : CafeFamily) (name : string) (i j : nat) :
  first_named family name i -> first_named family name j -> i = j.
Proof.
  intros (si & Hsi & Hni & Hfi) (sj & Hsj & Hnj & Hfj).
  destruct (Nat.lt_trichotomy i j) as [Hlt | [-> | Hgt]]; [|reflexivity|].
  - exfalso. by apply (Hfj i si).
  - exfalso. by apply (Hfi j sj).
Qed.

Lemma species_of_allocate (family : CafeFamily) :
  species (allocate_error_ptr family) = species family /\
  num_species (allocate_error_ptr family) = num_species family.
Proof. unfold allocate_error_ptr. by destruct (error_ptr family). Qed.

(** X5.  [init_error_ptr] with the name of no species of the family attaches
    the model to nothing: the array of pointers is allocated if it was not,
    the tree is left as it is, and the call returns normally. *)
Theorem init_error_ptr_unknown_species (family : CafeFamily) (pTree : CafeTree)
  (p : pErrorStruct) (speciesname : string) :
  Z.of_nat (length (species family)) = num_species family ->
  speciesname <> EmptyString ->
  unknown_species family speciesname ->
  init_error_ptr family pTree p speciesname = Ok (allocate_error_ptr family, pTree).
Proof.
  intros Hnum Hname Hunknown. unfold init_error_ptr.
  destruct (String.eqb_spec speciesname "") as [-> | _]; [done|]. cbn [negb].
  destruct (species_of_allocate family) as [Hsp Hn].
  destruct (attach_first_named_cases (Z.to_nat (num_species (allocate_error_ptr family)))
              0 (allocate_error_ptr family) pTree (Some p) speciesname)
    as [[Hok _] | (k & sp & _ & Hk & Hmatch & _)].
  - rewrite Hsp, Hn. lia.
  - exact Hok.
  - exfalso. rewrite Hsp in Hk. by apply (Hunknown k sp).
Qed.

Lemma init_error_ptr_unknown_species_witness :
  init_error_ptr two_species three_nodes 0%nat "dog"
    = Ok (allocate_error_ptr two_species, three_nodes).
Proof.
  apply init_error_ptr_unknown_species.
  - reflexivity.
  - discriminate.
  - intros i sp Hsp Heq. apply case_insensitive_equal_spec in Heq.
    destruct i as [|[|i]]; cbn in Hsp; [| |discriminate];
      injection Hsp as <-; vm_compute in Heq; discriminate.
Defined.

Lemma remove_error_model_cases {build : Build} (family : CafeFamily)
  (pcafe : CafeTree) (name : string) (errs : list ErrorStruct)
  (ptrs : list (option pErrorStruct)) :
  synchronized family pcafe -> errors family = Some errs ->
  error_ptr family = Some ptrs ->
  (unknown_species family name /\
   remove_error_model family pcafe name = Ok (family, pcafe)) \/
  (exists i node, first_named family name i /\ index family !! i = Some node /\
     0 <= node < Z.of_nat (length pcafe) /\ (i < length ptrs)%nat /\
     remove_error_model family pcafe name
       = Ok (with_pointer family ptrs i None,
             <[Z.to_nat node := mkCafeNode None]> pcafe)).
Proof.
  intros (Hs1 & Hs2 & Hs3 & Hs4) Herrs Hptrs. specialize (Hs3 _ Hptrs).
  unfold remove_error_model. rewrite Herrs, Hptrs.
  rewrite bool_decide_true by eauto. rewrite orb_true_r.
  destruct (attach_first_named_cases (Z.to_nat (num_species family)) 0 family pcafe
              None name) as [[Hok Hnone] | (k & sp & Hk & Hsp & Hname & Hfirst & Heq)];
    [lia|..].
  - left. split; [|exact Hok]. intros i sp Hsp. apply (Hnone i); [|assumption].
    apply lookup_lt_Some in Hsp. lia.
  - right. destruct (lookup_lt_is_Some_2 (index family) k) as [node Hnode]; [lia|].
    pose proof (proj1 (Forall_lookup _ _) Hs4 _ _ Hnode) as Hrange. cbn in Hrange.
    exists k, node. split.
    { exists sp. repeat split; try assumption.
      intros i' sp' Hi'. apply Hfirst. lia. }
    split; [assumption|]. split; [assumption|]. split; [lia|].
    change (Z.of_nat 0) with 0 in Heq. rewrite Heq.
    apply (attach_error_model_Ok _ _ _ _ ptrs node); try assumption; lia.
Qed.

(** X6.  [remove_error_model] clears the pointer of the first species of the
    given name (up to case) and that of its node of the tree, and nothing
    else: the other species keep their models, also a later species of the
    same name, and the model stays in the list of the family.  With the name
    of no species it changes nothing. *)
Theorem remove_error_model_first_named {build : Build} (family : CafeFamily)
  (pcafe : CafeTree) (name : string) (errs : list ErrorStruct)
  (ptrs : list (option pErrorStruct)) :
  synchronized family pcafe -> errors family = Some errs ->
  error_ptr family = Some ptrs ->
  (forall i node, first_named family name i -> index family !! i = Some node ->
     remove_error_model family pcafe name
       = Ok (with_pointer family ptrs i None,
             <[Z.to_nat node := mkCafeNode None]> pcafe)) /\
  (unknown_species family name ->
     remove_error_model family pcafe name = Ok (family, pcafe)).
Proof.
  intros Hsync Herrs Hptrs.
  destruct (remove_error_model_cases family pcafe name errs ptrs Hsync Herrs Hptrs)
    as [[Hunknown Hok] | (k & node' & Hk & Hnode' & _ & _ & Hok)]; split.
  - intros i node (sp & Hsp & Hname & _). exfalso. by apply (Hunknown i sp).
  - done.
  - intros i node Hi Hnode.
    assert (i = k) as -> by (by apply (first_named_unique family name)).
    by replace node with node' by congruence.
  - intros Hunknown. exfalso. destruct Hk as (sp & Hsp & Hname & _).
    by apply (Hunknown k sp).
Qed.

Lemma two_species_attached_synchronized :
  synchronized two_species_attached three_nodes_attached.
Proof.
  split; [reflexivity|]. split; [reflexivity|].
  split; [intros ptrs [= <-]; reflexivity|].
  repeat constructor; cbn; lia.
Qed.

Lemma human_first_named : first_named two_species_attached "HUMAN" 1.
Proof.
  exists "human"%string. split; [reflexivity|]. split.
  - by apply case_insensitive_equal_spec.
  - intros i' sp' Hlt Hsp' Heq. apply case_insensitive_equal_spec in Heq.
    destruct i' as [|i']; [|lia]. injection Hsp' as <-. vm_compute in Heq.
    discriminate.
Qed.

Lemma remove_error_model_first_named_witness :
  remove_error_model (build := debug_build) two_species_attached three_nodes_attached
    "HUMAN"
  = Ok (mkCafeFamily ["chimp"; "human"]%string 2 [0; 2] (Some [loaded_model])
          (Some [Some 0%nat; None]),
        [mkCafeNode (Some 0%nat); mkCafeNode None; mkCafeNode None]).
Proof.
  exact (proj1 (remove_error_model_first_named (build := debug_build)
                  two_species_attached three_nodes_attached "HUMAN" [loaded_model]
                  [Some 0%nat; Some 0%nat] two_species_attached_synchronized
                  eq_refl eq_refl)
           1%nat 2 human_first_named eq_refl).
Defined.

(** ** Freeing the error models *)

Lemma synchronized_with_pointer (family : CafeFamily) (pcafe : CafeTree)
  (ptrs : list (option pErrorStruct)) (i : nat) (p : option pErrorStruct)
  (n : nat) (c : CafeNode) :
  synchronized family pcafe -> error_ptr family = Some ptrs ->
  synchronized (with_pointer family ptrs i p) (<[n := c]> pcafe).
Proof.
  intros (Hs1 & Hs2 & Hs3 & Hs4) Hptrs. specialize (Hs3 _ Hptrs).
  repeat split; cbn; try assumption.
  - intros ptrs' [= <-]. by rewrite length_insert.
  - by rewrite length_insert.
Qed.

(** The loop of [free_error_model]: what holds of the tree when it ends, given
    what each removal keeps. *)
Lemma remove_all_inv {build : Build} (R : Z -> CafeTree -> Prop)
  (family : CafeFamily) (pcafe : CafeTree) (errs : list ErrorStruct)
  (ptrs : list (option pErrorStruct)) :
  synchronized family pcafe -> errors family = Some errs ->
  error_ptr family = Some ptrs ->
  R 0 pcafe ->
  (forall (k f : nat) (sk : string) (node : Z) (t : CafeTree),
     species family !! k = Some sk -> first_named family sk f ->
     index family !! f = Some node -> 0 <= node < Z.of_nat (length pcafe) ->
     length t = length pcafe ->
     R (Z.of_nat k) t ->
     R (Z.of_nat k + 1) (<[Z.to_nat node := mkCafeNode None]> t)) ->
  exists family' pcafe',
    for_range 0 (num_species family - 1)
      (fun i (ft : CafeFamily * CafeTree) =>
         sp ← aget (species (fst ft)) i;
         remove_error_model (fst ft) (snd ft) sp)
      (family, pcafe) = Ok (family', pcafe') /\
    same_family family family' /\
    (exists ptrs', error_ptr family' = Some ptrs') /\
    length pcafe' = length pcafe /\
    R (num_species family) pcafe'.
Proof.
  intros Hsync Herrs Hptrs HR0 Hstep.
  pose proof Hsync as (Hs1 & Hs2 & Hs3 & Hs4).
  destruct (for_range_total
    (fun i (ft : CafeFamily * CafeTree) =>
       synchronized (fst ft) (snd ft) /\ same_family family (fst ft) /\
       (exists ptrs', error_ptr (fst ft) = Some ptrs') /\
       length (snd ft) = length pcafe /\ R i (snd ft))
    0 (num_species family - 1)
    (fun i (ft : CafeFamily * CafeTree) =>
       sp ← aget (species (fst ft)) i;
       remove_error_model (fst ft) (snd ft) sp)
    (family, pcafe)) as ([family' pcafe'] & Hrun & Hfin).
  - cbn. split; [assumption|]. split; [by repeat split|]. split; [eauto|]. done.
  - intros i [f t] Hi (Hsy & (Hsp & Hnum & Hidx & Herr) & (ptrs' & Hptrs') & Hlen & HR).
    cbn [fst snd] in *.
    destruct (lookup_lt_is_Some_2 (species family) (Z.to_nat i)) as [sk Hsk]; [lia|].
    assert (aget (species f) i = Ok sk) as ->.
    { apply aget_Ok. split; [lia|]. by rewrite Hsp. }
    rewrite bind_Ok.
    assert (Herrs' : errors f = Some errs) by congruence.
    destruct (remove_error_model_cases f t sk errs ptrs' Hsy Herrs' Hptrs')
      as [[Hunknown _] | (k & node & Hk & Hnode & Hrange & Hlt & Hok)].
    + exfalso. apply (Hunknown (Z.to_nat i) sk); [by rewrite Hsp|].
      apply equal_up_to_case_refl.
    + rewrite Hok. eexists. split; [reflexivity|]. cbn [fst snd].
      split; [by apply synchronized_with_pointer|].
      split; [by repeat split|]. split; [by eexists|].
      split; [by rewrite length_insert|].
      assert (Hk' : first_named family sk k).
      { destruct Hk as (sp & Hsp' & Hname & Hfirst). exists sp.
        rewrite Hsp in Hsp'. split; [assumption|]. split; [assumption|].
        intros i' sp' Hi' Hsp''. apply (Hfirst i'); [assumption|]. by rewrite Hsp. }
      rewrite Hidx in Hnode. rewrite Hlen in Hrange.
      replace i with (Z.of_nat (Z.to_nat i)) in HR |- * by lia.
      by apply (Hstep (Z.to_nat i) k sk).
  - exists family', pcafe'. cbn [fst snd] in Hfin.
    destruct Hfin as (_ & Hsame & Hp & Hlen & HR).
    split; [exact Hrun|]. repeat split; try apply Hsame; try assumption.
    replace (num_species family) with (Z.max 0 (num_species family - 1 + 1)) by lia.
    exact HR.
Qed.

Lemma free_error_model_after_loop {build : Build} (family family' : CafeFamily)
  (pcafe pcafe' : CafeTree) (errs : list ErrorStruct) :
  errors family = Some errs ->
  for_range 0 (num_species family - 1)
    (fun i (ft : CafeFamily * CafeTree) =>
       sp ← aget (species (fst ft)) i;
       remove_error_model (fst ft) (snd ft) sp)
    (family, pcafe) = Ok (family', pcafe') ->
  same_family family family' ->
  (exists ptrs', error_ptr family' = Some ptrs') ->
  free_error_model family pcafe
    = Ok (mkCafeFamily (species family) (num_species family) (index family) None None,
          pcafe').
Proof.
  intros Herrs Hrun (Hsp & Hnum & Hidx & Herr) (ptrs' & Hptrs').
  unfold free_error_model. rewrite Hrun, bind_Ok. cbn [fst snd].
  rewrite Herr, Herrs. cbn. rewrite Hptrs'. cbn. by rewrite Hsp, Hnum, Hidx.
Qed.



(** X8.  A species that has the name of an earlier species up to case is
    never reached by [free_error_model], which removes by name: its node of
    the tree keeps the pointer it had, while the models are freed. *)
Theorem free_error_model_keeps_namesake {build : Build} (family : CafeFamily)
  (pcafe : CafeTree) (errs : list ErrorStruct) (ptrs : list (option pErrorStruct))
  (i j : nat) (si sj : string) (node : Z) (c : CafeNode) :
  synchronized family pcafe -> errors family = Some errs ->
  error_ptr family = Some ptrs ->
  NoDup (index family) ->
  (i < j)%nat -> species family !! i = Some si -> species family !! j = Some sj ->
  equal_up_to_case si sj ->
  index family !! j = Some node -> pcafe !! Z.to_nat node = Some c ->
  exists pcafe',
    free_error_model family pcafe
      = Ok (mkCafeFamily (species family) (num_species family) (index family)
              None None, pcafe') /\
    pcafe' !! Z.to_nat node = Some c.
Proof.
  intros Hsync Herrs Hptrs Hnodup Hij Hsi Hsj Hsame Hnode Hc.
  pose proof Hsync as (Hs1 & Hs2 & Hs3 & Hs4).
  pose proof (proj1 (Forall_lookup _ _) Hs4 _ _ Hnode) as Hrange. cbn in Hrange.
  destruct (remove_all_inv (fun _ t => t !! Z.to_nat node = Some c)
              family pcafe errs ptrs Hsync Herrs Hptrs)
    as (family' & pcafe' & Hrun & Hsame' & Hp & Hlen & Hkept).
  - exact Hc.
  - intros k f sk node' t Hsk (sf & Hsf & Hname & Hfirst) Hnode' Hrange' Hlen Hkept.
    rewrite list_lookup_insert_ne; [assumption|].
    intros Heq. assert (node' = node) as -> by lia.
    assert (f = j) as -> by (by apply (NoDup_lookup (index family) f j node)).
    apply (Hfirst i si); [assumption..|].
    replace sf with sj in Hname by congruence.
    by apply (equal_up_to_case_trans si sj sk).
  - exists pcafe'. split; [|assumption].
    by apply (free_error_model_after_loop _ family' _ _ errs).
Qed.

Lemma free_error_model_keeps_namesake_witness :
  exists pcafe',
    free_error_model (build := debug_build) two_namesakes three_nodes_attached
      = Ok (mkCafeFamily ["Human"; "human"]%string 2 [0; 2] None None, pcafe') /\
    pcafe' !! 2%nat = Some (mkCafeNode (Some 0%nat)).
Proof.
  apply (free_error_model_keeps_namesake (build := debug_build) two_namesakes
           three_nodes_attached [loaded_model] [Some 0%nat; Some 0%nat]
           0 1 "Human" "human" 2 (mkCafeNode (Some 0%nat))).
  - split; [reflexivity|]. split; [reflexivity|].
    split; [intros ptrs [= <-]; reflexivity|]. repeat constructor; cbn; lia.
  - reflexivity.
  - reflexivity.
  - apply (bool_decide_unpack _). reflexivity.
  - lia.
  - reflexivity.
  - reflexivity.
  - by apply case_insensitive_equal_spec.
  - reflexivity.
  - reflexivity.
Defined.

Example free_error_model_examples :
  free_error_model (build := debug_build) two_species_attached three_nodes_attached
    = Ok (mkCafeFamily ["chimp"; "human"]%string 2 [0; 2] None None,
          [mkCafeNode None; mkCafeNode None; mkCafeNode None]) /\
  free_error_model (build := debug_build) two_namesakes three_nodes_attached
    = Ok (mkCafeFamily ["Human"; "human"]%string 2 [0; 2] None None,
          [mkCafeNode None; mkCafeNode None; mkCafeNode (Some 0%nat)]).
Proof. split; reflexivity. Qed.

(** ** What [operator>>] keeps whenever it returns *)

Lemma while_inv {St : Type} (P : St -> Prop) (fuel : nat) (cond : St -> bool)
  (body : St -> outcome St) :
  (forall t t', P t -> cond t = true -> body t = Ok t' -> P t') ->
  forall s s', while fuel cond body s = Ok s' -> P s -> P s' /\ cond s' = false.
Proof.
  intros Hstep. induction fuel as [|fuel IH]; intros s s' Hrun Hs; [discriminate|].
  cbn in Hrun. destruct (cond s) eqn:Ec.
  - inv_bind Hrun. apply (IH a s'); [assumption|]. by apply (Hstep s).
  - injection Hrun as <-. by split.
Qed.

Lemma mset_has_dim {A : Type} (m m' : matrix A) (i j : Z) (x : A) (rows cols : Z) :
  mset m i j x = Ok m' -> has_dim m rows cols -> has_dim m' rows cols.
Proof.
  unfold mset. intros Hset [Hlen Hrows]. inv_bind Hset. inv_bind Hset.
  apply aget_Ok in Ha as [Hi Ha]. apply aset_Ok in Ha0 as (Hj & Hlt & ->).
  apply aset_Ok in Hset as (_ & Hlt' & ->). split.
  - by rewrite length_insert.
  - apply Forall_insert; [assumption|]. rewrite length_insert.
    by apply (proj1 (Forall_lookup _ _) Hrows _ _ Ha).
Qed.

Section Kept.
Context `{Libc} {build : Build}.

Lemma kept_set_errormatrix (e0 e : ErrorStruct) (m : matrix float) (i j : Z) :
  same_header e0 e ->
  has_dim m (maxfamilysize e + 1) (maxfamilysize e + 1) ->
  kept e0 (mkReader (set_errormatrix e m) i j).
Proof. intros Hh Hdim. split; [exact Hh | exact Hdim]. Qed.

Lemma copy_previous_row_kept (e0 : ErrorStruct) (r r' : reader) :
  copy_previous_row r = Ok r' -> kept e0 r -> kept e0 r' /\ rd_j r' = rd_j r.
Proof.
  unfold copy_previous_row. intros Hrun [Hh Hsq]. inv_bind Hrun.
  injection Hrun as <-. split; [|reflexivity]. apply kept_set_errormatrix; [exact Hh|].
  apply (for_range_inv
           (fun _ m => has_dim m (maxfamilysize (rd_model r) + 1)
                         (maxfamilysize (rd_model r) + 1))
           _ _ _ _ _ Ha); [exact Hsq|].
  intros i t t' _ Ht Hbody. destruct (in_matrix (rd_model r) i (rd_j r)).
  - inv_bind Hbody. by apply (mset_has_dim _ _ _ _ _ _ _ Hbody).
  - by injection Hbody as <-.
Qed.

Lemma store_row_kept (e0 : ErrorStruct) (data : list string) (col1 : Z)
  (r r' : reader) :
  store_row data col1 r = Ok r' -> kept e0 r -> kept e0 r' /\ rd_j r' = rd_j r.
Proof.
  unfold store_row. intros Hrun [Hh Hsq]. inv_bind Hrun.
  injection Hrun as <-. split; [|reflexivity]. apply kept_set_errormatrix; [exact Hh|].
  apply (for_range_inv
           (fun _ (mk : matrix float * Z) =>
              has_dim (fst mk) (maxfamilysize (rd_model r) + 1)
                (maxfamilysize (rd_model r) + 1))
           _ _ _ _ _ Ha); [exact Hsq|].
  intros i [m k] [m' k'] _ Ht Hbody. cbn [fst] in *.
  destruct (NDEBUG || (rd_j r =? col1)); [|discriminate].
  inv_bind Hbody. injection Hbody as <- _.
  destruct (in_matrix (rd_model r) i (rd_j r)).
  - inv_bind Ha0. by apply (mset_has_dim _ _ _ _ _ _ _ Ha0).
  - by injection Ha0 as <-.
Qed.

Lemma fill_before_row_kept (e0 : ErrorStruct) (fuel : nat) (col1 : Z)
  (r r' : reader) :
  fill_before_row fuel col1 r = Ok r' -> kept e0 r -> kept e0 r'.
Proof.
  unfold fill_before_row. intros Hrun Hr.
  apply (while_inv (kept e0) _ _ _) in Hrun as [Hk _]; [exact Hk | | exact Hr].
  intros t t' Ht _ Hbody. inv_bind Hbody. injection Hbody as <-.
  by destruct (copy_previous_row_kept e0 _ _ Ha Ht) as [[Hh Hsq] _].
Qed.


Lemma read_row_kept (e0 : ErrorStruct) (fuel : nat) (line : string) (r r' : reader) :
  read_row fuel line r = Ok r' -> kept e0 r -> kept e0 r'.
Proof.
  unfold read_row. intros Hrun Hr. inv_bind Hrun.
  destruct (_ =? _); [|by injection Hrun as <-].
  inv_bind Hrun. inv_bind Hrun. injection Hrun as <-.
  pose proof (fill_before_row_kept e0 _ _ _ _ Ha0 Hr) as Hr1.
  by destruct (store_row_kept e0 _ _ _ _ Ha1 Hr1) as [[Hh Hsq] _].
Qed.

Lemma read_rows_kept (e0 : ErrorStruct) (fuel : nat) (lines : list string) :
  forall r r', read_rows fuel lines r = Ok r' -> kept e0 r -> kept e0 r'.
Proof.
  induction lines as [|line lines IH]; intros r r' Hrun Hr; cbn in Hrun.
  - by injection Hrun as <-.
  - inv_bind Hrun. apply (IH a r' Hrun). by apply (read_row_kept e0 fuel line r).
Qed.




End Kept.


(** ** Lines that [operator>>] does not read as rows *)

Lemma split_cons (line : string) (delimiter : ascii) :
  line <> EmptyString -> exists tok toks, split line delimiter = tok :: toks.
Proof.
  intros Hline. destruct (split line delimiter) as [|tok toks] eqn:E; [|by eauto].
  apply split_from_empty in E as [_ E]. contradiction.
Qed.

Section Lines.
Context `{Libc} {build : Build}.

Lemma read_row_skips (fuel : nat) (line : string) (r : reader) :
  line <> EmptyString ->
  Z.of_nat (length (split line " "))
    <> todiff (rd_model r) - fromdiff (rd_model r) + 2 ->
  read_row fuel line r = Ok r.
Proof.
  intros Hline Hlen. unfold read_row.
  destruct (split_cons line " " Hline) as (tok & toks & E). rewrite E in *.
  change (aget (tok :: toks) 0) with (Ok tok). rewrite bind_Ok.
  by destruct (Z.eqb_spec (Z.of_nat (length (tok :: toks)))
                 (todiff (rd_model r) - fromdiff (rd_model r) + 2)).
Qed.

Lemma read_cntdiff_header (h2 : string) (rows : list string) (e : ErrorStruct)
  (from to : Z) :
  header_cntdiff h2 from to ->
  read_cntdiff (h2 :: rows) e = Ok (set_diffs e from to, rows).
Proof.
  intros (a & b & Ha & Hb & <- & <-). unfold read_cntdiff.
  rewrite (vector_at_lookup _ 1 a) by (done || lia). rewrite bind_Ok.
  rewrite (vector_at_lookup _ _ b).
  - by rewrite bind_Ok.
  - apply lookup_lt_Some in Ha. lia.
  - replace (Z.to_nat (Z.of_nat (length (split h2 " ")) - 1))
      with (length (split h2 " ") - 1)%nat by lia.
    exact Hb.
Qed.

(** The rows are read with the header of the first two lines. *)
Lemma operator_in_rows (fuel : nat) (h1 h2 : string) (e0 : ErrorStruct)
  (from to : Z) :
  header_cntdiff h2 from to ->
  exists pre : outcome reader,
    (forall r0, pre = Ok r0 ->
       kept (rd_model r0) r0 /\
       fromdiff (rd_model r0) = from /\ todiff (rd_model r0) = to) /\
    forall rows,
      operator_in fuel (h1 :: h2 :: rows) e0
        = r0 ← pre; r ← read_rows fuel rows r0; r ← fill_to_end fuel r;
          Ok (rd_model r).
Proof.
  intros Hh2.
  exists (tok0 ← vector_at (split h1 " ") 0;
          tok1 ← aget (split tok0 ":") 1;
          let e := set_diffs
                     (set_maxfamilysize e0 (Z.max (maxfamilysize e0) (atoi tok1)))
                     from to in
          Ok (mkReader
                (set_errormatrix e
                   (memory_new_2dim (maxfamilysize e + 1) (maxfamilysize e + 1)
                      0%float)) 0 0)).
  split.
  - intros r0 Hpre. inv_bind Hpre. inv_bind Hpre. injection Hpre as <-.
    split; [|by split].
    apply kept_set_errormatrix; [by repeat split | apply has_dim_new].
  - intros rows. unfold operator_in.
    destruct (vector_at (split h1 " ") 0) as [tok0|w| | |]; try reflexivity.
    rewrite !bind_Ok.
    destruct (aget (split tok0 ":") 1) as [tok1|w| | |]; try reflexivity.
    rewrite !bind_Ok, (read_cntdiff_header _ _ _ from to Hh2), bind_Ok.
    reflexivity.
Qed.

(** X10.  A line after the two header lines that is not empty and has another
    number of fields than a row has (the label and one value for each error
    class) is passed over: the result is that of the file without the
    line, whatever that is. *)
Theorem operator_in_skips_line (fuel : nat) (h1 h2 : string)
  (rows rest : list string) (bad : string) (e0 : ErrorStruct) (from to : Z) :
  header_cntdiff h2 from to ->
  bad <> EmptyString ->
  Z.of_nat (length (split bad " ")) <> to - from + 2 ->
  operator_in fuel (h1 :: h2 :: rows ++ bad :: rest) e0
    = operator_in fuel (h1 :: h2 :: rows ++ rest) e0.
Proof.
  intros Hh2 Hbad Hlen.
  destruct (operator_in_rows fuel h1 h2 e0 from to Hh2) as (pre & Hpre & Hrows).
  rewrite !Hrows. destruct pre as [r0|w| | |]; try reflexivity.
  destruct (Hpre r0 eq_refl) as (Hk & Hfrom & Hto).
  rewrite !bind_Ok, !read_rows_app.
  destruct (read_rows fuel rows r0) as [r1|w| | |] eqn:E; try reflexivity.
  rewrite !bind_Ok. cbn [read_rows].
  destruct (read_rows_kept (rd_model r0) _ _ _ _ E Hk) as [(_ & _ & Hf & Ht) _].
  rewrite read_row_skips; [by rewrite bind_Ok | assumption | congruence].
Qed.

(** X11.  A file that [operator>>] reads is not read any more when an empty
    line follows its rows: the first field of the line is taken from a
    vector that has none. *)
Theorem operator_in_empty_line (fuel : nat) (h1 h2 : string)
  (rows rest : list string) (e0 e : ErrorStruct) :
  operator_in fuel (h1 :: h2 :: rows) e0 = Ok e ->
  operator_in fuel (h1 :: h2 :: rows ++ EmptyString :: rest) e0 = Undefined.
Proof.
  unfold operator_in. intros Hrun. inv_bind Hrun. rewrite Ha, bind_Ok.
  inv_bind Hrun. rewrite Ha0, bind_Ok. inv_bind Hrun. destruct a1 as [e1 rows1].
  unfold read_cntdiff in *. inv_bind Ha1. rewrite Ha2, bind_Ok.
  inv_bind Ha1. rewrite Ha3, !bind_Ok. injection Ha1 as <- <-.
  inv_bind Hrun. rewrite read_rows_app, Ha1, bind_Ok. reflexivity.
Qed.

End Lines.

Lemma operator_in_skips_line_witness :
  operator_in (build := release_build) 10
    ("maxcnt:3" :: "cntdiff -1 0 1" :: ["0 0.0 0.8 0.2"] ++ "# a remark"
       :: ["1 0.2 0.6 0.2"])%string unread
  = operator_in (build := release_build) 10
      ("maxcnt:3" :: "cntdiff -1 0 1" :: ["0 0.0 0.8 0.2"] ++ ["1 0.2 0.6 0.2"])%string
      unread.
Proof.
  apply (operator_in_skips_line (build := release_build) 10 "maxcnt:3"
           "cntdiff -1 0 1" ["0 0.0 0.8 0.2"]%string ["1 0.2 0.6 0.2"]%string
           "# a remark" unread (-1) 1).
  - exists "-1"%string, "1"%string. by repeat split.
  - discriminate.
  - vm_compute. discriminate.
Defined.

Lemma operator_in_empty_line_witness :
  operator_in (build := release_build) 10
    ("maxcnt:3" :: "cntdiff -1 0 1"
       :: ["0 0.0 0.8 0.2"; "1 0.2 0.6 0.2"; "2 0.2 0.6 0.2"; "3 0.2 0.8 0.0"]
          ++ [EmptyString])%string unread
  = Undefined.
Proof.
  apply (operator_in_empty_line (build := release_build) 10 "maxcnt:3"
           "cntdiff -1 0 1"
           ["0 0.0 0.8 0.2"; "1 0.2 0.6 0.2"; "2 0.2 0.6 0.2"; "3 0.2 0.8 0.0"]%string
           [] unread complete_model).
  vm_compute. reflexivity.
Defined.

(** ** The first line of the file *)

Lemma split_first_token (key rest : string) (delimiter : ascii) :
  occurs delimiter key = false ->
  split (key +:+ String delimiter rest) delimiter
    = key :: split rest delimiter.
Proof.
  intros Hfree. unfold split. rewrite split_from_free by assumption.
  rewrite append_nil. cbn [split_from]. by rewrite Ascii.eqb_refl.
Qed.

(** X12.  A first line that has a blank between the colon and the number, as
    in [maxcnt: 68], is not read: the number is looked for behind the colon
    of the first field, which is [maxcnt:], and nothing is there. *)
Theorem operator_in_blank_after_colon `{Libc} {build : Build} (fuel : nat)
  (key number : string) (rest : list string) (e : ErrorStruct) :
  occurs ":" key = false -> occurs " " key = false ->
  operator_in fuel ((key +:+ ": " +:+ number) :: rest) e = Undefined.
Proof.
  intros Hcolon Hblank. unfold operator_in.
  change (": " +:+ number) with (String ":" (String " " number)).
  replace (key +:+ String ":" (String " " number))
    with ((key +:+ ":") +:+ String " " number)
    by (by rewrite append_assoc).
  rewrite split_first_token
    by (rewrite occurs_append, Hblank; reflexivity).
  change (vector_at ((key +:+ ":") :: split number " ") 0) with (Ok (key +:+ ":")).
  rewrite bind_Ok.
  change (key +:+ ":") with (key +:+ String ":" EmptyString).
  rewrite split_first_token by assumption. reflexivity.
Qed.

Lemma operator_in_blank_after_colon_witness :
  operator_in (build := release_build) 10
    ["maxcnt: 68"; "cntdiff -1 0 1"; "0 0.0 0.8 0.2"; "1 0.2 0.6 0.2"]%string unread
  = Undefined.
Proof.
  apply (operator_in_blank_after_colon (build := release_build) 10 "maxcnt" "68"
           ["cntdiff -1 0 1"; "0 0.0 0.8 0.2"; "1 0.2 0.6 0.2"]%string unread);
    reflexivity.
Defined.

(** ** Loading a file *)

Section Loading.
Context `{Libc} {build : Build} {M : Type} `{CafeShell M}.


End Loading.





Section LoadingOnce.
Context `{Libc} {build : Build} {M : Type} `{CafeShell M}.


End LoadingOnce.


(** ** Counting the family sizes of the measures *)

Lemma tally_app (v : Z) (l1 l2 : list Z) :
  tally v (l1 ++ l2) = tally v l1 + tally v l2.
Proof. induction l1 as [|x l1 IH]; cbn; [reflexivity | lia]. Qed.

Lemma int_incr_Ok (x y : Z) : int_incr x = Ok y -> y = x + 1.
Proof. unfold int_incr. destruct (x <? INT_MAX); [congruence | discriminate]. Qed.

Lemma count_sizes_spec (values : list Z) :
  forall sizeFreq sizeFreq',
  count_sizes values sizeFreq = Ok sizeFreq' ->
  length sizeFreq' = length sizeFreq /\
  (forall v, v ∈ values -> 0 <= v < Z.of_nat (length sizeFreq)) /\
  (forall v x, aget sizeFreq v = Ok x -> aget sizeFreq' v = Ok (x + tally v values)).
Proof.
  induction values as [|v values IH]; intros f f' Hrun; cbn in Hrun.
  - injection Hrun as <-. split; [reflexivity|]. split.
    + intros v Hv. by apply elem_of_nil in Hv.
    + intros v x Hx. cbn. by rewrite Z.add_0_r.
  - inv_bind Hrun. inv_bind Hrun. inv_bind Hrun.
    apply int_incr_Ok in Ha0 as ->.
    destruct (IH _ _ Hrun) as (Hlen & Hrange & Hcount).
    pose proof (aset_length _ _ _ _ Ha1) as Hlen1.
    pose proof Ha as Hget. apply aget_Ok in Hget as [Hv Hlook].
    apply lookup_lt_Some in Hlook.
    split; [congruence|]. split.
    + intros u [-> | Hu]%elem_of_cons; [lia|]. rewrite <- Hlen1. by apply Hrange.
    + intros u x Hx. cbn [tally]. destruct (Z.eqb_spec v u) as [<- | Hne].
      * rewrite (Hcount v (a + 1)); [|by apply (aget_aset_same _ _ _ _ Ha1)].
        f_equal. assert (x = a) by congruence. lia.
      * rewrite (Hcount u x); [f_equal; lia|].
        by rewrite (aget_aset_other _ _ _ _ _ Ha1).
Qed.

Lemma fold_left_max_spec (rest : list Z) :
  forall a,
  a <= fold_left Z.max rest a /\
  (forall x, x ∈ rest -> x <= fold_left Z.max rest a) /\
  (fold_left Z.max rest a = a \/ fold_left Z.max rest a ∈ rest).
Proof.
  induction rest as [|b rest IH]; intros a; cbn.
  - split; [lia|]. split; [|by left]. intros x Hx. by apply elem_of_nil in Hx.
  - destruct (IH (Z.max a b)) as (Hle & Hall & Hin). split; [lia|]. split.
    + intros x [-> | Hx]%elem_of_cons; [lia | by apply Hall].
    + destruct Hin as [Heq | Hin]; [|right; by right].
      destruct (Z.max_spec a b) as [[_ Hm] | [_ Hm]].
      * right. rewrite Heq, Hm. by left.
      * left. by rewrite Heq.
Qed.

Lemma max_element_spec (v : list Z) (m : Z) :
  max_element v = Ok m -> v <> [] /\ m ∈ v /\ forall x, x ∈ v -> x <= m.
Proof.
  destruct v as [|a rest]; [discriminate|]. intros [= <-].
  destruct (fold_left_max_spec rest a) as (Hle & Hall & Hin).
  split; [discriminate|]. split.
  - destruct Hin as [-> | Hin]; [by left | by right].
  - intros x [-> | Hx]%elem_of_cons; [assumption | by apply Hall].
Qed.

Section ReadFreqProperties.
Context `{GeneFamilyReader}.

Lemma count_line1_counted (str : string) (s s' : freq_state) :
  count_line1 str s = Ok s' ->
  counted str s s' /\ fq_data1colnum s' = Z.of_nat (length (values_of_line str)).
Proof.
  unfold count_line1. intros Hrun. inv_bind Hrun. inv_bind Hrun. inv_bind Hrun.
  inv_bind Hrun. injection Hrun as <-. apply int_incr_Ok in Ha2 as ->. split.
  - by exists a, a1.
  - unfold values_of_line. by rewrite Ha.
Qed.

Lemma count_line2_counted (str : string) (s s' : freq_state) :
  count_line2 str s = Ok s' ->
  counted str s s' /\ fq_data1colnum s' = fq_data1colnum s /\
  Z.of_nat (length (values_of_line str)) = fq_data1colnum s.
Proof.
  unfold count_line2. intros Hrun. inv_bind Hrun.
  destruct (Z.eqb_spec (fq_data1colnum s) (Z.of_nat (length (gf_values a))))
    as [Hcol | _]; [|discriminate].
  cbn [negb] in Hrun. inv_bind Hrun. inv_bind Hrun. inv_bind Hrun.
  injection Hrun as <-. apply int_incr_Ok in Ha2 as ->. split.
  - by exists a, a1.
  - split; [reflexivity|]. unfold values_of_line. by rewrite Ha.
Qed.

Lemma values_of_cons (str : string) (lines : list string) :
  values_of (str :: lines) = values_of_line str ++ values_of lines.
Proof. reflexivity. Qed.

Lemma values_of_app (l1 l2 : list string) :
  values_of (l1 ++ l2) = values_of l1 ++ values_of l2.
Proof. unfold values_of. by rewrite map_app, concat_app. Qed.

(** What either loop has done when it ends. *)
Lemma count_lines_spec (step : string -> freq_state -> outcome freq_state)
  (lines : list string) :
  (forall str s s', step str s = Ok s' -> counted str s s') ->
  forall st st', count_lines step lines st = Ok st' ->
  length (fq_sizeFreq st') = length (fq_sizeFreq st) /\
  fq_lines st' = fq_lines st + Z.of_nat (length lines) /\
  fq_maxFamilySize st <= fq_maxFamilySize st' /\
  (fq_maxFamilySize st' = fq_maxFamilySize st \/
   fq_maxFamilySize st' ∈ values_of lines) /\
  (forall v, v ∈ values_of lines ->
     0 <= v <= fq_maxFamilySize st' /\ v < Z.of_nat (length (fq_sizeFreq st))) /\
  (forall v x, aget (fq_sizeFreq st) v = Ok x ->
     aget (fq_sizeFreq st') v = Ok (x + tally v (values_of lines))) /\
  Forall (fun str => exists gf, read_gene_family str = Ok gf /\ gf_values gf <> [])
    lines.
Proof.
  intros Hstep. induction lines as [|str lines IH]; intros st st' Hrun; cbn in Hrun.
  - injection Hrun as <-. split; [reflexivity|]. split; [cbn; lia|]. split; [lia|].
    split; [by left|]. split; [intros v Hv; by apply elem_of_nil in Hv|].
    split; [|constructor]. intros v x Hx. cbn. by rewrite Z.add_0_r.
  - inv_bind Hrun. destruct (IH _ _ Hrun) as (Hlen & Hlines & Hle & Hmax & Hval & Hcnt & Hall).
    destruct (Hstep _ _ _ Ha) as (gf & largest & Hgf & Hcount & Hlargest & Hm & Hl).
    destruct (count_sizes_spec _ _ _ Hcount) as (Hlen1 & Hrange1 & Hcnt1).
    destruct (max_element_spec _ _ Hlargest) as (Hne & Hin & Hbound).
    assert (Hline : values_of_line str = gf_values gf).
    { unfold values_of_line. by rewrite Hgf. }
    rewrite values_of_cons, Hline.
    split; [congruence|]. split; [cbn [length]; lia|]. split; [lia|]. split.
    { destruct Hmax as [Heq | Hin'].
      - destruct (Z.max_spec (fq_maxFamilySize st) largest) as [[_ Hm'] | [_ Hm']].
        + right. apply elem_of_app. left. congruence.
        + left. congruence.
      - right. apply elem_of_app. by right. }
    split.
    { intros v [Hv | Hv]%elem_of_app.
      - specialize (Hrange1 v Hv). specialize (Hbound v Hv). lia.
      - specialize (Hval v Hv). lia. }
    split.
    { intros v x Hx. rewrite tally_app, Z.add_assoc. apply Hcnt. by apply Hcnt1. }
    constructor; [|assumption]. by exists gf.
Qed.

Lemma count_lines1_columns (lines : list string) :
  forall st st', count_lines count_line1 lines st = Ok st' ->
  lines <> [] -> fq_data1colnum st' = last_columns lines.
Proof.
  induction lines as [|str lines IH]; intros st st' Hrun Hne; [done|].
  cbn in Hrun. inv_bind Hrun. apply count_line1_counted in Ha as [_ Hcol].
  destruct lines as [|str' lines].
  - injection Hrun as <-. by rewrite Hcol.
  - rewrite (IH _ _ Hrun) by discriminate. reflexivity.
Qed.

Lemma count_lines2_columns (lines : list string) :
  forall st st', count_lines count_line2 lines st = Ok st' ->
  Forall (fun str => Z.of_nat (length (values_of_line str)) = fq_data1colnum st) lines.
Proof.
  induction lines as [|str lines IH]; intros st st' Hrun; [constructor|].
  cbn in Hrun. inv_bind Hrun. apply count_line2_counted in Ha as (_ & Hkeep & Hcol).
  constructor; [assumption|]. rewrite <- Hkeep. by apply (IH _ _ Hrun).
Qed.

(** The steps of [read_freq_from_measures] when it returns. *)
Lemma read_freq_from_measures_steps (ist1 : istream) (ist2 : option istream)
  (sizeFreq sizeFreq' : list Z) (maxFamilySize maxFamilySize' : Z) :
  read_freq_from_measures ist1 ist2 sizeFreq maxFamilySize
    = Ok (sizeFreq', maxFamilySize') ->
  exists st1,
    count_lines count_line1 (data_lines ist1) (mkFreq sizeFreq maxFamilySize 0 0)
      = Ok st1 /\
    ((ist2 = None /\ sizeFreq' = fq_sizeFreq st1 /\
      maxFamilySize' = fq_maxFamilySize st1) \/
     (exists st2, ist2 <> None /\
        count_lines count_line2 (second_lines ist2)
          (mkFreq (fq_sizeFreq st1) (fq_maxFamilySize st1) (fq_data1colnum st1) 0)
          = Ok st2 /\
        fq_lines st1 = fq_lines st2 /\
        sizeFreq' = fq_sizeFreq st2 /\ maxFamilySize' = fq_maxFamilySize st2)).
Proof.
  unfold read_freq_from_measures. intros Hrun.
  destruct ist1 as [[|h1 rest1]|]; try discriminate.
  inv_bind Hrun. inv_bind Hrun. exists a0. split; [exact Ha0|].
  destruct ist2 as [[[|h2 rest2]|]|]; try discriminate; injection Ha as <-.
  - right. inv_bind Hrun. exists a. split; [discriminate|]. split; [exact Ha|].
    destruct (Z.eqb_spec (fq_lines a0) (fq_lines a)) as [Heq | _]; [|discriminate].
    by injection Hrun as <- <-.
  - left. by injection Hrun as <- <-.
Qed.


(** X16.  When [read_freq_from_measures] returns, every entry of [sizeFreq]
    has grown by the number of times its index occurs among the counts of the
    data lines of both files, and the array has kept its length. *)
Theorem read_freq_from_measures_tally (ist1 : istream) (ist2 : option istream)
  (sizeFreq sizeFreq' : list Z) (maxFamilySize maxFamilySize' : Z) :
  read_freq_from_measures ist1 ist2 sizeFreq maxFamilySize
    = Ok (sizeFreq', maxFamilySize') ->
  length sizeFreq' = length sizeFreq /\
  forall v x, aget sizeFreq v = Ok x ->
    aget sizeFreq' v
      = Ok (x + tally v (values_of (data_lines ist1 ++ second_lines ist2))).
Proof.
  intros Hrun.
  destruct (read_freq_from_measures_steps _ _ _ _ _ _ Hrun) as (st1 & Hst1 & Hrest).
  destruct (count_lines_spec count_line1 (data_lines ist1)
              (fun str s s' Hs => proj1 (count_line1_counted str s s' Hs)) _ _ Hst1)
    as (Hlen1 & _ & _ & _ & _ & Hcnt1 & _).
  cbn [fq_sizeFreq fq_maxFamilySize] in *.
  destruct Hrest as [(-> & -> & ->) | (st2 & _ & Hst2 & _ & -> & ->)].
  - cbn [second_lines]. rewrite app_nil_r. by split.
  - destruct (count_lines_spec count_line2 (second_lines ist2)
                (fun str s s' Hs => proj1 (count_line2_counted str s s' Hs)) _ _ Hst2)
      as (Hlen2 & _ & _ & _ & _ & Hcnt2 & _).
    cbn [fq_sizeFreq fq_maxFamilySize] in *. split; [congruence|].
    intros v x Hx. rewrite values_of_app, tally_app, Z.add_assoc.
    apply Hcnt2. by apply Hcnt1.
Qed.

(** X17.  With a second file, [read_freq_from_measures] returns only if both
    files have the same number of data lines and every data line of the
    second file has as many counts as the last data line of the first: the
    other lines of the first file are not compared. *)
Theorem read_freq_from_measures_lines (ist1 ist2 : istream)
  (sizeFreq sizeFreq' : list Z) (maxFamilySize maxFamilySize' : Z) :
  read_freq_from_measures ist1 (Some ist2) sizeFreq maxFamilySize
    = Ok (sizeFreq', maxFamilySize') ->
  length (data_lines ist1) = length (data_lines ist2) /\
  Forall (fun str => Z.of_nat (length (values_of_line str))
                       = last_columns (data_lines ist1))
    (data_lines ist2).
Proof.
  intros Hrun.
  destruct (read_freq_from_measures_steps _ _ _ _ _ _ Hrun)
    as (st1 & Hst1 & [(Hnone & _) | (st2 & _ & Hst2 & Hlines & _)]); [discriminate|].
  destruct (count_lines_spec count_line1 (data_lines ist1)
              (fun str s s' Hs => proj1 (count_line1_counted str s s' Hs)) _ _ Hst1)
    as (_ & Hl1 & _).
  destruct (count_lines_spec count_line2 (data_lines ist2)
              (fun str s s' Hs => proj1 (count_line2_counted str s s' Hs)) _ _ Hst2)
    as (_ & Hl2 & _).
  cbn [fq_lines second_lines] in *.
  assert (Hlen : length (data_lines ist1) = length (data_lines ist2)) by lia.
  split; [exact Hlen|].
  pose proof (count_lines2_columns _ _ _ Hst2) as Hcols. cbn [fq_data1colnum] in Hcols.
  destruct (data_lines ist1) as [|str lines] eqn:E1.
  - destruct (data_lines ist2); [constructor | discriminate].
  - by rewrite (count_lines1_columns _ _ _ Hst1) in Hcols.
Qed.

End ReadFreqProperties.


Lemma read_freq_from_measures_tally_witness :
  length [1; 3; 3; 1; 0] = length (replicate 5 0) /\
  forall v x, aget (replicate 5 0) v = Ok x ->
    aget [1; 3; 3; 1; 0] v
      = Ok (x + tally v (values_of (data_lines (Some measure_one)
                                      ++ second_lines (Some (Some measure_two))))).
Proof.
  apply (read_freq_from_measures_tally (Some measure_one) (Some (Some measure_two))
           (replicate 5 0) [1; 3; 3; 1; 0] 0 3).
  vm_compute. reflexivity.
Defined.

Lemma read_freq_from_measures_lines_witness :
  length (data_lines (Some measure_ragged)) = length (data_lines (Some measure_two)) /\
  Forall (fun str => Z.of_nat (length (values_of_line str))
                       = last_columns (data_lines (Some measure_ragged)))
    (data_lines (Some measure_two)).
Proof.
  apply (read_freq_from_measures_lines (Some measure_ragged) (Some measure_two)
           (replicate 5 0) [1; 3; 4; 1; 0] 0 3).
  vm_compute. reflexivity.
Defined.

Example read_freq_from_measures_examples :
  read_freq_from_measures (Some measure_one) (Some (Some measure_two)) (replicate 5 0) 0
    = Ok ([1; 3; 3; 1; 0], 3) /\
  read_freq_from_measures (Some measure_one) None (replicate 5 0) 7
    = Ok ([1; 1; 1; 1; 0], 7) /\
  read_freq_from_measures (Some measure_one)
    (Some (Some (measure_two ++ [tab_separated ["d"; "f3"; "1"; "1"]%string])))
    (replicate 5 0) 0
    = Throw "The number of lines do not match between the two files" /\
  read_freq_from_measures (Some measure_one)
    (Some (Some [replicate_header; tab_separated ["d"; "f1"; "1"]%string]))
    (replicate 5 0) 0
    = Throw "file: the number of columns do not match between the two files" /\
  read_freq_from_measures (Some [replicate_header; tab_separated ["d"; "f1"]%string])
    None (replicate 5 0) 0 = Undefined /\
  read_freq_from_measures
    (Some [replicate_header; tab_separated ["d"; "f1"; "-1"]%string])
    None (replicate 5 0) 0 = Undefined /\
  read_freq_from_measures (Some measure_one) (Some None) (replicate 5 0) 0
    = Throw "errest: measure 2".
Proof. repeat split; reflexivity. Qed.

(** ** Lines that only one of the two measures has *)

Section Surplus.
Context `{GeneFamilyReader}.

Lemma compare_files_nil_r (ist1 : list string) (m : matrix Z) :
  compare_files ist1 [] m = Ok m.
Proof. induction ist1 as [|buf1 rest1 IH]; [reflexivity | exact IH]. Qed.

Lemma compare_files_surplus (l1 : list string) :
  forall (l2 more : list string) (m : matrix Z),
  length l1 = length l2 ->
  compare_files (l1 ++ more) l2 m = compare_files l1 l2 m /\
  compare_files l1 (l2 ++ more) m = compare_files l1 l2 m.
Proof.
  induction l1 as [|buf1 l1 IH]; intros [|buf2 l2] more m Hlen; try discriminate.
  - split; [by rewrite compare_files_nil_r | reflexivity].
  - cbn [app compare_files].
    destruct (read_gene_family buf1) as [gf1|w| | |]; try (by split).
    destruct (read_gene_family buf2) as [gf2|w| | |]; try (by split).
    rewrite !bind_Ok.
    destruct (negb (String.eqb (gf_id gf1) (gf_id gf2))); [by split|].
    destruct (check_pairs (gf_values gf1) (gf_values gf2) m) as [m'|w| | |];
      try (by split).
    rewrite !bind_Ok. apply IH. by injection Hlen.
Qed.

(** X18.  [read_error_double_measure] does not tell when one file has more
    lines than the other: the lines that one of them has beyond the last
    line of the other are left out, and the result is that of the files
    without them. *)
Theorem read_error_double_measure_surplus (h1 h2 : string)
  (l1 l2 more : list string) (observed_pairs : matrix Z) (maxFamilySize : Z) :
  length l1 = length l2 ->
  read_error_double_measure (Some (h1 :: l1 ++ more)) (Some (h2 :: l2))
    observed_pairs maxFamilySize
  = read_error_double_measure (Some (h1 :: l1)) (Some (h2 :: l2))
      observed_pairs maxFamilySize /\
  read_error_double_measure (Some (h1 :: l1)) (Some (h2 :: l2 ++ more))
    observed_pairs maxFamilySize
  = read_error_double_measure (Some (h1 :: l1)) (Some (h2 :: l2))
      observed_pairs maxFamilySize.
Proof.
  intros Hlen. unfold read_error_double_measure.
  destruct (compare_files_surplus l1 l2 more observed_pairs Hlen) as [-> ->].
  by split.
Qed.

End Surplus.

Lemma read_error_double_measure_surplus_witness :
  read_error_double_measure
    (Some (replicate_header :: [tab_separated ["d"; "f1"; "1"; "1"]%string]
             ++ [tab_separated ["d"; "f2"; "3"; "3"]%string]))
    (Some (replicate_header :: [tab_separated ["d"; "f1"; "0"; "1"]%string]))
    (memory_new_2dim 2 2 0) 1
  = read_error_double_measure
      (Some (replicate_header :: [tab_separated ["d"; "f1"; "1"; "1"]%string]))
      (Some (replicate_header :: [tab_separated ["d"; "f1"; "0"; "1"]%string]))
      (memory_new_2dim 2 2 0) 1 /\
  read_error_double_measure
    (Some (replicate_header :: [tab_separated ["d"; "f1"; "1"; "1"]%string]))
    (Some (replicate_header :: [tab_separated ["d"; "f1"; "0"; "1"]%string]
             ++ [tab_separated ["d"; "f2"; "3"; "3"]%string]))
    (memory_new_2dim 2 2 0) 1
  = read_error_double_measure
      (Some (replicate_header :: [tab_separated ["d"; "f1"; "1"; "1"]%string]))
      (Some (replicate_header :: [tab_separated ["d"; "f1"; "0"; "1"]%string]))
      (memory_new_2dim 2 2 0) 1.
Proof.
  apply (read_error_double_measure_surplus replicate_header replicate_header
           [tab_separated ["d"; "f1"; "1"; "1"]%string]
           [tab_separated ["d"; "f1"; "0"; "1"]%string]
           [tab_separated ["d"; "f2"; "3"; "3"]%string]
           (memory_new_2dim 2 2 0) 1).
  reflexivity.
Defined.

(** ** From the sizes counted to the pairs counted *)



Section CountedThenPaired.
Context `{GeneFamilyReader}.




End CountedThenPaired.


Example ragged_measure_leaves_the_vector :
  read_freq_from_measures (Some measure_ragged) (Some (Some measure_two))
    (replicate 5 0) 0 = Ok ([1; 3; 4; 1; 0], 3) /\
  read_error_double_measure (Some measure_ragged) (Some measure_two)
    (memory_new_2dim 4 4 0) 3 = Undefined.
Proof. split; reflexivity. Qed.

(** ** The vectors that the objective rejects *)

Lemma existsb_seq_iff (f : nat -> bool) (n : nat) :
  existsb f (seq 0 n) = true <-> exists k, (k < n)%nat /\ f k = true.
Proof.
  rewrite existsb_exists. split.
  - intros (k & Hk & Hf). apply in_seq in Hk. exists k. split; [lia | assumption].
  - intros (k & Hk & Hf). exists k. split; [apply in_seq; lia | assumption].
Qed.

Lemma lookup_parameter (parameters : list float) (k : nat) :
  (k < length parameters)%nat -> parameters !! k = Some (parameter parameters k).
Proof.
  intros Hk. unfold parameter.
  destruct (parameters !! k) eqn:E; [reflexivity|].
  apply lookup_ge_None in E. lia.
Qed.

Lemma scan_peak_exact (errormeasure : ErrorMeasure) (parameters : list float) :
  well_shaped errormeasure parameters ->
  exists skip, scan_peak errormeasure parameters = Ok skip /\
    (skip = true <-> rises_from_peak errormeasure parameters).
Proof.
  intros Hshape. destruct (scan_peak_total _ _ Hshape) as [skip Hskip].
  exists skip. split; [assumption|]. split.
  2: { intros Hrise. rewrite (scan_peak_rises _ _ Hshape Hrise) in Hskip. congruence. }
  intros ->. revert Hskip. destruct Hshape as (Hlen & Hn & Hasym).
  unfold rises_from_peak, scan_peak.
  destruct (b_symmetric errormeasure =? 0) eqn:Esym; cbn [negb].
  - apply Z.eqb_eq in Esym. destruct (Hasym Esym) as [Hd Hnum].
    cbv zeta. remember (Z.to_nat (model_parameter_diff errormeasure)) as d eqn:Hd0.
    assert (Ed : model_parameter_diff errormeasure = Z.of_nat d) by lia.
    rewrite Ed.
    rewrite (aget_parameter parameters d) by lia. rewrite !bind_Ok.
    rewrite (scan_decreasing_spec d 1 _ parameters _
               (fun k => parameter parameters (d - k)%nat)).
    2:{ f_equal. lia. }
    2:{ intros k Hk.
        replace (Z.of_nat d - (1 + Z.of_nat k))
          with (Z.of_nat (d - S k)) by lia.
        apply aget_parameter. lia. }
    rewrite !bind_Ok.
    rewrite (scan_decreasing_spec d 1 _ parameters _
               (fun k => parameter parameters (d + k)%nat)).
    2:{ f_equal. lia. }
    2:{ intros k Hk.
        replace (Z.of_nat d + (1 + Z.of_nat k))
          with (Z.of_nat (d + S k)) by lia.
        apply aget_parameter. lia. }
    rewrite bind_Ok. intros [= Hor]. apply orb_true_iff in Hor.
    destruct Hor as [Hex | Hex]; apply existsb_seq_iff in Hex as (k & Hk & Hlt).
    + exists k, (parameter parameters (d - k)), (parameter parameters (d - S k)).
      split; [assumption|]. split; [assumption|]. left.
      split; apply lookup_parameter; lia.
    + exists k, (parameter parameters (d + k)), (parameter parameters (d + S k)).
      split; [assumption|]. split; [assumption|]. right.
      split; apply lookup_parameter; lia.
  - rewrite aget_first_parameter by lia. rewrite bind_Ok.
    rewrite (scan_decreasing_spec _ 1 _ parameters _ (parameter parameters)).
    + intros [= Hex]. apply existsb_seq_iff in Hex as (k & Hk & Hlt).
      exists k, (parameter parameters k), (parameter parameters (S k)).
      split; [apply lookup_parameter; lia|]. split; [apply lookup_parameter; lia|].
      assumption.
    + reflexivity.
    + intros k Hk. replace (1 + Z.of_nat k) with (Z.of_nat (S k)) by lia.
      apply aget_parameter. lia.
Qed.

(** X20.  The vectors that the objective rejects are exactly those with a
    negative parameter, a negative residual epsilon, a parameter smaller
    than the residual epsilon, or (with the peak-zero flag) a parameter
    larger than its neighbour on the side of the peak.  A rejected vector
    costs plus infinity; every other vector of the right shape is scored. *)
Theorem parameters_rejected_exactly `{Libm} `{CafeShell ErrorMeasure}
  (errormeasure : ErrorMeasure) (parameters : list float) :
  well_shaped errormeasure parameters ->
  exists skip : bool,
    parameters_rejected errormeasure parameters = Ok skip /\
    (skip = true <->
       has_negative parameters \/
       epsilon_negative errormeasure parameters \/
       below_epsilon errormeasure parameters \/
       (b_peakzero errormeasure <> 0 /\ rises_from_peak errormeasure parameters)) /\
    loglikelihood_pairs_from_double_measure parameters errormeasure
      = if skip then Ok infinity
        else score ← score_of_parameters errormeasure parameters; Ok (- score)%float.
Proof.
  intros Hshape.
  assert (Hexact : exists skip : bool,
    parameters_rejected errormeasure parameters = Ok skip /\
    (skip = true <->
       has_negative parameters \/
       epsilon_negative errormeasure parameters \/
       below_epsilon errormeasure parameters \/
       (b_peakzero errormeasure <> 0 /\ rises_from_peak errormeasure parameters))).
  { unfold parameters_rejected.
    destruct (epsilon_defined _ _ Hshape) as [epsilon Heps]. rewrite Heps, bind_Ok.
    rewrite (scan_parameters_total _ _ _ Hshape), bind_Ok.
    pose proof Hshape as (Hlen & Hn & _).
    destruct (existsb _ _) eqn:Escan.
    - exists true. split; [reflexivity|]. split; [intros _ | reflexivity].
      apply existsb_seq_iff in Escan as (k & Hk & Hor).
      apply orb_true_iff in Hor as [Hor | Hbelow].
      + apply orb_true_iff in Hor as [Hneg | Hneg].
        * left. exists k, (parameter parameters k).
          split; [apply lookup_parameter; lia | assumption].
        * right. left. by exists epsilon.
      + right. right. left. exists epsilon, k, (parameter parameters k).
        split; [assumption|]. split; [apply lookup_parameter; lia | assumption].
    - assert (Hnone : forall k p, parameters !! k = Some p ->
                (p <? 0)%float = false /\ (epsilon <? 0)%float = false /\
                (p <? epsilon)%float = false).
      { intros k p Hp.
        destruct ((p <? 0) || (epsilon <? 0) || (p <? epsilon))%float eqn:E.
        - rewrite (existsb_seq_true _ _ k) in Escan; [discriminate | |].
          + apply lookup_lt_Some in Hp. lia.
          + by rewrite (parameter_lookup _ _ _ Hp).
        - apply orb_false_iff in E as [E E3]. apply orb_false_iff in E as [E1 E2].
          by repeat split. }
      assert (Hfirst : ~ (has_negative parameters \/
                          epsilon_negative errormeasure parameters \/
                          below_epsilon errormeasure parameters)).
      { intros [(i & p & Hp & Hneg) | [(eps & Heps' & Hneg) | (eps & i & p & Heps' & Hp & Hlt)]].
        - destruct (Hnone i p Hp) as (E & _). congruence.
        - assert (eps = epsilon) as -> by congruence.
          destruct (lookup_lt_is_Some_2 parameters 0) as [p Hp]; [lia|].
          destruct (Hnone 0%nat p Hp) as (_ & E & _). congruence.
        - assert (eps = epsilon) as -> by congruence.
          destruct (Hnone i p Hp) as (_ & _ & E). congruence. }
      cbn [negb andb].
      destruct (Z.eqb_spec (b_peakzero errormeasure) 0) as [E | E]; cbn [negb].
      + exists false. split; [reflexivity|]. split; [discriminate|].
        intros [Hc | [Hc | [Hc | [Hc _]]]]; try contradiction; exfalso; apply Hfirst; auto.
      + destruct (scan_peak_exact _ _ Hshape) as (skip & Hskip & Hiff).
        exists skip. split; [assumption|]. rewrite Hiff. split.
        * intros Hrise. right. right. right. by split.
        * intros [Hc | [Hc | [Hc | [_ Hc]]]]; try assumption; exfalso; apply Hfirst; auto. }
  destruct Hexact as (skip & Hskip & Hiff). exists skip.
  split; [assumption|]. split; [assumption|].
  unfold loglikelihood_pairs_from_double_measure. rewrite Hskip, bind_Ok.
  destruct skip; [|reflexivity]. by rewrite bind_Ok, log_zero.
Qed.

Lemma parameters_rejected_exactly_witness :
  exists skip : bool,
    parameters_rejected small_measure [0.5; 0.125]%float = Ok skip /\
    (skip = true <->
       has_negative [0.5; 0.125]%float \/
       epsilon_negative small_measure [0.5; 0.125]%float \/
       below_epsilon small_measure [0.5; 0.125]%float \/
       (b_peakzero small_measure <> 0 /\
        rises_from_peak small_measure [0.5; 0.125]%float)) /\
    loglikelihood_pairs_from_double_measure [0.5; 0.125]%float small_measure
      = if skip then Ok infinity
        else score ← score_of_parameters small_measure [0.5; 0.125]%float;
             Ok (- score)%float.
Proof.
  apply (parameters_rejected_exactly small_measure [0.5; 0.125]%float).
  split; [reflexivity|]. split; [cbn; lia|]. cbn. discriminate.
Defined.

Example rejected_below_epsilon :
  get_marginal_error_probability_epsilon small_measure [0.5; 0.125]%float
    = Ok 0.25%float /\
  loglikelihood_pairs_from_double_measure [0.5; 0.125]%float small_measure
    = Ok infinity.
Proof. split; reflexivity. Qed.

(** ** The starting point of a search *)

Lemma for_down_total {St : Type} (P : nat -> St -> Prop) (n : nat) (hi : Z)
  (body : Z -> St -> outcome St) (s : St) :
  P 0%nat s ->
  (forall k t, (k < n)%nat -> P k t ->
     exists t', body (hi - Z.of_nat k) t = Ok t' /\ P (S k) t') ->
  exists s', for_down n hi body s = Ok s' /\ P n s'.
Proof.
  revert P hi s. induction n as [|n IH]; intros P hi s H0 Hstep.
  - exists s. by split.
  - cbn [for_down]. destruct (Hstep 0%nat s) as (t & Hbody & Ht); [lia | assumption |].
    rewrite Z.sub_0_r in Hbody. rewrite Hbody, bind_Ok.
    destruct (IH (fun k => P (S k)) (hi - 1) t Ht) as (s' & Hrun & Hs'); [|by exists s'].
    intros k u Hk Hu. destruct (Hstep (S k) u) as (u' & Hbody' & Hu'); [lia | assumption|].
    exists u'. split; [|assumption].
    by replace (hi - 1 - Z.of_nat k) with (hi - Z.of_nat (S k)) by lia.
Qed.

Lemma existsb_seq_false (f : nat -> bool) (n : nat) :
  (forall k, (k < n)%nat -> f k = false) -> existsb f (seq 0 n) = false.
Proof.
  intros Hf. destruct (existsb f (seq 0 n)) eqn:E; [|reflexivity].
  apply existsb_seq_iff in E as (k & Hk & Hfk). rewrite (Hf k Hk) in Hfk. discriminate.
Qed.

Lemma ascending_parameter (sorted_params parameters : list float) (i j a b : nat) :
  ascending sorted_params ->
  (i < length parameters)%nat -> (j < length parameters)%nat ->
  parameters !! i = sorted_params !! b -> parameters !! j = sorted_params !! a ->
  (a <= b)%nat ->
  (parameter parameters i <? parameter parameters j)%float = false.
Proof.
  intros Hasc Hi Hj Hib Hja Hab.
  rewrite (lookup_parameter _ _ Hi) in Hib. rewrite (lookup_parameter _ _ Hj) in Hja.
  by apply (Hasc a b).
Qed.

Lemma arrange_symmetric (sorted_params parameters : list float) (number : Z) :
  Z.of_nat (length parameters) = number ->
  length sorted_params = length parameters ->
  exists pj,
    for_down (Z.to_nat number) (number - 1)
      (fun i (pj : list float * Z) =>
         let (parameters, j) := pj in
         x ← aget sorted_params i;
         parameters ← aset parameters j x;
         Ok (parameters, j + 1))
      (parameters, 0) = Ok pj /\
    length (fst pj) = length parameters /\
    forall j, (j < length sorted_params)%nat ->
      fst pj !! j = sorted_params !! (length sorted_params - 1 - j)%nat.
Proof.
  intros Hlen Hsorted.
  destruct (for_down_total
    (fun k (pj : list float * Z) =>
       snd pj = Z.of_nat k /\ length (fst pj) = length parameters /\
       forall j, (j < k)%nat ->
         fst pj !! j = sorted_params !! (length sorted_params - 1 - j)%nat)
    (Z.to_nat number) (number - 1)
    (fun i (pj : list float * Z) =>
       let (parameters, j) := pj in
       x ← aget sorted_params i;
       parameters ← aset parameters j x;
       Ok (parameters, j + 1))
    (parameters, 0)) as (pj & Hrun & _ & Hl & Hpos).
  - cbn. split; [reflexivity|]. split; [reflexivity|]. intros j Hj. lia.
  - intros k [ps j] Hk (Hj & Hl & Hpos). cbn [fst snd] in *. subst j.
    destruct (lookup_lt_is_Some_2 sorted_params (length sorted_params - 1 - k))
      as [x Hx]; [lia|].
    assert (aget sorted_params (number - 1 - Z.of_nat k) = Ok x) as ->.
    { apply aget_Ok. split; [lia|].
      by replace (Z.to_nat (number - 1 - Z.of_nat k))
        with (length sorted_params - 1 - k)%nat by lia. }
    rewrite bind_Ok, aset_in_range by lia. rewrite bind_Ok, Nat2Z.id.
    eexists. split; [reflexivity|]. cbn [fst snd]. split; [lia|].
    split; [by rewrite length_insert|].
    intros j Hj. destruct (Nat.eq_dec j k) as [-> | Hne].
    + rewrite list_lookup_insert_eq by lia. by rewrite Hx.
    + rewrite list_lookup_insert_ne by congruence. apply Hpos. lia.
  - exists pj. split; [exact Hrun|]. split; [exact Hl|].
    intros j Hj. apply Hpos. lia.
Qed.

Lemma arrange_asymmetric (sorted_params parameters : list float) (d : nat) :
  length parameters = (2 * d + 1)%nat ->
  length sorted_params = length parameters ->
  exists x p0 pj,
    aget sorted_params (2 * Z.of_nat d + 1 - 1) = Ok x /\
    aset parameters (Z.of_nat d) x = Ok p0 /\
    for_range 1 (Z.of_nat d)
      (fun i (pj : list float * Z) =>
         let (parameters, j) := pj in
         x ← aget sorted_params j;
         parameters ← aset parameters (Z.of_nat d - i) x;
         y ← aget sorted_params (j - 1);
         parameters ← aset parameters (Z.of_nat d + i) y;
         Ok (parameters, j - 2))
      (p0, 2 * Z.of_nat d + 1 - 1 - 1) = Ok pj /\
    length (fst pj) = length parameters /\
    fst pj !! d = sorted_params !! (2 * d)%nat /\
    forall i, (1 <= i <= d)%nat ->
      fst pj !! (d - i)%nat = sorted_params !! (2 * d + 1 - 2 * i)%nat /\
      fst pj !! (d + i)%nat = sorted_params !! (2 * d - 2 * i)%nat.
Proof.
  intros Hlen Hsorted.
  destruct (lookup_lt_is_Some_2 sorted_params (2 * d)) as [x Hx]; [lia|].
  exists x, (<[d := x]> parameters).
  assert (Hget : aget sorted_params (2 * Z.of_nat d + 1 - 1) = Ok x).
  { apply aget_Ok. split; [lia|].
    by replace (Z.to_nat (2 * Z.of_nat d + 1 - 1)) with (2 * d)%nat by lia. }
  assert (Hset : aset parameters (Z.of_nat d) x = Ok (<[d := x]> parameters)).
  { rewrite aset_in_range by lia. by rewrite Nat2Z.id. }
  destruct (for_range_total
    (fun i (pj : list float * Z) =>
       snd pj = 2 * Z.of_nat d + 1 - 2 * i /\
       length (fst pj) = length parameters /\
       fst pj !! d = sorted_params !! (2 * d)%nat /\
       forall i', (1 <= i')%nat -> Z.of_nat i' < i ->
         fst pj !! (d - i')%nat = sorted_params !! (2 * d + 1 - 2 * i')%nat /\
         fst pj !! (d + i')%nat = sorted_params !! (2 * d - 2 * i')%nat)
    1 (Z.of_nat d)
    (fun i (pj : list float * Z) =>
       let (parameters, j) := pj in
       x ← aget sorted_params j;
       parameters ← aset parameters (Z.of_nat d - i) x;
       y ← aget sorted_params (j - 1);
       parameters ← aset parameters (Z.of_nat d + i) y;
       Ok (parameters, j - 2))
    (<[d := x]> parameters, 2 * Z.of_nat d + 1 - 1 - 1))
    as (pj & Hrun & _ & Hl & Hpeak & Hpos).
  - cbn [fst snd]. split; [lia|]. split; [by rewrite length_insert|].
    split; [|intros; lia]. rewrite list_lookup_insert_eq by lia. by rewrite Hx.
  - intros i [ps j] Hi (Hj & Hl & Hpeak & Hpos). cbn [fst snd] in *. subst j.
    set (k := Z.to_nat i).
    destruct (lookup_lt_is_Some_2 sorted_params (2 * d + 1 - 2 * k)) as [y Hy]; [lia|].
    destruct (lookup_lt_is_Some_2 sorted_params (2 * d - 2 * k)) as [z Hz]; [lia|].
    assert (aget sorted_params (2 * Z.of_nat d + 1 - 2 * i) = Ok y) as ->.
    { apply aget_Ok. split; [lia|].
      by replace (Z.to_nat (2 * Z.of_nat d + 1 - 2 * i))
        with (2 * d + 1 - 2 * k)%nat by lia. }
    rewrite bind_Ok, aset_in_range by lia. rewrite bind_Ok.
    assert (aget sorted_params (2 * Z.of_nat d + 1 - 2 * i - 1) = Ok z) as ->.
    { apply aget_Ok. split; [lia|].
      by replace (Z.to_nat (2 * Z.of_nat d + 1 - 2 * i - 1))
        with (2 * d - 2 * k)%nat by lia. }
    rewrite bind_Ok, aset_in_range by (rewrite length_insert; lia). rewrite bind_Ok.
    replace (Z.to_nat (Z.of_nat d - i)) with (d - k)%nat by lia.
    replace (Z.to_nat (Z.of_nat d + i)) with (d + k)%nat by lia.
    eexists. split; [reflexivity|]. cbn [fst snd]. split; [lia|].
    split; [by rewrite !length_insert|]. split.
    + rewrite !list_lookup_insert_ne by lia. exact Hpeak.
    + intros i' Hi1 Hi'. destruct (Nat.eq_dec i' k) as [-> | Hne].
      * split.
        -- rewrite list_lookup_insert_ne by lia.
           rewrite list_lookup_insert_eq by lia. by rewrite Hy.
        -- rewrite list_lookup_insert_eq by (rewrite length_insert; lia).
           by rewrite Hz.
      * rewrite !list_lookup_insert_ne by lia. apply Hpos; lia.
  - exists pj. split; [exact Hget|]. split; [exact Hset|]. split; [exact Hrun|].
    split; [exact Hl|]. split; [exact Hpeak|].
    intros i Hi. apply Hpos; lia.
Qed.

(** X21.  The starting vector of a search passes the peak check of the
    objective.  For the measure that [estimate_error_double_measure] sets
    up, with [max_diff] at least 0, and sorted values in ascending order, the
    arrangement puts the largest value at the peak and the others in
    descending order away from it, and the objective's check of the peak
    does not reject the vector. *)
Theorem arranged_parameters_peak (sizeDist : list float) (maxFamilySize : Z)
  (observed_pairs : matrix Z) (symmetric max_diff peakzero : Z)
  (sorted_params parameters : list float) :
  let error := set_up_error_measure sizeDist maxFamilySize observed_pairs
                 symmetric max_diff peakzero in
  0 <= max_diff ->
  Z.of_nat (length parameters) = model_parameter_number error ->
  length sorted_params = length parameters ->
  ascending sorted_params ->
  exists parameters',
    arrange_parameters error sorted_params parameters = Ok parameters' /\
    length parameters' = length parameters /\
    arranged error sorted_params parameters' /\
    scan_peak error parameters' = Ok false.
Proof.
  intros error Hdiff Hlen Hsorted Hasc.
  unfold arrange_parameters, arranged, scan_peak.
  change (b_symmetric error) with symmetric.
  change (model_parameter_diff error) with max_diff.
  cbn [model_parameter_number error set_up_error_measure] in Hlen |- *.
  destruct (symmetric =? 0) eqn:Esym; cbn [negb] in Hlen |- *.
  - remember (Z.to_nat max_diff) as d eqn:Hd.
    assert (Ed : max_diff = Z.of_nat d) by lia. rewrite Ed in *.
    destruct (arrange_asymmetric sorted_params parameters d)
      as (x & p0 & [ps j] & Hget & Hset & Hrun & Hl & Hpeak & Hpos); [lia | assumption|].
    cbn [fst] in *. exists ps.
    rewrite Hget, bind_Ok, Hset, bind_Ok, Hrun, bind_Ok. cbn [fst].
    split; [reflexivity|]. split; [assumption|]. split; [cbv zeta; by split|].
    rewrite (aget_parameter ps d) by lia. rewrite !bind_Ok.
    rewrite (scan_decreasing_spec d 1 _ ps _ (fun k => parameter ps (d - k)%nat)).
    2:{ f_equal. lia. }
    2:{ intros k Hk.
        replace (Z.of_nat d - (1 + Z.of_nat k)) with (Z.of_nat (d - S k)) by lia.
        apply aget_parameter. lia. }
    rewrite !bind_Ok.
    rewrite (scan_decreasing_spec d 1 _ ps _ (fun k => parameter ps (d + k)%nat)).
    2:{ f_equal. lia. }
    2:{ intros k Hk.
        replace (Z.of_nat d + (1 + Z.of_nat k)) with (Z.of_nat (d + S k)) by lia.
        apply aget_parameter. lia. }
    rewrite bind_Ok. f_equal. apply orb_false_iff.
    split; apply existsb_seq_false; intros k Hk; cbn beta.
    + destruct (Hpos (S k)) as [Hnext _]; [lia|].
      destruct k as [|k].
      * rewrite Nat.sub_0_r.
        apply (ascending_parameter sorted_params ps d (d - 1)
                 (2 * d + 1 - 2 * 1) (2 * d)); try assumption; lia.
      * destruct (Hpos (S k)) as [Hthis _]; [lia|].
        apply (ascending_parameter sorted_params ps (d - S k) (d - S (S k))
                 (2 * d + 1 - 2 * S (S k)) (2 * d + 1 - 2 * S k)); try assumption; lia.
    + destruct (Hpos (S k)) as [_ Hnext]; [lia|].
      destruct k as [|k].
      * rewrite Nat.add_0_r.
        apply (ascending_parameter sorted_params ps d (d + 1)
                 (2 * d - 2 * 1) (2 * d)); try assumption; lia.
      * destruct (Hpos (S k)) as [_ Hthis]; [lia|].
        apply (ascending_parameter sorted_params ps (d + S k) (d + S (S k))
                 (2 * d - 2 * S (S k)) (2 * d - 2 * S k)); try assumption; lia.
  - destruct (arrange_symmetric sorted_params parameters (max_diff + 1))
      as ([ps j] & Hrun & Hl & Hpos); [assumption..|].
    cbn [fst] in *. exists ps. rewrite Hrun, bind_Ok. cbn [fst].
    split; [reflexivity|]. split; [assumption|]. split; [assumption|].
    rewrite aget_first_parameter by lia. rewrite bind_Ok.
    rewrite (scan_decreasing_spec _ 1 _ ps _ (parameter ps)).
    + f_equal. apply existsb_seq_false. intros k Hk. cbn beta.
      apply (ascending_parameter sorted_params ps k (S k)
               (length sorted_params - 1 - S k) (length sorted_params - 1 - k));
        try assumption; try lia; apply Hpos; lia.
    + reflexivity.
    + intros k Hk. replace (1 + Z.of_nat k) with (Z.of_nat (S k)) by lia.
      apply aget_parameter. lia.
Qed.

Lemma arranged_parameters_peak_witness :
  exists parameters',
    arrange_parameters (set_up_error_measure [] 3 [] 0 1 1)
      [0.125; 0.25; 0.5]%float [0; 0; 0]%float = Ok parameters' /\
    length parameters' = length [0; 0; 0]%float /\
    arranged (set_up_error_measure [] 3 [] 0 1 1) [0.125; 0.25; 0.5]%float parameters' /\
    scan_peak (set_up_error_measure [] 3 [] 0 1 1) parameters' = Ok false.
Proof.
  apply (arranged_parameters_peak [] 3 [] 0 1 1 [0.125; 0.25; 0.5]%float
           [0; 0; 0]%float).
  - lia.
  - reflexivity.
  - reflexivity.
  - intros a b x y Hab Ha Hb.
    destruct a as [|[|[|a]]], b as [|[|[|b]]]; cbn in Ha, Hb; try discriminate;
      try lia; injection Ha as <-; injection Hb as <-; reflexivity.
Defined.

Example arrange_parameters_examples :
  arrange_parameters (set_up_error_measure [] 3 [] 0 1 1)
    [0.125; 0.25; 0.5]%float [0; 0; 0]%float = Ok [0.25; 0.5; 0.125]%float /\
  arrange_parameters (set_up_error_measure [] 3 [] 1 2 1)
    [0.125; 0.25; 0.5]%float [0; 0; 0]%float = Ok [0.5; 0.25; 0.125]%float.
Proof. split; reflexivity. Qed.
